(** * Inactivity alerts of Monitoring-Ticks: the hook [useUserInactivityAlerts]
    (hooks/use-user-inactivity-alerts), [AlertService] (lib/alert-service.ts)
    and the paging of the alert history (components/alert-history.tsx).

    The hook keeps React state ([configurations], [alerts], [inactiveSymbols],
    [loading]), a ref [symbolStates] holding one mutable [SymbolState] object per
    instrument token, and browser resources (timers, oscillators, notifications).
    The embedding below makes all of that one explicit [World] that every
    operation of the hook transforms.

    Conventions of the embedding:
    - a JS [number] holding a price is written as a rational ([Q]) and stands
      for the IEEE 754 double nearest to it, as a numeric literal does
      ([number]); prices are only copied, compared by [Math.min] and
      [Math.max], and subtracted in the deviation test, which is computed on
      the doubles ([priceMoved]); no price is NaN.  An instrument token, a
      duration and a time in milliseconds are integers ([Z]);
    - [Date.now()] and [new Date()] are an argument [now] of the operation; all
      reads of the clock inside one synchronous handler return the same instant;
    - [SymbolState] objects live in a [heap] and are addressed by location, because
      timer callbacks and pending [triggerAlert] calls keep the object itself and
      not the token;
    - timer ids, oscillator handles, UUIDs and locations are drawn from one
      counter [nextId], so none is ever handed out twice;
    - React state setters take effect at once; the tick effect reads
      [inactiveSymbols] from the render it belongs to, which is passed as [snap];
    - the signed-in [user] does not change during a run;
    - an alert record holds in [alert_data.price_history] the points the array
      [state.priceHistory] has when the record is built; the array itself is
      shared with the state object (see [newAlert]);
    - an [await] is an event of its own: the part of an async function after the
      call of the store runs when the store has answered, with the answer as
      input; each run of the tick effect is an event too, also the runs React
      makes again because a dependency changed;
    - the table of the alert logs is the list [store], in the order of
      insertion; a query returns the rows in the order its [.order] asks for,
      rows that compare equal in the order of the table;
    - [getAlertStatistics] is embedded from the replies of its queries on. *)

From Stdlib Require Import ZArith QArith Qminmax String.
From Stdlib Require Import Sorting.Sorted DecimalString.
From Stdlib Require SpecFloat.
From stdpp Require Import base option list gmap fin_maps.

Local Open Scope Z_scope.

(** ** Data model *)

Module Tick.
(** [TickData] of hooks/use-tick-data: the fields the hook reads. *)
Record t := mk {
  instrument_token : Z;
  last_price : Q;
  receivedAt : Z
}.
End Tick.
Abbreviation TickData := Tick.t.

Module Config.
(** [UserAlertConfig], lib/alert-service.ts. *)
Record t := mk {
  id : option nat;
  user_id : string;
  instrument_token : Z;
  instrument_name : string;
  exchange : string;
  enabled : bool;
  deviation : Q;
  duration : Z;
  respect_market_hours : bool;
  notification_sound : bool;
  notification_browser : bool;
  notification_email : bool
}.
End Config.
Abbreviation UserAlertConfig := Config.t.

Record PricePoint := { price : Q; timestamp : Z }.

Module Log.
(** [alert_data]: the raw snapshot stored with an alert. *)
Record data := mk_data {
  tick_data : TickData;
  config : UserAlertConfig;
  price_history : list PricePoint
}.

(** [UserAlertLog], lib/alert-service.ts.  [price_range] holds
    [Math.min(...prices)] and [Math.max(...prices)]; [None] stands for the
    [Infinity] and [-Infinity] JS returns on an empty argument list. *)
Record t := mk {
  id : option nat;
  user_id : string;
  instrument_token : Z;
  instrument_name : string;
  exchange : string;
  alert_type : string;
  alert_data : data;
  baseline_price : Q;
  current_price : Q;
  price_range : option Q * option Q;
  deviation : Q;
  duration : Z;
  market_session : string;
  market_type : string;
  acknowledged : bool;
  acknowledged_at : option Z;
  created_at : option Z
}.

Definition with_id (i : nat) (c : Z) (r : t) : t :=
  mk (Some i) (user_id r) (instrument_token r) (instrument_name r) (exchange r)
     (alert_type r) (alert_data r) (baseline_price r) (current_price r)
     (price_range r) (deviation r) (duration r) (market_session r)
     (market_type r) (acknowledged r) (acknowledged_at r) (Some c).

(** [{ ...alert, acknowledged: true, acknowledged_at: <now> }] *)
Definition acknowledge (now : Z) (r : t) : t :=
  mk (id r) (user_id r) (instrument_token r) (instrument_name r) (exchange r)
     (alert_type r) (alert_data r) (baseline_price r) (current_price r)
     (price_range r) (deviation r) (duration r) (market_session r)
     (market_type r) true (Some now) (created_at r).

(** The record apart from the points of [alert_data.price_history]: the part
    of a record kept in memory that no later tick can change. *)
Definition without_history (r : t) : t :=
  mk (id r) (user_id r) (instrument_token r) (instrument_name r) (exchange r)
     (alert_type r) (mk_data (tick_data (alert_data r)) (config (alert_data r)) [])
     (baseline_price r) (current_price r)
     (price_range r) (deviation r) (duration r) (market_session r)
     (market_type r) (acknowledged r) (acknowledged_at r) (created_at r).
End Log.
Abbreviation UserAlertLog := Log.t.

Definition loc := nat.

(** [interface SymbolState]. [oscillator] and [gainNode] hold the handle of the
    running sound; [timerId] the id [setTimeout] returned (kept after the timer
    has fired, as in the source). *)
Record SymbolState := {
  baselinePrice : Q;
  timerId : option nat;
  priceHistory : list PricePoint;
  lastMarketStatusCheck : Z;
  wasMarketOpen : bool;
  oscillator : option nat;
  gainNode : option nat
}.

Definition set_baselinePrice (p : Q) (s : SymbolState) : SymbolState :=
  {| baselinePrice := p; timerId := timerId s; priceHistory := priceHistory s;
     lastMarketStatusCheck := lastMarketStatusCheck s; wasMarketOpen := wasMarketOpen s;
     oscillator := oscillator s; gainNode := gainNode s |}.
Definition set_timerId (i : option nat) (s : SymbolState) : SymbolState :=
  {| baselinePrice := baselinePrice s; timerId := i; priceHistory := priceHistory s;
     lastMarketStatusCheck := lastMarketStatusCheck s; wasMarketOpen := wasMarketOpen s;
     oscillator := oscillator s; gainNode := gainNode s |}.
Definition set_priceHistory (h : list PricePoint) (s : SymbolState) : SymbolState :=
  {| baselinePrice := baselinePrice s; timerId := timerId s; priceHistory := h;
     lastMarketStatusCheck := lastMarketStatusCheck s; wasMarketOpen := wasMarketOpen s;
     oscillator := oscillator s; gainNode := gainNode s |}.
Definition set_lastMarketStatusCheck (t : Z) (s : SymbolState) : SymbolState :=
  {| baselinePrice := baselinePrice s; timerId := timerId s; priceHistory := priceHistory s;
     lastMarketStatusCheck := t; wasMarketOpen := wasMarketOpen s;
     oscillator := oscillator s; gainNode := gainNode s |}.
Definition set_wasMarketOpen (b : bool) (s : SymbolState) : SymbolState :=
  {| baselinePrice := baselinePrice s; timerId := timerId s; priceHistory := priceHistory s;
     lastMarketStatusCheck := lastMarketStatusCheck s; wasMarketOpen := b;
     oscillator := oscillator s; gainNode := gainNode s |}.
(** [state.oscillator = o; state.gainNode = g] *)
Definition set_sound (o g : option nat) (s : SymbolState) : SymbolState :=
  {| baselinePrice := baselinePrice s; timerId := timerId s; priceHistory := priceHistory s;
     lastMarketStatusCheck := lastMarketStatusCheck s; wasMarketOpen := wasMarketOpen s;
     oscillator := o; gainNode := g |}.

(** ** Tick ingestion: [latestTicks], a JS [Map] in insertion order *)

Definition TickMap := list (Z * TickData).

Fixpoint map_get (k : Z) (m : TickMap) : option TickData :=
  match m with
  | [] => None
  | (k', v) :: m' => if Z.eqb k k' then Some v else map_get k m'
  end.

(** [Map.prototype.set]: an existing key keeps its place, a new one goes last. *)
Fixpoint map_set (k : Z) (v : TickData) (m : TickMap) : TickMap :=
  match m with
  | [] => [(k, v)]
  | (k', v') :: m' => if Z.eqb k k' then (k, v) :: m' else (k', v') :: map_set k v m'
  end.

(** The body of [for (const tick of ticks)]. *)
Definition latestTicks_step (m : TickMap) (tick : TickData) : TickMap :=
  match map_get (Tick.instrument_token tick) m with
  | None => map_set (Tick.instrument_token tick) tick m
  | Some old =>
      if Tick.receivedAt tick >? Tick.receivedAt old
      then map_set (Tick.instrument_token tick) tick m
      else m
  end.

Definition latestTicks (ticks : list TickData) : TickMap :=
  fold_left latestTicks_step ticks [].

(** ** The world the hook runs in *)

(** The closure [setTimeout] was given in [resetInactivityTimer]: it keeps the
    tick, the configuration and the state object of the call. *)
Record Timer := {
  tm_deadline : Z;
  tm_tick : TickData;
  tm_config : UserAlertConfig;
  tm_state : loc
}.

(** A [triggerAlert] call suspended at [await AlertService.logAlert(newAlert)]. *)
Record PendingAlert := {
  pa_alert : UserAlertLog;
  pa_tick : TickData;
  pa_config : UserAlertConfig;
  pa_state : loc
}.

(** The suspended call apart from the points of the history of its record. *)
Definition pa_without_history (pa : PendingAlert) : PendingAlert :=
  {| pa_alert := Log.without_history (pa_alert pa); pa_tick := pa_tick pa;
     pa_config := pa_config pa; pa_state := pa_state pa |}.

(** [Notification.permission]; [Unsupported] when [Notification] is not in [window]. *)
Inductive Permission := Unsupported | Granted | Denied | Default.

Inductive Effect :=
| SessionQueried (name : string) (now : Z)
| SoundStarted (token : Z) (osc : nat)
| BrowserNotification (alert : UserAlertLog)
| ToastShown (name : string) (baseline : Q) (duration : Z)
| ConsoleError (msg : string).

Record World := {
  user : option string;
  loading : bool;
  configurations : gmap Z UserAlertConfig;
  alerts : list UserAlertLog;
  inactiveSymbols : gset Z;
  symbolStates : gmap Z loc;
  heap : gmap loc SymbolState;
  audioContext : bool;
  timers : gmap nat Timer;
  playing : gset nat;
  notificationPermission : Permission;
  permissionRequests : list (UserAlertLog * UserAlertConfig);
  pendingLogs : list PendingAlert;
  store : list UserAlertLog;
  effects : list Effect;
  nextId : nat
}.

Definition upd_user (f : option string -> option string) (w : World) : World :=
  Build_World (f (user w)) (loading w) (configurations w) (alerts w) (inactiveSymbols w)
    (symbolStates w) (heap w) (audioContext w) (timers w) (playing w)
    (notificationPermission w) (permissionRequests w) (pendingLogs w) (store w) (effects w)
    (nextId w).
Definition upd_loading (f : bool -> bool) (w : World) : World :=
  Build_World (user w) (f (loading w)) (configurations w) (alerts w) (inactiveSymbols w)
    (symbolStates w) (heap w) (audioContext w) (timers w) (playing w)
    (notificationPermission w) (permissionRequests w) (pendingLogs w) (store w) (effects w)
    (nextId w).
Definition upd_configurations (f : gmap Z UserAlertConfig -> gmap Z UserAlertConfig)
  (w : World) : World :=
  Build_World (user w) (loading w) (f (configurations w)) (alerts w) (inactiveSymbols w)
    (symbolStates w) (heap w) (audioContext w) (timers w) (playing w)
    (notificationPermission w) (permissionRequests w) (pendingLogs w) (store w) (effects w)
    (nextId w).
Definition upd_alerts (f : list UserAlertLog -> list UserAlertLog) (w : World) : World :=
  Build_World (user w) (loading w) (configurations w) (f (alerts w)) (inactiveSymbols w)
    (symbolStates w) (heap w) (audioContext w) (timers w) (playing w)
    (notificationPermission w) (permissionRequests w) (pendingLogs w) (store w) (effects w)
    (nextId w).
Definition upd_inactiveSymbols (f : gset Z -> gset Z) (w : World) : World :=
  Build_World (user w) (loading w) (configurations w) (alerts w) (f (inactiveSymbols w))
    (symbolStates w) (heap w) (audioContext w) (timers w) (playing w)
    (notificationPermission w) (permissionRequests w) (pendingLogs w) (store w) (effects w)
    (nextId w).
Definition upd_symbolStates (f : gmap Z loc -> gmap Z loc) (w : World) : World :=
  Build_World (user w) (loading w) (configurations w) (alerts w) (inactiveSymbols w) (f
    (symbolStates w)) (heap w) (audioContext w) (timers w) (playing w)
    (notificationPermission w) (permissionRequests w) (pendingLogs w) (store w) (effects w)
    (nextId w).
Definition upd_heap (f : gmap loc SymbolState -> gmap loc SymbolState) (w : World) : World :=
  Build_World (user w) (loading w) (configurations w) (alerts w) (inactiveSymbols w)
    (symbolStates w) (f (heap w)) (audioContext w) (timers w) (playing w)
    (notificationPermission w) (permissionRequests w) (pendingLogs w) (store w) (effects w)
    (nextId w).
Definition upd_audioContext (f : bool -> bool) (w : World) : World :=
  Build_World (user w) (loading w) (configurations w) (alerts w) (inactiveSymbols w)
    (symbolStates w) (heap w) (f (audioContext w)) (timers w) (playing w)
    (notificationPermission w) (permissionRequests w) (pendingLogs w) (store w) (effects w)
    (nextId w).
Definition upd_timers (f : gmap nat Timer -> gmap nat Timer) (w : World) : World :=
  Build_World (user w) (loading w) (configurations w) (alerts w) (inactiveSymbols w)
    (symbolStates w) (heap w) (audioContext w) (f (timers w)) (playing w)
    (notificationPermission w) (permissionRequests w) (pendingLogs w) (store w) (effects w)
    (nextId w).
Definition upd_playing (f : gset nat -> gset nat) (w : World) : World :=
  Build_World (user w) (loading w) (configurations w) (alerts w) (inactiveSymbols w)
    (symbolStates w) (heap w) (audioContext w) (timers w) (f (playing w))
    (notificationPermission w) (permissionRequests w) (pendingLogs w) (store w) (effects w)
    (nextId w).
Definition upd_notificationPermission (f : Permission -> Permission) (w : World) : World :=
  Build_World (user w) (loading w) (configurations w) (alerts w) (inactiveSymbols w)
    (symbolStates w) (heap w) (audioContext w) (timers w) (playing w) (f
    (notificationPermission w)) (permissionRequests w) (pendingLogs w) (store w) (effects w)
    (nextId w).
Definition upd_permissionRequests
  (f : list (UserAlertLog * UserAlertConfig) -> list (UserAlertLog * UserAlertConfig))
  (w : World) : World :=
  Build_World (user w) (loading w) (configurations w) (alerts w) (inactiveSymbols w)
    (symbolStates w) (heap w) (audioContext w) (timers w) (playing w)
    (notificationPermission w) (f (permissionRequests w)) (pendingLogs w) (store w) (effects
    w) (nextId w).
Definition upd_pendingLogs (f : list PendingAlert -> list PendingAlert) (w : World) : World :=
  Build_World (user w) (loading w) (configurations w) (alerts w) (inactiveSymbols w)
    (symbolStates w) (heap w) (audioContext w) (timers w) (playing w)
    (notificationPermission w) (permissionRequests w) (f (pendingLogs w)) (store w) (effects
    w) (nextId w).
Definition upd_store (f : list UserAlertLog -> list UserAlertLog) (w : World) : World :=
  Build_World (user w) (loading w) (configurations w) (alerts w) (inactiveSymbols w)
    (symbolStates w) (heap w) (audioContext w) (timers w) (playing w)
    (notificationPermission w) (permissionRequests w) (pendingLogs w) (f (store w)) (effects
    w) (nextId w).
Definition upd_effects (f : list Effect -> list Effect) (w : World) : World :=
  Build_World (user w) (loading w) (configurations w) (alerts w) (inactiveSymbols w)
    (symbolStates w) (heap w) (audioContext w) (timers w) (playing w)
    (notificationPermission w) (permissionRequests w) (pendingLogs w) (store w) (f (effects
    w)) (nextId w).
Definition upd_nextId (f : nat -> nat) (w : World) : World :=
  Build_World (user w) (loading w) (configurations w) (alerts w) (inactiveSymbols w)
    (symbolStates w) (heap w) (audioContext w) (timers w) (playing w)
    (notificationPermission w) (permissionRequests w) (pendingLogs w) (store w) (effects w)
    (f (nextId w)).

(** [heap[l] = f(heap[l])]: an assignment to a field of the object at [l]. *)
Definition modify (l : loc) (f : SymbolState -> SymbolState) (w : World) : World :=
  upd_heap (alter f l) w.

(** [symbolStates.current.get(token)], with the object it refers to. *)
Definition getState (token : Z) (w : World) : option (loc * SymbolState) :=
  match symbolStates w !! token with
  | Some l => match heap w !! l with
              | Some st => Some (l, st)
              | None => None
              end
  | None => None
  end.

(** ** The collaborators the hook imports

    [getInstrumentName] (components/market-data-grid) and the two queries of
    utils/market-timings are not part of the sources at hand; they are
    parameters of the development.  The market-timing queries read the wall
    clock, which is their second argument here. *)
Class MarketTimings := {
  getInstrumentName : TickData -> string;
  shouldAlertsBeActive : string -> Z -> bool;
  getDetailedMarketStatus : string -> Z -> string * string
}.

(** ** [AlertService]: the calls of lib/alert-service.ts the hook awaits.
    [ok = false] is the case [error] is set in the reply of the store. *)

Definition AlertService_logAlert (ok : bool) (now : Z) (log : UserAlertLog) (w : World)
  : World * bool :=
  if ok then (upd_store (fun s => s ++ [Log.with_id (nextId w) now log]) (upd_nextId S w), true)
  else (upd_effects (cons (ConsoleError "Error logging alert:")) w, false).

Definition AlertService_saveAlertConfig (ok : bool) (w : World) : World * bool :=
  if ok then (w, true)
  else (upd_effects (cons (ConsoleError "Error saving alert config:")) w, false).

Definition has_id (alertId : nat) (r : UserAlertLog) : bool :=
  match Log.id r with
  | Some i => Nat.eqb i alertId
  | None => false
  end.

(** [.update({acknowledged: true, acknowledged_at}).eq("id", alertId).eq("user_id", userId)] *)
Definition AlertService_acknowledgeAlert (ok : bool) (now : Z) (userId : string)
  (alertId : nat) (w : World) : World * bool :=
  if ok then
    (upd_store (map (fun r => if has_id alertId r && String.eqb (Log.user_id r) userId
                              then Log.acknowledge now r else r)) w, true)
  else (upd_effects (cons (ConsoleError "Error acknowledging alert:")) w, false).

(** [.update({...}).eq("user_id", userId).eq("acknowledged", false)] *)
Definition AlertService_acknowledgeAllAlerts (ok : bool) (now : Z) (userId : string)
  (w : World) : World * bool :=
  if ok then
    (upd_store (map (fun r => if String.eqb (Log.user_id r) userId && negb (Log.acknowledged r)
                              then Log.acknowledge now r else r)) w, true)
  else (upd_effects (cons (ConsoleError "Error acknowledging all alerts:")) w, false).

(** ** The hook *)

Definition clearTimeout (id : nat) (w : World) : World := upd_timers (delete id) w.

Definition stopAlertSound (token : Z) (w : World) : World :=
  match getState token w with
  | Some (l, st) =>
      match oscillator st with
      | Some o => modify l (set_sound None None) (upd_playing (fun p => p ∖ {[o]}) w)
      | None => w
      end
  | None => w
  end.

Definition playAlertSound (token : Z) (config : UserAlertConfig) (w : World) : World :=
  if negb (Config.notification_sound config) || negb (audioContext w) then w
  else
    let w1 := stopAlertSound token w in
    let o := nextId w1 in
    let w2 := upd_effects (cons (SoundStarted token o))
                (upd_playing (fun p => {[o]} ∪ p) (upd_nextId S w1)) in
    match getState token w2 with
    | Some (l, _) => modify l (set_sound (Some o) (Some o)) w2
    | None => w2
    end.

Definition showBrowserNotification (alert : UserAlertLog) (config : UserAlertConfig)
  (w : World) : World :=
  if negb (Config.notification_browser config) then w
  else match notificationPermission w with
       | Unsupported => w
       | Granted => upd_effects (cons (BrowserNotification alert)) w
       | Denied => w
       | Default => upd_permissionRequests (fun q => q ++ [(alert, config)]) w
       end.

(** The [.then] of [Notification.requestPermission()]: the [i]-th request
    settles with [permission]. *)
Definition permissionSettled (i : nat) (permission : Permission) (w : World) : World :=
  match permissionRequests w !! i with
  | Some (alert, config) =>
      let w1 := upd_notificationPermission (fun _ => permission)
                  (upd_permissionRequests (delete i) w) in
      match permission with
      | Granted => showBrowserNotification alert config w1
      | _ => w1
      end
  | None => w
  end.

(** [Math.min(...prices)] and [Math.max(...prices)]. *)
Definition Math_min (l : list Q) : option Q :=
  match l with
  | [] => None
  | x :: l' => Some (fold_left Qmin l' x)
  end.
Definition Math_max (l : list Q) : option Q :=
  match l with
  | [] => None
  | x :: l' => Some (fold_left Qmax l' x)
  end.

Section Hook.
Context `{MarketTimings}.

(** The object literal [newAlert] of [triggerAlert].

    [alert_data.price_history] is the array [state.priceHistory] itself, not a
    copy of it.  [Log.price_history] holds the points of that array when the
    record is built, which are the points of [prices] and of [price_range].
    The tick effect appends to the array of a state object once more before it
    gives the object a new array ([watchPrice]); a record still in memory by
    then ([pendingLogs], [alerts], [permissionRequests]) sees that one point
    more in its [price_history].  The embedding keeps the points the record
    was built with, and the properties of [watchPrice] speak of the records in
    memory apart from them ([Log.without_history]). *)
Definition newAlert (uid : string) (tick : TickData) (config : UserAlertConfig)
  (state : SymbolState) (now : Z) : UserAlertLog :=
  let instrumentName := getInstrumentName tick in
  let marketStatus := getDetailedMarketStatus instrumentName now in
  let prices := map price (priceHistory state) in
  Log.mk None uid (Tick.instrument_token tick) instrumentName (Config.exchange config)
    "inactivity" (Log.mk_data tick config (priceHistory state))
    (baselinePrice state) (Tick.last_price tick) (Math_min prices, Math_max prices)
    (Config.deviation config) (Config.duration config) (fst marketStatus) (snd marketStatus)
    false None None.

(** [triggerAlert] up to its [await]: the record is built and handed to
    [AlertService.logAlert]. *)
Definition triggerAlert (tick : TickData) (config : UserAlertConfig) (l : loc) (now : Z)
  (w : World) : World :=
  match user w with
  | None => w
  | Some uid =>
      match heap w !! l with
      | Some state =>
          upd_pendingLogs (fun q => q ++ [{| pa_alert := newAlert uid tick config state now;
                                             pa_tick := tick; pa_config := config;
                                             pa_state := l |}]) w
      | None => w
      end
  end.

(** [triggerAlert] after its [await]: [ok] is what the store answered. *)
Definition triggerAlert_resume (pa : PendingAlert) (ok : bool) (now : Z) (w : World) : World :=
  let '(w1, success) := AlertService_logAlert ok now (pa_alert pa) w in
  if success then
    let token := Tick.instrument_token (pa_tick pa) in
    let w2 := upd_alerts (fun prev => take 100 (Log.with_id (nextId w1) now (pa_alert pa) :: prev))
                (upd_nextId S w1) in
    let w3 := upd_inactiveSymbols (fun prev => prev ∪ {[token]}) w2 in
    let w4 := playAlertSound token (pa_config pa) w3 in
    let w5 := showBrowserNotification (Log.with_id (nextId w4) now (pa_alert pa)) (pa_config pa)
                (upd_nextId S w4) in
    match heap w5 !! pa_state pa with
    | Some state =>
        upd_effects (cons (ToastShown (Log.instrument_name (pa_alert pa)) (baselinePrice state)
                             (Config.duration (pa_config pa)))) w5
    | None => w5
    end
  else w1.

(** [AlertService.logAlert] of the [i]-th pending [triggerAlert] settles. *)
Definition logAlertSettled (i : nat) (ok : bool) (now : Z) (w : World) : World :=
  match pendingLogs w !! i with
  | Some pa => triggerAlert_resume pa ok now (upd_pendingLogs (delete i) w)
  | None => w
  end.

(** [config.respect_market_hours ? shouldAlertsBeActive(instrumentName) : true]:
    the value [shouldAlertNow], and the call of the oracle it makes when the
    configuration respects market hours, recorded in [effects]. *)
Definition shouldAlertNow (config : UserAlertConfig) (instrumentName : string) (now : Z)
  : bool :=
  if Config.respect_market_hours config then shouldAlertsBeActive instrumentName now else true.

Definition noteSessionQuery (config : UserAlertConfig) (instrumentName : string) (now : Z)
  (w : World) : World :=
  if Config.respect_market_hours config
  then upd_effects (cons (SessionQueried instrumentName now)) w
  else w.

Definition clearSymbolState (token : Z) (w : World) : World :=
  let w1 := match getState token w with
            | Some (_, state) =>
                match timerId state with
                | Some id => clearTimeout id w
                | None => w
                end
            | None => w
            end in
  let w2 := stopAlertSound token w1 in
  let w3 := upd_symbolStates (delete token) w2 in
  upd_inactiveSymbols (fun prev => if decide (token ∈ prev) then prev ∖ {[token]} else prev) w3.

(** [resetInactivityTimer(tick, config, state)], [state] being the object at [l].
    A negative delay counts as zero for [setTimeout]. *)
Definition resetInactivityTimer (tick : TickData) (config : UserAlertConfig) (l : loc)
  (now : Z) (w : World) : World :=
  match heap w !! l with
  | None => w
  | Some state =>
      let w1 := match timerId state with
                | Some id => clearTimeout id w
                | None => w
                end in
      let w2 := modify l (set_priceHistory
                  [{| price := Tick.last_price tick; timestamp := now |}]) w1 in
      let id := nextId w2 in
      let tm := {| tm_deadline := now + Z.max 0 (Config.duration config * 1000);
                   tm_tick := tick; tm_config := config; tm_state := l |} in
      modify l (set_timerId (Some id)) (upd_timers <[id := tm]> (upd_nextId S w2))
  end.

(** The function given to [setTimeout], run when timer [id] elapses. *)
Definition timerCallback (tm : Timer) (now : Z) (w : World) : World :=
  let tick := tm_tick tm in
  let config := tm_config tm in
  let instrumentName := getInstrumentName tick in
  let shouldAlert := shouldAlertNow config instrumentName now in
  let w1 := noteSessionQuery config instrumentName now w in
  if shouldAlert then triggerAlert tick config (tm_state tm) now w1
  else clearSymbolState (Tick.instrument_token tick)
         (stopAlertSound (Tick.instrument_token tick) w1).

Definition timeout (id : nat) (now : Z) (w : World) : World :=
  match timers w !! id with
  | Some tm => timerCallback tm now (upd_timers (delete id) w)
  | None => w
  end.

(** [if (inactiveSymbols.has(token)) setInactiveSymbols(prev => prev without token)];
    [snap] is the value of [inactiveSymbols] the effect closed over. *)
Definition dropInactive (snap : gset Z) (token : Z) (w : World) : World :=
  if decide (token ∈ snap) then upd_inactiveSymbols (fun prev => prev ∖ {[token]}) w else w.

(** [state.baselinePrice = tick.last_price; resetInactivityTimer(...);
    if (inactiveSymbols.has(...)) ...; stopAlertSound(...)]: the text shared by
    the branch "session became active" and the branch "price moved". *)
Definition rearm (snap : gset Z) (tick : TickData) (config : UserAlertConfig) (l : loc)
  (now : Z) (w : World) : World :=
  let token := Tick.instrument_token tick in
  let w1 := modify l (set_baselinePrice (Tick.last_price tick)) w in
  let w2 := resetInactivityTimer tick config l now w1 in
  let w3 := dropInactive snap token w2 in
  stopAlertSound token w3.

(** [stopAlertSound(token); if (state.timerId) { clearTimeout(state.timerId);
    state.timerId = null }]: shared by "session became inactive" and "suspended". *)
Definition suspend (token : Z) (l : loc) (w : World) : World :=
  let w1 := stopAlertSound token w in
  match heap w1 !! l with
  | Some state =>
      match timerId state with
      | Some id => modify l (set_timerId None) (clearTimeout id w1)
      | None => w1
      end
  | None => w1
  end.

(** [Array.prototype.slice(-n)]: the last [n] elements. *)
Definition slice_last {A} (n : nat) (l : list A) : list A := drop (length l - n) l.

(** The double a price stands for: the quotient of numerator and denominator
    rounded to nearest, ties to even, in binary64 (53 bits of mantissa,
    exponent of the infinities 1024); a rational beyond the range of the
    doubles gives an infinity, as a literal does. *)
Definition prec : Z := 53.
Definition emax : Z := 1024.

Definition number (q : Q) : SpecFloat.spec_float :=
  match Qnum q with
  | Z0 => SpecFloat.S754_zero false
  | Zpos n => SpecFloat.SFdiv prec emax (SpecFloat.S754_finite false n 0)
                (SpecFloat.S754_finite false (Qden q) 0)
  | Zneg n => SpecFloat.SFdiv prec emax (SpecFloat.S754_finite true n 0)
                (SpecFloat.S754_finite false (Qden q) 0)
  end.

(** [Math.abs(tick.last_price - state.baselinePrice) > config.deviation], on
    doubles: the difference is rounded, [Math.abs] and [>] are exact. *)
Definition priceMoved (tick : TickData) (state : SymbolState) (config : UserAlertConfig) : bool :=
  SpecFloat.SFltb (number (Config.deviation config))
    (SpecFloat.SFabs (SpecFloat.SFsub prec emax (number (Tick.last_price tick))
                        (number (baselinePrice state)))).

(** The end of the [forEach] body: history append, pruning, deviation test. *)
Definition watchPrice (snap : gset Z) (tick : TickData) (config : UserAlertConfig) (l : loc)
  (now : Z) (w : World) : World :=
  let w1 := modify l (fun st => set_priceHistory
              (priceHistory st ++ [{| price := Tick.last_price tick; timestamp := now |}]) st) w in
  let fiveMinutesAgo := now - 5 * 60 * 1000 in
  let w2 := modify l (fun st => set_priceHistory
              (slice_last 100 (List.filter (fun h => fiveMinutesAgo <? timestamp h)
                                 (priceHistory st))) st) w1 in
  match heap w2 !! l with
  | Some state =>
      if priceMoved tick state config then rearm snap tick config l now w2 else w2
  | None => w2
  end.

(** The [forEach] body once a state object exists for the token. *)
Definition processExisting (snap : gset Z) (tick : TickData) (config : UserAlertConfig)
  (shouldAlert : bool) (l : loc) (state : SymbolState) (now : Z) (w : World) : World :=
  let token := Tick.instrument_token tick in
  let due := now - lastMarketStatusCheck state >? 60000 in
  let w1 := if due then modify l (set_lastMarketStatusCheck now) w else w in
  if due && negb (Bool.eqb (wasMarketOpen state) shouldAlert) then
    let w2 := modify l (set_wasMarketOpen shouldAlert) w1 in
    if shouldAlert then rearm snap tick config l now w2 else suspend token l w2
  else if negb shouldAlert && Config.respect_market_hours config then suspend token l w1
  else watchPrice snap tick config l now w1.

(** The body of [latestTicks.forEach((tick) => ...)]. *)
Definition processTick (snap : gset Z) (now : Z) (tick : TickData) (w : World) : World :=
  let token := Tick.instrument_token tick in
  match configurations w !! token with
  | None => clearSymbolState token w
  | Some config =>
      if negb (Config.enabled config) then clearSymbolState token w
      else
        let instrumentName := getInstrumentName tick in
        let shouldAlert := shouldAlertNow config instrumentName now in
        let w0 := noteSessionQuery config instrumentName now w in
        match getState token w0 with
        | None =>
            let l := nextId w0 in
            let state := {| baselinePrice := Tick.last_price tick;
                            timerId := None;
                            priceHistory := [{| price := Tick.last_price tick; timestamp := now |}];
                            lastMarketStatusCheck := now;
                            wasMarketOpen := shouldAlert;
                            oscillator := None;
                            gainNode := None |} in
            let w1 := upd_symbolStates <[token := l]> (upd_heap <[l := state]> (upd_nextId S w0)) in
            if shouldAlert then resetInactivityTimer tick config l now w1 else w1
        | Some (l, state) => processExisting snap tick config shouldAlert l state now w0
        end
  end.

(** The main tick-processing effect, run on the batch [ticks] at time [now]. *)
Definition processTicks (ticks : list TickData) (now : Z) (w : World) : World :=
  match user w with
  | None => w
  | Some _ =>
      if loading w then w
      else fold_left (fun w' kv => processTick (inactiveSymbols w) now (snd kv) w')
             (latestTicks ticks) w
  end.

Definition updateConfiguration (token : Z) (config : UserAlertConfig) (ok : bool) (w : World)
  : World * bool :=
  match user w with
  | None => (w, false)
  | Some _ =>
      let '(w1, success) := AlertService_saveAlertConfig ok w in
      if success then
        let config' := Config.mk (Some (nextId w1)) (Config.user_id config)
                         (Config.instrument_token config) (Config.instrument_name config)
                         (Config.exchange config) (Config.enabled config)
                         (Config.deviation config) (Config.duration config)
                         (Config.respect_market_hours config) (Config.notification_sound config)
                         (Config.notification_browser config) (Config.notification_email config) in
        (clearSymbolState token (upd_configurations <[token := config']> (upd_nextId S w1)), true)
      else (w1, false)
  end.

(** [acknowledgeAlert(alertId)]: [tStore] is the clock read inside
    [AlertService.acknowledgeAlert], [tCache] the one read in [setAlerts]. *)
Definition acknowledgeAlert (alertId : nat) (ok : bool) (tStore tCache : Z) (w : World)
  : World * bool :=
  match user w with
  | None => (w, false)
  | Some uid =>
      let '(w1, success) := AlertService_acknowledgeAlert ok tStore uid alertId w in
      if success then
        (upd_alerts (map (fun alert => if has_id alertId alert
                                       then Log.acknowledge tCache alert else alert)) w1, true)
      else (w1, false)
  end.

Definition clearAllAlerts (ok : bool) (now : Z) (w : World) : World :=
  match user w with
  | None => w
  | Some uid =>
      let '(w1, success) := AlertService_acknowledgeAllAlerts ok now uid w in
      if success then
        let w2 := upd_alerts (fun _ => []) w1 in
        let w3 := fold_left (fun w' token => stopAlertSound token w')
                    (map fst (map_to_list (symbolStates w2))) w2 in
        upd_inactiveSymbols (fun _ => ∅) w3
      else w1
  end.

(** [loadUserConfigurations] once [AlertService.getUserAlertConfigs] has answered [configs]. *)
Definition configurationsLoaded (configs : list UserAlertConfig) (w : World) : World :=
  match user w with
  | None => w
  | Some _ =>
      upd_loading (fun _ => false)
        (upd_configurations
           (fun _ => fold_left (fun m c => <[Config.instrument_token c := c]> m) configs ∅) w)
  end.

(** [loadRecentAlerts] once [AlertService.getUserAlertLogs] has answered [logs]. *)
Definition recentAlertsLoaded (logs : list UserAlertLog) (w : World) : World :=
  match user w with
  | None => w
  | Some _ =>
      upd_inactiveSymbols
        (fun _ => fold_left (fun s log => if Log.acknowledged log then s
                                          else s ∪ {[Log.instrument_token log]}) logs ∅)
        (upd_alerts (fun _ => logs) w)
  end.

(** The first click creates the [AudioContext]. *)
Definition initAudio (w : World) : World := upd_audioContext (fun _ => true) w.

(** ** Runs of the hook *)

Inductive Event :=
| Ticks (batch : list TickData)
| Timeout (id : nat)
| LogAlertSettled (i : nat) (ok : bool)
| PermissionSettled (i : nat) (permission : Permission)
| UpdateConfiguration (token : Z) (config : UserAlertConfig) (ok : bool)
| AcknowledgeAlert (alertId : nat) (ok : bool)
| ClearAllAlerts (ok : bool)
| ConfigurationsLoaded (configs : list UserAlertConfig)
| RecentAlertsLoaded (logs : list UserAlertLog)
| InitAudio.

Definition step (now : Z) (ev : Event) (w : World) : World :=
  match ev with
  | Ticks batch => processTicks batch now w
  | Timeout id => timeout id now w
  | LogAlertSettled i ok => logAlertSettled i ok now w
  | PermissionSettled i p => permissionSettled i p w
  | UpdateConfiguration token config ok => fst (updateConfiguration token config ok w)
  | AcknowledgeAlert alertId ok => fst (acknowledgeAlert alertId ok now now w)
  | ClearAllAlerts ok => clearAllAlerts ok now w
  | ConfigurationsLoaded configs => configurationsLoaded configs w
  | RecentAlertsLoaded logs => recentAlertsLoaded logs w
  | InitAudio => initAudio w
  end.

Definition run (evs : list (Z * Event)) (w : World) : World :=
  fold_left (fun w' e => step (fst e) (snd e) w') evs w.

(** The hook as mounted for the signed-in user [uid]: nothing loaded yet. *)
Definition initial (uid : string) (permission : Permission) : World :=
  {| user := Some uid; loading := true; configurations := ∅; alerts := [];
     inactiveSymbols := ∅; symbolStates := ∅; heap := ∅; audioContext := false;
     timers := ∅; playing := ∅; notificationPermission := permission;
     permissionRequests := []; pendingLogs := []; store := []; effects := [];
     nextId := 1%nat |}.

(** The states the hook can be in: after any number of events, and in the
    middle of a batch, after some of its ticks. *)
Inductive reachable : World -> Prop :=
| reachable_initial uid permission : reachable (initial uid permission)
| reachable_step now ev w : reachable w -> reachable (step now ev w)
| reachable_tick snap now tick w : reachable w -> reachable (processTick snap now tick w).

(** The pending timer that elapses first, among those due at [t]
    (the smaller id first when two deadlines coincide). *)
Definition earlier (a b : nat * Timer) : bool :=
  (tm_deadline (snd a) <? tm_deadline (snd b))
  || ((tm_deadline (snd a) =? tm_deadline (snd b)) && Nat.leb (fst a) (fst b)).

Definition earliestDue (t : Z) (w : World) : option (nat * Timer) :=
  fold_left (fun best c =>
               if tm_deadline (snd c) <=? t then
                 match best with
                 | Some b => if earlier b c then Some b else Some c
                 | None => Some c
                 end
               else best)
    (map_to_list (timers w)) None.

(** Let the clock run to [t] with no event but the timers that elapse, each at
    its deadline. *)
Fixpoint advance (fuel : nat) (t : Z) (w : World) : World :=
  match fuel with
  | O => w
  | S fuel' =>
      match earliestDue t w with
      | Some (id, tm) => advance fuel' t (timeout id (tm_deadline tm) w)
      | None => w
      end
  end.

End Hook.

(** ** Predicates and state views used in the proofs *)

(** The invariant of the engine.

    Every pending timer belongs to the state object it closed over: that object
    records the timer's id, and its baseline is the price of the tick the timer
    closed over.  Ids and locations in use are below the counter, histories hold
    at most 100 points, and every record handed to [AlertService.logAlert] has
    its current price equal to its baseline and was built from an object of the
    heap. *)
Definition state_ok (n : nat) (st : SymbolState) : Prop :=
  (length (priceHistory st) <= 100)%nat /\ forall id, timerId st = Some id -> (id < n)%nat.

Record Inv (w : World) : Prop := {
  inv_timers : forall id tm, timers w !! id = Some tm ->
    (id < nextId w)%nat /\
    exists st, heap w !! tm_state tm = Some st /\ timerId st = Some id
               /\ baselinePrice st = Tick.last_price (tm_tick tm);
  inv_heap : forall l st, heap w !! l = Some st -> (l < nextId w)%nat /\ state_ok (nextId w) st;
  inv_pending : forall pa, pa ∈ pendingLogs w ->
    Log.current_price (pa_alert pa) = Log.baseline_price (pa_alert pa)
    /\ is_Some (heap w !! pa_state pa)
}.

(** [w] is [w0] with some sounds stopped: same tokens and objects, fewer
    oscillators playing, and an object either kept its oscillator or lost it
    together with the oscillator's place among the playing ones. *)
Definition quieter (w0 w : World) : Prop :=
  symbolStates w = symbolStates w0
  /\ (forall o, o ∈ playing w -> o ∈ playing w0)
  /\ forall l st0, heap w0 !! l = Some st0 ->
       exists st, heap w !! l = Some st
         /\ (oscillator st = oscillator st0
             \/ (oscillator st = None /\ forall o, oscillator st0 = Some o -> o ∉ playing w)).


(** What the operations of the hook leave of the state object of a token:
    [stopAlertSound] ([silenced]), the shared text of "session became active"
    and "price moved" ([rearmed]), the shared text of "session became inactive"
    and "suspended" ([suspended]), the history update ([pruned]), the end of the
    [forEach] body ([watched]) and the whole body once the object exists
    ([checked]).  [cancelled] is what [clearTimeout(state.timerId)] leaves of
    the pending timers. *)
Definition silenced (st : SymbolState) : SymbolState :=
  match oscillator st with
  | Some _ => set_sound None None st
  | None => st
  end.

Definition cancelled (id : option nat) (m : gmap nat Timer) : gmap nat Timer :=
  match id with
  | Some i => delete i m
  | None => m
  end.

Definition rearmed (tick : TickData) (n : nat) (now : Z) (st : SymbolState) : SymbolState :=
  silenced (set_timerId (Some n)
              (set_priceHistory [{| price := Tick.last_price tick; timestamp := now |}]
                 (set_baselinePrice (Tick.last_price tick) st))).

Definition suspended (st : SymbolState) : SymbolState :=
  match timerId (silenced st) with
  | Some _ => set_timerId None (silenced st)
  | None => silenced st
  end.

Definition pruned (tick : TickData) (now : Z) (st : SymbolState) : SymbolState :=
  set_priceHistory
    (slice_last 100
       (List.filter (fun h => now - 5 * 60 * 1000 <? timestamp h)
          (priceHistory st ++ [{| price := Tick.last_price tick; timestamp := now |}]))) st.

Definition watched (tick : TickData) (config : UserAlertConfig) (n : nat) (now : Z)
  (st : SymbolState) : SymbolState :=
  if priceMoved tick (pruned tick now st) config
  then rearmed tick n now (pruned tick now st)
  else pruned tick now st.

Definition checked (tick : TickData) (config : UserAlertConfig) (shouldAlert : bool) (n : nat)
  (now : Z) (st : SymbolState) : SymbolState :=
  let due := now - lastMarketStatusCheck st >? 60000 in
  let st1 := if due then set_lastMarketStatusCheck now st else st in
  if due && negb (Bool.eqb (wasMarketOpen st) shouldAlert) then
    if shouldAlert then rearmed tick n now (set_wasMarketOpen shouldAlert st1)
    else suspended (set_wasMarketOpen shouldAlert st1)
  else if negb shouldAlert && Config.respect_market_hours config then suspended st1
  else watched tick config n now st1.

(** A history point less than five minutes old at [now]. *)
Definition recent (now : Z) (h : PricePoint) : Prop := now - 5 * 60 * 1000 < timestamp h.


(** ** More of lib/alert-service.ts and of its callers *)

(** *** [AlertService.getUserAlertLogs] and its callers *)

(** A stable sort by insertion: [before a b] tells that [a] may stand before
    [b]; elements that may stand either way keep their order. *)
Fixpoint place {A} (before : A -> A -> bool) (a : A) (l : list A) : list A :=
  match l with
  | [] => [a]
  | x :: l' => if before a x then a :: x :: l' else x :: place before a l'
  end.

Definition sorted_by {A} (before : A -> A -> bool) (l : list A) : list A :=
  foldr (place before) [] l.

(** The [options] argument; [None] is an absent field.  A limit and an offset
    are natural numbers, as at both call sites, and a date is the instant its
    ISO string denotes. *)
Module Options.
Record t := mk {
  limit : option nat;
  offset : option nat;
  instrumentToken : option Z;
  alertType : option string;
  startDate : option Z;
  endDate : option Z;
  acknowledged : option bool
}.
End Options.

(** [n || d] on numbers: [0] and [undefined] give [d]. *)
Definition or_default (n : option nat) (d : nat) : nat :=
  match n with
  | Some (S k) => S k
  | _ => d
  end.

(** The [.eq], [.gte] and [.lte] filters the query carries: a filter is added
    only for a truthy option ([acknowledged]: for one that is not [undefined]). *)
Definition selected (userId : string) (options : Options.t) (r : UserAlertLog) : bool :=
  String.eqb (Log.user_id r) userId
  && match Options.instrumentToken options with
     | Some token => if token =? 0 then true else Log.instrument_token r =? token
     | None => true
     end
  && match Options.alertType options with
     | Some ty => if String.eqb ty EmptyString then true else String.eqb (Log.alert_type r) ty
     | None => true
     end
  && match Options.startDate options with
     | Some d => match Log.created_at r with Some c => d <=? c | None => false end
     | None => true
     end
  && match Options.endDate options with
     | Some d => match Log.created_at r with Some c => c <=? d | None => false end
     | None => true
     end
  && match Options.acknowledged options with
     | Some b => Bool.eqb (Log.acknowledged r) b
     | None => true
     end.

(** [.order("created_at", { ascending: false })]: [a] may stand before [b].
    Rows of equal [created_at] stay in the order of the table. *)
Definition newer (a b : UserAlertLog) : bool :=
  match Log.created_at a, Log.created_at b with
  | None, _ => true
  | Some _, None => false
  | Some x, Some y => y <=? x
  end.

Definition order_created_desc (rows : list UserAlertLog) : list UserAlertLog :=
  sorted_by newer rows.

(** The rows the query of [getUserAlertLogs] matches, in its order. *)
Definition matching (userId : string) (options : Options.t) (w : World) : list UserAlertLog :=
  order_created_desc (List.filter (selected userId options) (store w)).

(** [.range(from, from + limit - 1)] with [count: "exact"]: a window of the
    matching rows, and the number of all of them. *)
Definition AlertService_getUserAlertLogs (ok : bool) (userId : string) (options : Options.t)
  (w : World) : World * (list UserAlertLog * nat) :=
  if ok then
    let from := or_default (Options.offset options) 0 in
    let count := or_default (Options.limit options) 50 in
    (w, (take count (drop from (matching userId options w)),
         length (matching userId options w)))
  else (upd_effects (cons (ConsoleError "Error fetching alert logs:")) w, ([], 0%nat)).

(** [loadRecentAlerts] of the hook, with the reply of the store. *)
Definition loadRecentAlerts (ok : bool) (w : World) : World :=
  match user w with
  | None => w
  | Some uid =>
      let '(w1, (logs, _)) :=
        AlertService_getUserAlertLogs ok uid
          (Options.mk (Some 50%nat) None None None None None (Some false)) w in
      recentAlertsLoaded logs w1
  end.

(** components/alert-history.tsx: the [options] of [loadAlerts] for the page
    [currentPage], and [totalPages]. *)
Definition pageSize : nat := 25.

Definition pageOptions (currentPage : nat) (filterType filterStatus : string) : Options.t :=
  Options.mk (Some pageSize) (Some (currentPage * pageSize)%nat) None
    (if String.eqb filterType "all" then None else Some filterType)
    None None
    (if String.eqb filterStatus "acknowledged" then Some true
     else if String.eqb filterStatus "unacknowledged" then Some false
     else None).

(** [Math.ceil(totalCount / pageSize)] *)
Definition totalPages (totalCount : nat) : nat := ((totalCount + (pageSize - 1)) / pageSize)%nat.

(** *** [AlertService.getAlertStatistics]: what is computed from the replies *)

(** The property names an object literal inherits from [Object.prototype]:
    for these [acc[name]] is not [undefined] on the empty accumulator, and
    what the reducer stores is not a number. *)
Definition inherited : list string :=
  ["constructor"; "hasOwnProperty"; "isPrototypeOf"; "propertyIsEnumerable";
   "toLocaleString"; "toString"; "valueOf"; "__proto__"; "__defineGetter__";
   "__defineSetter__"; "__lookupGetter__"; "__lookupSetter__"]%string.

(** An array index: the canonical decimal numeral of a number below 2^32 - 1. *)
Definition arrayIndex (name : string) : option N :=
  match NilEmpty.uint_of_string name with
  | Some u =>
      let n := N.of_uint u in
      if String.eqb (NilEmpty.string_of_uint (N.to_uint n)) name && (n <? 4294967295)%N
      then Some n else None
  | None => None
  end.

(** [acc[name] = (acc[name] || 0) + 1] on the own properties of [acc], which
    are kept in the order of their creation. *)
Fixpoint bump (name : string) (acc : list (string * nat)) : list (string * nat) :=
  match acc with
  | [] => [(name, 1%nat)]
  | (k, c) :: acc' => if String.eqb k name then (k, S c) :: acc' else (k, c) :: bump name acc'
  end.

Definition instrumentCounts (topInstruments : list string) : list (string * nat) :=
  fold_left (fun acc name => bump name acc) topInstruments [].

Definition indexed (e : string * nat) : bool :=
  match arrayIndex (fst e) with Some _ => true | None => false end.

Definition lower_index (a b : string * nat) : bool :=
  match arrayIndex (fst a), arrayIndex (fst b) with
  | Some i, Some j => (i <=? j)%N
  | _, _ => true
  end.

(** [Object.entries]: the array indices in ascending order, then the other
    names in the order of their creation. *)
Definition Object_entries (o : list (string * nat)) : list (string * nat) :=
  sorted_by lower_index (List.filter indexed o)
  ++ List.filter (fun e => negb (indexed e)) o.

(** [(a, b) => b.count - a.count] is not positive. *)
Definition more_counted (a b : string * nat) : bool := (snd b <=? snd a)%nat.

Record AlertStatistics := {
  totalAlerts : nat;
  unacknowledgedAlerts : nat;
  alertsToday : nat;
  alertsThisWeek : nat;
  topAlertingInstruments : list (string * nat)
}.

(** The object [getAlertStatistics] returns, from the four [count]s and the
    [instrument_name]s the store replied ([None] for [null]); [None] when one
    of the names is an inherited property name. *)
Definition getAlertStatistics (total unacknowledged today week : option nat)
  (topInstruments : option (list string)) : option AlertStatistics :=
  let names := default [] topInstruments in
  if existsb (fun name => existsb (String.eqb name) inherited) names then None
  else
    Some {| totalAlerts := default 0%nat total;
            unacknowledgedAlerts := default 0%nat unacknowledged;
            alertsToday := default 0%nat today;
            alertsThisWeek := default 0%nat week;
            topAlertingInstruments :=
              take 5 (sorted_by more_counted (Object_entries (instrumentCounts names))) |}.

(** ** Further predicates on the states of the hook *)

(** The entries of [symbolStates] refer to state objects, a pending timer to
    the state object of its instrument, and every stored row has an id. *)
Record Linked (w : World) : Prop := {
  linked_states : forall token l, symbolStates w !! token = Some l -> is_Some (heap w !! l);
  linked_timers : forall id tm, timers w !! id = Some tm ->
    symbolStates w !! Tick.instrument_token (tm_tick tm) = Some (tm_state tm);
  linked_store : forall r, r ∈ store w -> exists i, Log.id r = Some i /\ (i < nextId w)%nat
}.

Definition keeps (w w' : World) : Prop :=
  symbolStates w' = symbolStates w
  /\ timers w' = timers w
  /\ store w' = store w
  /\ (nextId w <= nextId w')%nat
  /\ forall l, is_Some (heap w !! l) -> is_Some (heap w' !! l).

(** No two instruments share a state object, and no two state objects hold
    the same timer id. *)
Record Owned (w : World) : Prop := {
  owned_states : forall t1 t2 l,
    symbolStates w !! t1 = Some l -> symbolStates w !! t2 = Some l -> t1 = t2;
  owned_timers : forall l1 l2 st1 st2 id,
    heap w !! l1 = Some st1 -> heap w !! l2 = Some st2 ->
    timerId st1 = Some id -> timerId st2 = Some id -> l1 = l2
}.

(** [w'] has no state object, entry of [symbolStates] or timer id that [w] has not. *)
Definition tame (w w' : World) : Prop :=
  (forall t l, symbolStates w' !! t = Some l -> symbolStates w !! t = Some l)
  /\ (forall l st', heap w' !! l = Some st' ->
        exists st, heap w !! l = Some st /\ (timerId st' = None \/ timerId st' = timerId st)).

(** The timer [resetInactivityTimer] schedules for [tick] on the object at [l]. *)
Definition armedTimer (tick : TickData) (config : UserAlertConfig) (l : loc) (now : Z) : Timer :=
  {| tm_deadline := now + Z.max 0 (Config.duration config * 1000);
     tm_tick := tick; tm_config := config; tm_state := l |}.

(** [{ ...config, id: crypto.randomUUID() }] *)
Definition identified (i : nat) (config : UserAlertConfig) : UserAlertConfig :=
  Config.mk (Some i) (Config.user_id config) (Config.instrument_token config)
    (Config.instrument_name config) (Config.exchange config) (Config.enabled config)
    (Config.deviation config) (Config.duration config) (Config.respect_market_hours config)
    (Config.notification_sound config) (Config.notification_browser config)
    (Config.notification_email config).

(** What a step of the hook leaves alone for the instrument [token]. *)
Definition untouched (token : Z) (w w' : World) : Prop :=
  getState token w' = getState token w
  /\ (forall id tm, Tick.instrument_token (tm_tick tm) = token ->
        timers w' !! id = Some tm <-> timers w !! id = Some tm)
  /\ (token ∈ inactiveSymbols w' <-> token ∈ inactiveSymbols w).

(** ** Concrete collaborators, configurations and runs used in the examples *)

(** A market that is always in session. *)
Definition alwaysOpen : MarketTimings :=
  {| getInstrumentName := fun _ => "NIFTY"%string;
     shouldAlertsBeActive := fun _ _ => true;
     getDetailedMarketStatus := fun _ _ => ("open"%string, "equity"%string) |}.

(** A market whose session ends at time [close]. *)
Definition closesAt (close : Z) : MarketTimings :=
  {| getInstrumentName := fun _ => "NIFTY"%string;
     shouldAlertsBeActive := fun _ t => t <? close;
     getDetailedMarketStatus :=
       fun _ t => (if t <? close then "open"%string else "closed"%string, "equity"%string) |}.

(** Token 101 with deviation 1.0 and duration 30 s. *)
Definition config101 (respect : bool) : UserAlertConfig :=
  Config.mk None "u1" 101 "NIFTY" "NSE" true (1 # 1) 30 respect true true false.

Definition tick101 (p : Q) (t : Z) : TickData := Tick.mk 101 p t.

Definition mounted (respect : bool) : World :=
  configurationsLoaded [config101 respect] (initial "u1" Granted).

(** Ticks at t = 0 (price 100) and t = 10 s (price 100.5), market hours ignored. *)
Definition scenario : World :=
  @run alwaysOpen [(0, Ticks [tick101 (100 # 1) 0]);
                   (10000, Ticks [tick101 (201 # 2) 10000])] (mounted false).

(** The scenario thirty seconds after its first tick, no further event. *)
Definition fired : World := @advance alwaysOpen 5 30000 scenario.

(** The timer the first tick of the scenario armed. *)
Definition timer2 : Timer :=
  {| tm_deadline := 30000; tm_tick := tick101 (100 # 1) 0; tm_config := config101 false;
     tm_state := 1%nat |}.

(** The state object of token 101 after the two ticks of the scenario. *)
Definition state101 : SymbolState :=
  {| baselinePrice := 100 # 1; timerId := Some 2%nat;
     priceHistory := [{| price := 100 # 1; timestamp := 0 |};
                      {| price := 201 # 2; timestamp := 10000 |}];
     lastMarketStatusCheck := 0; wasMarketOpen := true;
     oscillator := None; gainNode := None |}.

(** The [triggerAlert] call pending once [timer2] has fired. *)
Definition firedAlert : PendingAlert :=
  {| pa_alert := @newAlert alwaysOpen "u1" (tick101 (100 # 1) 0) (config101 false)
                   state101 30000;
     pa_tick := tick101 (100 # 1) 0; pa_config := config101 false; pa_state := 1%nat |}.

(** The store fails to persist that alert. *)
Definition persistFailed : World := logAlertSettled 0 false 30100 fired.

(** The store persists that alert instead, and the recent alerts are reloaded
    from the store, so that the cache holds the stored row. *)
Definition persisted : World := logAlertSettled 0 true 30100 fired.
Definition reloaded : World := recentAlertsLoaded (store persisted) persisted.

(** After the alert is persisted the tick effect runs again on the batch it
    last saw (its dependency [inactiveSymbols] has changed). *)
Definition rerun : World :=
  @processTicks alwaysOpen [tick101 (201 # 2) 10000] 30200 persisted.

(** The stored alert (id 3) is acknowledged at 40 s, and once more at 50 s. *)
Definition ackedOnce : World := fst (acknowledgeAlert 3 true 40000 40001 reloaded).
Definition ackedTwice : World := fst (acknowledgeAlert 3 true 50000 50001 ackedOnce).

(** The user has clicked (an audio context exists) before the alert is
    persisted: the alert sound of token 101 is playing. *)
Definition sounding : World := logAlertSettled 0 true 30100 (initAudio fired).

(** A tick of token 101 at 20 s, five above the baseline of the scenario. *)
Definition moveTick : TickData := tick101 (105 # 1) 20000.

(** Market hours respected, session ending at [close]: the state of token 101
    after a first tick at t = 0, price 100. *)
Definition watchingUntil (close : Z) : World :=
  @processTicks (closesAt close) [tick101 (100 # 1) 0] 0 (mounted true).

Definition armed101 : SymbolState :=
  {| baselinePrice := 100 # 1; timerId := Some 2%nat;
     priceHistory := [{| price := 100 # 1; timestamp := 0 |}];
     lastMarketStatusCheck := 0; wasMarketOpen := true;
     oscillator := None; gainNode := None |}.

(** The session ended at 5 s; at 10 s, before the timeout, a tick five above
    the baseline arrives. *)
Definition closedMove : World :=
  @processTicks (closesAt 5000) [tick101 (105 # 1) 10000] 10000 (watchingUntil 5000).

(** The session ended at 200 s; the clock runs to 400 s, where a tick arrives. *)
Definition stale : World :=
  @processTicks (closesAt 200000) [tick101 (101 # 1) 400000] 400000
    (@advance (closesAt 200000) 5 400000 (watchingUntil 200000)).

(** Market hours respected, market always in session: three ticks within two
    seconds. *)
Definition busy : World :=
  @run alwaysOpen [(0, Ticks [tick101 (100 # 1) 0]);
                   (1000, Ticks [tick101 (100 # 1) 1000]);
                   (2000, Ticks [tick101 (100 # 1) 2000])] (mounted true).

(** Two ticks of token 101 received at the same instant, at different prices. *)
Definition tieFirst : TickData := Tick.mk 101 (100 # 1) 5.
Definition tieSecond : TickData := Tick.mk 101 (200 # 1) 5.




(** The state object of token 101 while the alert of the scenario sounds. *)
Definition sounding101 : SymbolState := set_sound (Some 5%nat) (Some 5%nat) state101.

(** The first tick of the scenario, and ticks of token 101 after its second. *)
Definition firstTick : TickData := tick101 (100 # 1) 0.
Definition quietTick : TickData := tick101 (201 # 2) 20000.
Definition lateTick : TickData := tick101 (105 # 1) 10000.

(** A tick of token 202, for which no configuration exists. *)
Definition otherTick : TickData := Tick.mk 202 (50 # 1) 11000.


(** * Properties *)

(** ** Tick ingestion *)

Lemma map_get_set_eq k v m : map_get k (map_set k v m) = Some v.
Proof.
  induction m as [|[k' v'] m IH]; simpl.
  - by rewrite Z.eqb_refl.
  - destruct (Z.eqb_spec k k') as [->|Hne]; simpl.
    + by rewrite Z.eqb_refl.
    + destruct (Z.eqb_spec k k'); [done | exact IH].
Qed.

Lemma map_get_set_ne k k' v m : k ≠ k' -> map_get k' (map_set k v m) = map_get k' m.
Proof.
  intros Hne. induction m as [|[k0 v0] m IH]; simpl.
  - destruct (Z.eqb_spec k' k); [congruence | done].
  - destruct (Z.eqb_spec k k0) as [->|Hk]; simpl.
    + destruct (Z.eqb_spec k' k0); [congruence | done].
    + destruct (Z.eqb_spec k' k0); [done | exact IH].
Qed.

Lemma latestTicks_snoc ticks tick :
  latestTicks (ticks ++ [tick]) = latestTicks_step (latestTicks ticks) tick.
Proof. unfold latestTicks. by rewrite fold_left_app. Qed.

Lemma latestTicks_step_other m tick k :
  Tick.instrument_token tick ≠ k -> map_get k (latestTicks_step m tick) = map_get k m.
Proof.
  intros Hne. unfold latestTicks_step.
  destruct (map_get (Tick.instrument_token tick) m) as [old|].
  - destruct (Tick.receivedAt tick >? Tick.receivedAt old); [|done].
    by apply map_get_set_ne.
  - by apply map_get_set_ne.
Qed.

(** C4 (as the code has it): for every batch and token, [latestTicks] holds no
    entry when the batch has no tick of the token, and otherwise the tick of the
    token with the greatest [receivedAt]; of several ticks with that same
    greatest [receivedAt] it holds the one that comes FIRST in the batch. *)
Theorem latestTicks_greatest_first_wins (ticks : list TickData) (k : Z) :
  match map_get k (latestTicks ticks) with
  | None => forall t, t ∈ ticks -> Tick.instrument_token t ≠ k
  | Some t =>
      exists i, ticks !! i = Some t /\ Tick.instrument_token t = k /\
        forall j t', ticks !! j = Some t' -> Tick.instrument_token t' = k ->
          Tick.receivedAt t' < Tick.receivedAt t
          \/ (Tick.receivedAt t' = Tick.receivedAt t /\ (i <= j)%nat)
  end.
Proof.
  induction ticks as [|x l IH] using rev_ind.
  - simpl. intros t Ht. by apply elem_of_nil in Ht.
  - rewrite latestTicks_snoc.
    destruct (decide (Tick.instrument_token x = k)) as [Hk|Hk].
    + unfold latestTicks_step. rewrite Hk.
      destruct (map_get k (latestTicks l)) as [old|] eqn:Hget.
      * destruct IH as (i & Hi & Htok & Hmax).
        pose proof (lookup_lt_Some _ _ _ Hi) as Hlt.
        destruct (Z.gtb_spec (Tick.receivedAt x) (Tick.receivedAt old)) as [Hgt|Hle].
        -- rewrite map_get_set_eq. exists (length l). split; [|split; [done|]].
           { by rewrite lookup_app_r, Nat.sub_diag by lia. }
           intros j t' Hj Ht'.
           destruct (decide (j < length l)%nat) as [Hjl|Hjl].
           ++ rewrite lookup_app_l in Hj by done.
              destruct (Hmax j t' Hj Ht') as [?|[? ?]]; left; lia.
           ++ rewrite lookup_app_r in Hj by lia.
              destruct (j - length l)%nat eqn:Hd; simpl in Hj; [|done].
              injection Hj as <-. right. split; [done | lia].
        -- rewrite Hget. exists i. split; [|split; [done|]].
           { by rewrite lookup_app_l. }
           intros j t' Hj Ht'.
           destruct (decide (j < length l)%nat) as [Hjl|Hjl].
           ++ rewrite lookup_app_l in Hj by done. by apply Hmax.
           ++ rewrite lookup_app_r in Hj by lia.
              destruct (j - length l)%nat eqn:Hd; simpl in Hj; [|done].
              injection Hj as <-.
              destruct (decide (Tick.receivedAt x = Tick.receivedAt old)).
              ** right. split; [done | lia].
              ** left. lia.
      * rewrite map_get_set_eq. exists (length l). split; [|split; [done|]].
        { by rewrite lookup_app_r, Nat.sub_diag by lia. }
        intros j t' Hj Ht'.
        destruct (decide (j < length l)%nat) as [Hjl|Hjl].
        -- rewrite lookup_app_l in Hj by done.
           exfalso. apply (IH t'); [|done]. apply list_elem_of_lookup. eauto.
        -- rewrite lookup_app_r in Hj by lia.
           destruct (j - length l)%nat eqn:Hd; simpl in Hj; [|done].
           injection Hj as <-. right. split; [done | lia].
    + rewrite latestTicks_step_other by done.
      destruct (map_get k (latestTicks l)) as [t|].
      * destruct IH as (i & Hi & Htok & Hmax).
        pose proof (lookup_lt_Some _ _ _ Hi) as Hlt.
        exists i. split; [|split; [done|]].
        { by rewrite lookup_app_l. }
        intros j t' Hj Ht'.
        destruct (decide (j < length l)%nat) as [Hjl|Hjl].
        -- rewrite lookup_app_l in Hj by done. by apply Hmax.
        -- rewrite lookup_app_r in Hj by lia.
           destruct (j - length l)%nat eqn:Hd; simpl in Hj; [|done].
           injection Hj as <-. done.
      * intros t Ht. apply elem_of_app in Ht as [Ht|Ht]; [by apply IH|].
        apply list_elem_of_singleton in Ht. by subst.
Qed.

(** C4, counterexample: of two ticks of one token with equal [receivedAt] the
    batch [[tieFirst; tieSecond]] keeps the earlier one, not the later one. *)
Lemma latestTicks_tie_keeps_earlier :
  Tick.receivedAt tieFirst = Tick.receivedAt tieSecond
  /\ map_get 101 (latestTicks [tieFirst; tieSecond]) = Some tieFirst
  /\ map_get 101 (latestTicks [tieFirst; tieSecond]) <> Some tieSecond.
Proof. split; [reflexivity | split; [reflexivity | discriminate]]. Qed.

(** ** The invariant is kept by every operation of the hook *)

Lemma state_ok_mono n n' st : (n <= n')%nat -> state_ok n st -> state_ok n' st.
Proof. intros Hn [Hlen Hid]. split; [done|]. intros id Hi. specialize (Hid id Hi). lia. Qed.

(** Updates that touch neither timers, heap nor pending logs keep the invariant. *)
Lemma Inv_frame w w' :
  timers w' = timers w -> heap w' = heap w -> pendingLogs w' = pendingLogs w ->
  (nextId w <= nextId w')%nat -> Inv w -> Inv w'.
Proof.
  intros Ht Hh Hp Hn [I1 I2 I3]. split.
  - intros id tm Hid. rewrite Ht in Hid. rewrite Hh.
    destruct (I1 id tm Hid) as [? ?]. split; [lia | done].
  - intros l st Hl. rewrite Hh in Hl. destruct (I2 l st Hl) as [? ?].
    split; [lia | by eapply state_ok_mono].
  - intros pa Hpa. rewrite Hp in Hpa. rewrite Hh. by apply I3.
Qed.

(** A field assignment that leaves [timerId] and [baselinePrice] alone and keeps
    the history within 100 points keeps the invariant. *)
Lemma Inv_modify l f w :
  (forall st, timerId (f st) = timerId st /\ baselinePrice (f st) = baselinePrice st) ->
  (forall st, heap w !! l = Some st -> (length (priceHistory (f st)) <= 100)%nat) ->
  Inv w -> Inv (modify l f w).
Proof.
  intros Hf Hlen [I1 I2 I3]. split; simpl.
  - intros id tm Hid. destruct (I1 id tm Hid) as [Hlt (st & Hst & Hti & Hb)].
    split; [done|].
    destruct (decide (l = tm_state tm)) as [->|Hne].
    + rewrite lookup_alter_eq, Hst. simpl. exists (f st).
      destruct (Hf st) as [-> ->]. done.
    + rewrite lookup_alter_ne by done. eauto.
  - intros l' st' Hl'. apply lookup_alter_Some in Hl' as [[<- (st & Hst & ->)]|[_ Hl']].
    + destruct (I2 l st Hst) as [Hl [_ Hid]].
      split; [done|]. split; [by apply Hlen|].
      destruct (Hf st) as [-> _]. done.
    + by apply I2.
  - intros pa Hpa. destruct (I3 pa Hpa) as [? ?]. split; [done|].
    by apply lookup_alter_is_Some.
Qed.

Lemma Inv_clearTimeout id w : Inv w -> Inv (clearTimeout id w).
Proof.
  intros [I1 I2 I3]. split; simpl; [|done..].
  intros id' tm Hid. apply lookup_delete_Some in Hid as [_ Hid]. by apply I1.
Qed.

Lemma getState_Some token w l st :
  getState token w = Some (l, st) <-> symbolStates w !! token = Some l /\ heap w !! l = Some st.
Proof.
  unfold getState. destruct (symbolStates w !! token) as [l'|].
  - destruct (heap w !! l') as [st'|] eqn:Hh.
    + split; [intros [= <- <-]; done | intros [[= <-] Hst]; congruence].
    + split; [done | intros [[= <-] Hst]; congruence].
  - split; [done | intros [? _]; done].
Qed.

Lemma Inv_stopAlertSound token w : Inv w -> Inv (stopAlertSound token w).
Proof.
  intros HI. unfold stopAlertSound.
  destruct (getState token w) as [[l st]|] eqn:Hg; [|done].
  destruct (oscillator st); [|done].
  apply Inv_modify; [done| |by eapply Inv_frame; [..|exact HI]].
  intros st' Hst'. simpl in *. destruct HI as [_ I2 _].
  by destruct (I2 l st' Hst') as [_ [? _]].
Qed.

Lemma Inv_playAlertSound token config w : Inv w -> Inv (playAlertSound token config w).
Proof.
  intros HI. unfold playAlertSound.
  destruct (negb (Config.notification_sound config) || negb (audioContext w)); [done|].
  pose proof (Inv_stopAlertSound token w HI) as HI1.
  set (w1 := stopAlertSound token w) in *.
  set (w2 := upd_effects _ _).
  assert (Inv w2) as HI2.
  { apply (Inv_frame w1); simpl; auto with lia. }
  destruct (getState token w2) as [[l st]|]; [|done].
  apply Inv_modify; [done| |done].
  intros st' Hst'. destruct HI2 as [_ I2 _].
  by destruct (I2 l st' Hst') as [_ [? _]].
Qed.

Lemma Inv_showBrowserNotification alert config w :
  Inv w -> Inv (showBrowserNotification alert config w).
Proof.
  intros HI. unfold showBrowserNotification.
  destruct (negb (Config.notification_browser config)); [done|].
  destruct (notificationPermission w); try done; by eapply Inv_frame; [..|exact HI].
Qed.

(** [clearTimeout(state.timerId); state.timerId = null] *)
Lemma Inv_cancel l st id w :
  heap w !! l = Some st -> timerId st = Some id ->
  Inv w -> Inv (modify l (set_timerId None) (clearTimeout id w)).
Proof.
  intros Hst Hid [I1 I2 I3]. split; simpl.
  - intros id' tm Hid'. apply lookup_delete_Some in Hid' as [Hne Hid'].
    destruct (I1 id' tm Hid') as [Hlt (st' & Hst' & Hti & Hb)].
    split; [done|].
    destruct (decide (l = tm_state tm)) as [->|Hl].
    + congruence.
    + rewrite lookup_alter_ne by done. eauto.
  - intros l' st' Hl'. apply lookup_alter_Some in Hl' as [[<- (st0 & Hst0 & ->)]|[_ Hl']].
    + destruct (I2 l st0 Hst0) as [Hl [Hlen _]]. split; [done|]. split; [done|].
      simpl. done.
    + by apply I2.
  - intros pa Hpa. destruct (I3 pa Hpa) as [? ?]. split; [done|].
    by apply lookup_alter_is_Some.
Qed.

Lemma Inv_suspend token l w : Inv w -> Inv (suspend token l w).
Proof.
  intros HI. unfold suspend.
  pose proof (Inv_stopAlertSound token w HI) as HI1.
  destruct (heap (stopAlertSound token w) !! l) as [st|] eqn:Hst; [|done].
  destruct (timerId st) as [id|] eqn:Hid; [|done].
  by eapply Inv_cancel.
Qed.

Lemma Inv_clearSymbolState token w : Inv w -> Inv (clearSymbolState token w).
Proof.
  intros HI. unfold clearSymbolState.
  set (w1 := match getState token w with Some _ => _ | None => _ end).
  assert (Inv w1) as HI1.
  { subst w1. destruct (getState token w) as [[l st]|]; [|done].
    destruct (timerId st); [by apply Inv_clearTimeout | done]. }
  apply (Inv_frame (stopAlertSound token w1)); simpl; auto.
  by apply Inv_stopAlertSound.
Qed.

(** Arming a timer on the object at [l], whose baseline is the price of the
    tick the timer closes over. *)
Lemma Inv_rearm_core tick config l now w :
  is_Some (heap w !! l) -> Inv w ->
  Inv (resetInactivityTimer tick config l now
         (modify l (set_baselinePrice (Tick.last_price tick)) w)).
Proof.
  intros [st Hst] [I1 I2 I3]. unfold resetInactivityTimer. simpl.
  rewrite lookup_alter_eq, Hst. simpl.
  set (n := nextId w).
  assert (forall id tm, timers w !! id = Some tm -> timerId st <> Some id ->
            tm_state tm <> l) as Hother.
  { intros id tm Hid Hne Heq. destruct (I1 id tm Hid) as [_ (st' & Hst' & Hti & _)].
    rewrite Heq in Hst'. congruence. }
  assert (forall id tm (tm' : Timer) (m : gmap nat Timer),
            <[n := tm']> m !! id = Some tm ->
            (forall id', m !! id' = Some tm -> timers w !! id' = Some tm
                                               /\ timerId st <> Some id') ->
            (id = n /\ tm = tm') \/
            (id <> n /\ timers w !! id = Some tm /\ tm_state tm <> l)) as Hcase.
  { intros id tm tm' m Hid Hm. apply lookup_insert_Some in Hid as [[<- <-]|[Hne Hid]].
    - by left.
    - right. destruct (Hm id Hid) as [Hw Hti]. split; [done|]. split; [done|]. eauto. }
  assert (forall (f g h : SymbolState -> SymbolState) l',
            alter f l (alter g l (alter h l (heap w))) !! l' =
            if decide (l = l') then Some (f (g (h st))) else heap w !! l') as Hheap.
  { intros f g h l'. case_decide as Hd.
    - subst l'. by rewrite !lookup_alter_eq, Hst.
    - by rewrite !lookup_alter_ne. }
  destruct (timerId st) as [id0|] eqn:Hid0; split; simpl; fold n.
  - intros id tm Hid. apply Hcase in Hid.
    + destruct Hid as [[-> ->]|(Hne & Hid & Hl)].
      * split; [lia|]. simpl. rewrite Hheap. case_decide; [|done]. eauto.
      * destruct (I1 id tm Hid) as [Hlt Hex]. split; [lia|].
        rewrite Hheap. case_decide; [congruence | done].
    + intros id' Hid'. apply lookup_delete_Some in Hid' as [? ?]. split; [done | congruence].
  - intros l' st'. rewrite Hheap. case_decide.
    + subst l'. intros [= <-]. destruct (I2 l st Hst) as [Hl _]. split; [lia|].
      split; simpl; [lia|]. intros id [= <-]. lia.
    + intros Hl'. destruct (I2 l' st' Hl') as [? ?]. split; [lia|].
      by eapply state_ok_mono; [|eassumption]; lia.
  - intros pa Hpa. destruct (I3 pa Hpa) as [? ?]. split; [done|].
    rewrite Hheap. by case_decide.
  - intros id tm Hid. apply Hcase in Hid.
    + destruct Hid as [[-> ->]|(Hne & Hid & Hl)].
      * split; [lia|]. simpl. rewrite Hheap. case_decide; [|done]. eauto.
      * destruct (I1 id tm Hid) as [Hlt Hex]. split; [lia|].
        rewrite Hheap. case_decide; [congruence | done].
    + intros id' Hid'. split; [done | congruence].
  - intros l' st'. rewrite Hheap. case_decide.
    + subst l'. intros [= <-]. destruct (I2 l st Hst) as [Hl _]. split; [lia|].
      split; simpl; [lia|]. intros id [= <-]. lia.
    + intros Hl'. destruct (I2 l' st' Hl') as [? ?]. split; [lia|].
      by eapply state_ok_mono; [|eassumption]; lia.
  - intros pa Hpa. destruct (I3 pa Hpa) as [? ?]. split; [done|].
    rewrite Hheap. by case_decide.
Qed.

Lemma modify_id l f w :
  (forall st, heap w !! l = Some st -> f st = st) -> modify l f w = w.
Proof.
  intros Hf. unfold modify, upd_heap. rewrite alter_id by done. by destruct w.
Qed.

Lemma modify_modify l f g w : modify l g (modify l f w) = modify l (g ∘ f) w.
Proof.
  unfold modify, upd_heap. simpl. f_equal. apply map_eq. intros j.
  destruct (decide (l = j)) as [->|Hne].
  - rewrite !lookup_alter_eq. by destruct (heap w !! j).
  - by rewrite !lookup_alter_ne.
Qed.

Lemma heap_modify l f w l' :
  heap (modify l f w) !! l' = if decide (l = l') then f <$> heap w !! l else heap w !! l'.
Proof. simpl. apply lookup_alter. Qed.

Lemma Inv_resetInactivityTimer tick config l now w st :
  heap w !! l = Some st -> baselinePrice st = Tick.last_price tick ->
  Inv w -> Inv (resetInactivityTimer tick config l now w).
Proof.
  intros Hst Hb HI.
  rewrite <- (modify_id l (set_baselinePrice (Tick.last_price tick)) w) at 1.
  - by apply Inv_rearm_core.
  - intros st' Hst'. assert (st' = st) as -> by congruence.
    destruct st. simpl in *. by subst.
Qed.

Lemma Inv_dropInactive snap token w : Inv w -> Inv (dropInactive snap token w).
Proof.
  intros HI. unfold dropInactive. case_decide; [|done]. by eapply Inv_frame; [..|exact HI].
Qed.

Lemma Inv_rearm snap tick config l now w :
  is_Some (heap w !! l) -> Inv w -> Inv (rearm snap tick config l now w).
Proof.
  intros Hl HI. unfold rearm.
  by apply Inv_stopAlertSound, Inv_dropInactive, Inv_rearm_core.
Qed.

Lemma slice_last_length {A} n (l : list A) : (length (slice_last n l) <= n)%nat.
Proof. unfold slice_last. rewrite length_drop. lia. Qed.

Lemma Inv_watchPrice snap tick config l now w :
  Inv w -> Inv (watchPrice snap tick config l now w).
Proof.
  intros HI. unfold watchPrice. rewrite modify_modify.
  set (w2 := modify l _ w).
  assert (Inv w2) as HI2.
  { apply Inv_modify; [done| |done].
    intros st _. simpl. apply slice_last_length. }
  destruct (heap w2 !! l) as [state|] eqn:Hst; [|done].
  destruct (priceMoved tick state config); [|done].
  apply Inv_rearm; [|done]. by rewrite Hst.
Qed.

Lemma Inv_processExisting snap tick config shouldAlert l state now w :
  heap w !! l = Some state -> Inv w ->
  Inv (processExisting snap tick config shouldAlert l state now w).
Proof.
  intros Hst HI. unfold processExisting.
  set (due := now - lastMarketStatusCheck state >? 60000).
  set (w1 := if due then _ else w).
  assert (Inv w1 /\ is_Some (heap w1 !! l)) as [HI1 Hl1].
  { subst w1. destruct due.
    - split.
      + apply Inv_modify; [done| |done].
        intros st' Hst'. simpl. destruct HI as [_ I2 _].
        by destruct (I2 l st' Hst') as [_ [? _]].
      + rewrite heap_modify, decide_True, Hst by done. by eexists.
    - split; [done|]. by rewrite Hst. }
  destruct (due && negb (Bool.eqb (wasMarketOpen state) shouldAlert)).
  - set (w2 := modify l _ w1).
    assert (Inv w2 /\ is_Some (heap w2 !! l)) as [HI2 Hl2].
    { split.
      + apply Inv_modify; [done| |done].
        intros st' Hst'. simpl. destruct HI1 as [_ I2 _].
        by destruct (I2 l st' Hst') as [_ [? _]].
      + subst w2. rewrite heap_modify, decide_True by done.
        destruct Hl1 as [? ->]. by eexists. }
    destruct shouldAlert; [by apply Inv_rearm | by apply Inv_suspend].
  - destruct (negb shouldAlert && Config.respect_market_hours config).
    + by apply Inv_suspend.
    + by apply Inv_watchPrice.
Qed.

Section Invariant.
Context `{MarketTimings}.

Lemma Inv_noteSessionQuery config name now w :
  Inv w -> Inv (noteSessionQuery config name now w).
Proof.
  intros HI. unfold noteSessionQuery.
  destruct (Config.respect_market_hours config); simpl; [|done].
  by eapply Inv_frame; [..|exact HI].
Qed.

Lemma heap_noteSessionQuery config name now w :
  heap (noteSessionQuery config name now w) = heap w.
Proof. unfold noteSessionQuery. by destruct (Config.respect_market_hours config). Qed.

Lemma Inv_processTick snap now tick w : Inv w -> Inv (processTick snap now tick w).
Proof.
  intros HI. unfold processTick.
  destruct (configurations w !! Tick.instrument_token tick) as [config|];
    [|by apply Inv_clearSymbolState].
  destruct (negb (Config.enabled config)); [by apply Inv_clearSymbolState|].
  pose proof (Inv_noteSessionQuery config (getInstrumentName tick) now w HI) as HI0.
  set (w0 := noteSessionQuery config (getInstrumentName tick) now w) in *.
  set (shouldAlert := shouldAlertNow config (getInstrumentName tick) now).
  destruct (getState (Tick.instrument_token tick) w0) as [[l state]|] eqn:Hg.
  - apply getState_Some in Hg as [_ Hst]. by apply Inv_processExisting.
  - set (state := Build_SymbolState _ _ _ _ _ _ _).
    set (w1 := upd_symbolStates _ _).
    assert (Inv w1) as HI1.
    { destruct HI0 as [I1 I2 I3]. split; simpl.
      - intros id tm Hid. destruct (I1 id tm Hid) as [Hlt (st & Hst & Hrest)].
        split; [lia|]. exists st. split; [|done].
        rewrite lookup_insert_ne; [done|].
        intros Heq. destruct (I2 _ _ Hst) as [Hlt' _]. rewrite <- Heq in Hlt'. lia.
      - intros l st Hl. apply lookup_insert_Some in Hl as [[<- <-]|[_ Hl]].
        + split; [lia|]. split; simpl; [lia | done].
        + destruct (I2 l st Hl) as [? ?]. split; [lia|].
          by eapply state_ok_mono; [|eassumption]; lia.
      - intros pa Hpa. destruct (I3 pa Hpa) as [? ?]. split; [done|].
        apply lookup_insert_is_Some'. by right. }
    destruct shouldAlert; [|done].
    apply (Inv_resetInactivityTimer _ _ _ _ _ state); [|done|done].
    simpl. by rewrite lookup_insert_eq.
Qed.

Lemma Inv_processTicks ticks now w : Inv w -> Inv (processTicks ticks now w).
Proof.
  intros HI. unfold processTicks. destruct (user w); [|done].
  destruct (loading w); [done|].
  generalize (inactiveSymbols w). intros snap.
  revert w HI. induction (latestTicks ticks) as [|kv m IH]; intros w HI; simpl; [done|].
  by apply IH, Inv_processTick.
Qed.

Lemma Inv_timeout id now w : Inv w -> Inv (timeout id now w).
Proof.
  intros HI. unfold timeout. destruct (timers w !! id) as [tm|] eqn:Hid; [|done].
  pose proof (inv_timers w HI id tm Hid) as [_ (st & Hst & _ & Hb)].
  pose proof (Inv_clearTimeout id w HI) as HI1. unfold clearTimeout in HI1.
  set (w1 := upd_timers (delete id) w) in *.
  unfold timerCallback.
  pose proof (Inv_noteSessionQuery (tm_config tm) (getInstrumentName (tm_tick tm)) now w1 HI1)
    as HI2.
  set (w2 := noteSessionQuery _ _ _ w1) in *.
  assert (heap w2 !! tm_state tm = Some st) as Hst2.
  { subst w2. by rewrite heap_noteSessionQuery. }
  destruct (shouldAlertNow _ _ _).
  - unfold triggerAlert. destruct (user w2) as [uid|]; [|done].
    rewrite Hst2. destruct HI2 as [I1 I2 I3]. split; simpl; [done..|].
    intros pa Hpa. apply elem_of_app in Hpa as [Hpa|Hpa]; [by apply I3|].
    apply list_elem_of_singleton in Hpa as ->. simpl. split; [by symmetry|].
    by rewrite Hst2.
  - by apply Inv_clearSymbolState, Inv_stopAlertSound.
Qed.

Lemma Inv_logAlertSettled i ok now w : Inv w -> Inv (logAlertSettled i ok now w).
Proof.
  intros HI. unfold logAlertSettled.
  destruct (pendingLogs w !! i) as [pa|]; [|done].
  set (w0 := upd_pendingLogs (delete i) w).
  assert (Inv w0) as HI0.
  { destruct HI as [I1 I2 I3]. split; simpl; [done..|].
    intros pa' Hpa'. apply I3. by eapply list_elem_of_delete_inv. }
  unfold triggerAlert_resume, AlertService_logAlert.
  destruct ok.
  - set (w4 := playAlertSound _ _ _).
    assert (Inv w4) as HI4.
    { apply Inv_playAlertSound. apply (Inv_frame w0); simpl; auto with lia. }
    set (w5 := showBrowserNotification _ _ _).
    assert (Inv w5) as HI5.
    { apply Inv_showBrowserNotification. apply (Inv_frame w4); simpl; auto with lia. }
    destruct (heap w5 !! pa_state pa); [|done].
    by eapply Inv_frame; [..|exact HI5].
  - by eapply Inv_frame; [..|exact HI0].
Qed.

Lemma Inv_permissionSettled i p w : Inv w -> Inv (permissionSettled i p w).
Proof.
  intros HI. unfold permissionSettled.
  destruct (permissionRequests w !! i) as [[alert config]|]; [|done].
  set (w1 := upd_notificationPermission _ _).
  assert (Inv w1) as HI1 by (by eapply Inv_frame; [..|exact HI]).
  destruct p; try done. by apply Inv_showBrowserNotification.
Qed.

Lemma Inv_updateConfiguration token config ok w :
  Inv w -> Inv (fst (updateConfiguration token config ok w)).
Proof.
  intros HI. unfold updateConfiguration, AlertService_saveAlertConfig.
  destruct (user w); [|done]. destruct ok; simpl.
  - apply Inv_clearSymbolState. apply (Inv_frame w); simpl; auto with lia.
  - by eapply Inv_frame; [..|exact HI].
Qed.

Lemma Inv_acknowledgeAlert alertId ok t1 t2 w :
  Inv w -> Inv (fst (acknowledgeAlert alertId ok t1 t2 w)).
Proof.
  intros HI. unfold acknowledgeAlert, AlertService_acknowledgeAlert.
  destruct (user w); [|done]. destruct ok; simpl; by eapply Inv_frame; [..|exact HI].
Qed.

Lemma Inv_stopAll tokens w :
  Inv w -> Inv (fold_left (fun w' token => stopAlertSound token w') tokens w).
Proof.
  revert w. induction tokens as [|t ts IH]; intros w HI; simpl; [done|].
  by apply IH, Inv_stopAlertSound.
Qed.

Lemma Inv_clearAllAlerts ok now w : Inv w -> Inv (clearAllAlerts ok now w).
Proof.
  intros HI. unfold clearAllAlerts, AlertService_acknowledgeAllAlerts.
  destruct (user w); [|done]. destruct ok.
  - set (w2 := upd_alerts _ _).
    assert (Inv w2) as HI2 by (by eapply Inv_frame; [..|exact HI]).
    set (tokens := map fst (map_to_list (symbolStates w2))).
    eapply Inv_frame; [..|apply (Inv_stopAll tokens w2 HI2)]; done.
  - by eapply Inv_frame; [..|exact HI].
Qed.

Lemma Inv_step now ev w : Inv w -> Inv (step now ev w).
Proof.
  intros HI. destruct ev; simpl.
  - by apply Inv_processTicks.
  - by apply Inv_timeout.
  - by apply Inv_logAlertSettled.
  - by apply Inv_permissionSettled.
  - by apply Inv_updateConfiguration.
  - by apply Inv_acknowledgeAlert.
  - by apply Inv_clearAllAlerts.
  - unfold configurationsLoaded. destruct (user w); [|done].
    by eapply Inv_frame; [..|exact HI].
  - unfold recentAlertsLoaded. destruct (user w); [|done].
    by eapply Inv_frame; [..|exact HI].
  - by eapply Inv_frame; [..|exact HI].
Qed.

Lemma Inv_initial uid permission : Inv (initial uid permission).
Proof.
  split; simpl.
  - intros id tm Hid. by rewrite lookup_empty in Hid.
  - intros l st Hl. by rewrite lookup_empty in Hl.
  - intros pa Hpa. by apply elem_of_nil in Hpa.
Qed.

Lemma reachable_Inv w : reachable w -> Inv w.
Proof. induction 1; [apply Inv_initial | by apply Inv_step | by apply Inv_processTick]. Qed.

Lemma reachable_run evs w : reachable w -> reachable (run evs w).
Proof.
  revert w. induction evs as [|[now ev] evs IH]; intros w Hw; simpl; [done|].
  apply IH. by constructor.
Qed.

Lemma reachable_advance fuel t w : reachable w -> reachable (advance fuel t w).
Proof.
  revert w. induction fuel as [|fuel IH]; intros w Hw; simpl; [done|].
  destruct (earliestDue t w) as [[id tm]|]; [|done].
  apply IH. by apply (reachable_step (tm_deadline tm) (Timeout id)).
Qed.

End Invariant.

(** ** Facts about the concrete runs *)

Lemma reachable_mounted respect : @reachable alwaysOpen (mounted respect).
Proof.
  apply (@reachable_step alwaysOpen 0 (ConfigurationsLoaded [config101 respect])).
  apply reachable_initial.
Qed.

Lemma reachable_scenario : @reachable alwaysOpen scenario.
Proof. apply reachable_run, reachable_mounted. Qed.

Lemma reachable_fired : @reachable alwaysOpen fired.
Proof. apply reachable_advance, reachable_scenario. Qed.

(** ** Alert emission *)

Lemma stopAlertSound_effects token w :
  effects (stopAlertSound token w) = effects w /\ nextId (stopAlertSound token w) = nextId w
  /\ audioContext (stopAlertSound token w) = audioContext w
  /\ notificationPermission (stopAlertSound token w) = notificationPermission w.
Proof.
  unfold stopAlertSound. destruct (getState token w) as [[l st]|]; [|done].
  by destruct (oscillator st).
Qed.

Lemma heap_stopAlertSound_is_Some token w l :
  is_Some (heap (stopAlertSound token w) !! l) <-> is_Some (heap w !! l).
Proof.
  unfold stopAlertSound. destruct (getState token w) as [[l' st]|]; [|done].
  destruct (oscillator st); [|done]. simpl. apply lookup_alter_is_Some.
Qed.

Lemma playAlertSound_frame token config w :
  (forall e, e ∈ effects w -> e ∈ effects (playAlertSound token config w))
  /\ (forall l, is_Some (heap w !! l) -> is_Some (heap (playAlertSound token config w) !! l))
  /\ notificationPermission (playAlertSound token config w) = notificationPermission w
  /\ alerts (playAlertSound token config w) = alerts w
  /\ inactiveSymbols (playAlertSound token config w) = inactiveSymbols w.
Proof.
  unfold playAlertSound.
  destruct (negb (Config.notification_sound config) || negb (audioContext w)); [done|].
  destruct (stopAlertSound_effects token w) as (He & Hn & _ & Hperm).
  set (w2 := upd_effects _ _).
  assert ((forall e, e ∈ effects w -> e ∈ effects w2)
          /\ (forall l, is_Some (heap w !! l) -> is_Some (heap w2 !! l))
          /\ notificationPermission w2 = notificationPermission w
          /\ alerts w2 = alerts w /\ inactiveSymbols w2 = inactiveSymbols w)
    as (H1 & H2 & H3 & H4 & H5).
  { subst w2. simpl. rewrite He, Hperm. split; [|split; [|split; [done|]]].
    - intros e He'. by apply elem_of_cons; right.
    - intros l Hl. by apply heap_stopAlertSound_is_Some.
    - unfold stopAlertSound. destruct (getState token w) as [[l st]|]; [|done].
      by destruct (oscillator st). }
  destruct (getState token w2) as [[l st]|]; [|done]. simpl.
  split; [done|]. split; [|done]. intros l' Hl'. apply lookup_alter_is_Some. by apply H2.
Qed.

Lemma showBrowserNotification_frame alert config w :
  (forall e, e ∈ effects w -> e ∈ effects (showBrowserNotification alert config w))
  /\ heap (showBrowserNotification alert config w) = heap w
  /\ playing (showBrowserNotification alert config w) = playing w
  /\ alerts (showBrowserNotification alert config w) = alerts w
  /\ inactiveSymbols (showBrowserNotification alert config w) = inactiveSymbols w.
Proof.
  unfold showBrowserNotification.
  destruct (negb (Config.notification_browser config)); [done|].
  destruct (notificationPermission w); try done.
  simpl. split; [|done]. intros e He. by apply elem_of_cons; right.
Qed.

(** What [playAlertSound] does, in full: [sound] tells whether it plays. *)
Lemma playAlertSound_exact token config w :
  let sound := Config.notification_sound config && audioContext w in
  let w' := playAlertSound token config w in
  effects w' = (if sound then [SoundStarted token (nextId w)] else []) ++ effects w
  /\ playing w'
     = (if sound
        then {[nextId w]} ∪ match getState token w with
                            | Some (_, s) => match oscillator s with
                                             | Some o0 => playing w ∖ {[o0]}
                                             | None => playing w
                                             end
                            | None => playing w
                            end
        else playing w)
  /\ nextId w' = (if sound then S (nextId w) else nextId w)
  /\ alerts w' = alerts w
  /\ inactiveSymbols w' = inactiveSymbols w
  /\ store w' = store w
  /\ notificationPermission w' = notificationPermission w
  /\ permissionRequests w' = permissionRequests w
  /\ pendingLogs w' = pendingLogs w
  /\ (forall l st, heap w !! l = Some st ->
        exists st', heap w' !! l = Some st' /\ baselinePrice st' = baselinePrice st).
Proof.
  unfold playAlertSound.
  destruct (Config.notification_sound config); simpl;
    [|repeat split; try done; intros l st Hl; by exists st].
  destruct (audioContext w); simpl;
    [|repeat split; try done; intros l st Hl; by exists st].
  unfold stopAlertSound.
  destruct (getState token w) as [[l0 s]|] eqn:Hg.
  - apply getState_Some in Hg as [Hsym Hs].
    destruct (oscillator s) as [o0|] eqn:Ho.
    + unfold getState. simpl. rewrite Hsym, lookup_alter_eq, Hs. simpl.
      repeat split; try done.
      intros l st Hl. destruct (decide (l0 = l)) as [<-|Hne].
      * rewrite !lookup_alter_eq, Hs. simpl. eexists. split; [done|].
        assert (st = s) as -> by congruence. done.
      * rewrite !lookup_alter_ne by done. by exists st.
    + unfold getState. simpl. rewrite Hsym, Hs. simpl.
      repeat split; try done.
      intros l st Hl. destruct (decide (l0 = l)) as [<-|Hne].
      * rewrite lookup_alter_eq, Hs. simpl. eexists. split; [done|].
        assert (st = s) as -> by congruence. done.
      * rewrite lookup_alter_ne by done. by exists st.
  - assert (getState token
              (upd_effects (cons (SoundStarted token (nextId w)))
                 (upd_playing (fun p => {[nextId w]} ∪ p) (upd_nextId S w))) = None) as ->.
    { unfold getState in *. simpl. exact Hg. }
    repeat split; try done. intros l st Hl. by exists st.
Qed.

Section Emission.
Context `{MarketTimings}.

(** C1 (as the code has it): when a timeout has fired and the store then fails
    to persist the alert, nothing of the "fired" bookkeeping happens and no
    user-visible side effect is made: the recent-alerts cache, the
    inactive-symbol set, the state objects, the playing sounds, the pending
    permission requests and the store are as before, and the only effect is
    the error written to the console.  When the store succeeds, the row is
    stored, the alert is prepended to the cache (capped at 100), the instrument
    joins the inactive-symbol set, and the effects this alert adds are exactly:
    the sound, when the configuration asks for it and an audio context exists
    (a new oscillator [o] starts playing and the one the state object of the
    instrument held is stopped); the browser notification of the alert, when
    the configuration asks for it and permission is granted (when permission
    has not been decided the permission is requested instead); and the toast,
    with the baseline of the state object the timer closed over. *)
Theorem logAlert_outcome_gates_bookkeeping (i : nat) (pa : PendingAlert) (now : Z) (w : World) :
  reachable w -> pendingLogs w !! i = Some pa ->
  (let w' := logAlertSettled i false now w in
   alerts w' = alerts w /\ inactiveSymbols w' = inactiveSymbols w
   /\ heap w' = heap w /\ playing w' = playing w
   /\ permissionRequests w' = permissionRequests w
   /\ store w' = store w
   /\ effects w' = ConsoleError "Error logging alert:" :: effects w)
  /\
  (let w' := logAlertSettled i true now w in
   let token := Tick.instrument_token (pa_tick pa) in
   let config := pa_config pa in
   let sound := Config.notification_sound config && audioContext w in
   let o := S (S (nextId w)) in
   let shown := Log.with_id (if sound then S o else o) now (pa_alert pa) in
   let permission :=
     if Config.notification_browser config then notificationPermission w else Unsupported in
   exists st,
     heap w !! pa_state pa = Some st
     /\ store w' = store w ++ [Log.with_id (nextId w) now (pa_alert pa)]
     /\ alerts w' = take 100 (Log.with_id (S (nextId w)) now (pa_alert pa) :: alerts w)
     /\ inactiveSymbols w' = inactiveSymbols w ∪ {[token]}
     /\ effects w'
        = ToastShown (Log.instrument_name (pa_alert pa)) (baselinePrice st)
            (Config.duration config)
          :: match permission with
             | Granted => [BrowserNotification shown]
             | _ => []
             end
          ++ (if sound then [SoundStarted token o] else [])
          ++ effects w
     /\ playing w'
        = (if sound
           then {[o]} ∪ match getState token w with
                        | Some (_, s) => match oscillator s with
                                         | Some o0 => playing w ∖ {[o0]}
                                         | None => playing w
                                         end
                        | None => playing w
                        end
           else playing w)
     /\ permissionRequests w'
        = match permission with
          | Default => permissionRequests w ++ [(shown, config)]
          | _ => permissionRequests w
          end
     /\ pendingLogs w' = delete i (pendingLogs w)).
Proof.
  intros Hr Hi. pose proof (reachable_Inv w Hr) as HI. split.
  - unfold logAlertSettled. rewrite Hi. done.
  - unfold logAlertSettled. rewrite Hi.
    unfold triggerAlert_resume, AlertService_logAlert. cbv zeta. cbn [fst snd].
    set (token := Tick.instrument_token (pa_tick pa)).
    set (w3 := upd_inactiveSymbols _ _).
    assert (is_Some (heap w !! pa_state pa)) as [st Hst].
    { apply (inv_pending w HI pa). apply list_elem_of_lookup. eauto. }
    destruct (playAlertSound_exact token (pa_config pa) w3)
      as (Pe & Pp & Pn & Pa & Pi & Ps & Pm & Pr & Pl & Ph).
    destruct (Ph (pa_state pa) st Hst) as (st' & Hst' & Hb).
    change (audioContext w3) with (audioContext w) in *.
    change (getState token w3) with (getState token w) in *.
    change (nextId w3) with (S (S (nextId w))) in *.
    change (playing w3) with (playing w) in *.
    change (effects w3) with (effects w) in *.
    set (sound := Config.notification_sound (pa_config pa) && audioContext w) in *.
    set (w4 := playAlertSound token (pa_config pa) w3) in *.
    assert (nextId w4 = if sound then S (S (S (nextId w))) else S (S (nextId w))) as Hn4
      by exact Pn.
    rewrite Hn4.
    set (shown := Log.with_id _ now (pa_alert pa)).
    exists st. split; [done|].
    unfold showBrowserNotification.
    change (notificationPermission (upd_nextId S w4)) with (notificationPermission w4).
    rewrite Pm. change (notificationPermission w3) with (notificationPermission w).
    destruct (Config.notification_browser (pa_config pa)); simpl;
      [destruct (notificationPermission w)|]; simpl; rewrite Hst'; simpl;
      rewrite Hb, Pe, Pp, Pa, Pi, Ps, Pr, Pl; done.
Qed.

End Emission.

Lemma fired_pending : pendingLogs fired !! 0%nat = Some firedAlert.
Proof. vm_compute. reflexivity. Qed.

Lemma logAlert_outcome_gates_bookkeeping_witness :
  @reachable alwaysOpen fired /\ pendingLogs fired !! 0%nat = Some firedAlert
  /\ effects (logAlertSettled 0 false 30100 fired)
     = ConsoleError "Error logging alert:" :: effects fired
  /\ alerts (logAlertSettled 0 true 30100 fired)
     = take 100 (Log.with_id (S (nextId fired)) 30100 (pa_alert firedAlert) :: alerts fired).
Proof.
  apply conj; [exact reachable_fired|]. apply conj; [exact fired_pending|].
  pose proof (@logAlert_outcome_gates_bookkeeping alwaysOpen 0%nat firedAlert 30100 fired
                reachable_fired fired_pending) as [Hfail Hok].
  destruct Hfail as (_ & _ & _ & _ & _ & _ & He).
  destruct Hok as (st & _ & _ & Ha & _).
  exact (conj He Ha).
Defined.

(** C1, counterexample: in the scenario the timer fires at 30 s; when the store
    then fails to persist the alert, the recent-alerts cache stays empty, token
    101 is not added to the inactive-symbol set, and no toast, sound or
    notification is made although the record had been built. *)
Lemma persistence_failure_skips_bookkeeping :
  pendingLogs fired = [firedAlert]
  /\ alerts persistFailed = []
  /\ inactiveSymbols persistFailed = ∅
  /\ effects persistFailed = [ConsoleError "Error logging alert:"].
Proof. repeat apply conj; vm_compute; reflexivity. Qed.

Section Firing.
Context `{MarketTimings}.

(** C2 (as the code has it): when the timeout of an armed instrument elapses
    while alerting is still eligible, the alert record is handed to Alert
    Emission and the engine does NOT rearm: the fired timer leaves the pending
    set, no new timer is scheduled, the state objects (baseline, history,
    recorded timer id) are left as they were, and no pending timer is left for
    the state object of the instrument, so that a second period of inactivity
    produces no second alert by itself. *)
Theorem timeout_hands_off_without_rearming (id : nat) (tm : Timer) (now : Z) (w : World)
  (uid : string) (st : SymbolState) :
  reachable w ->
  timers w !! id = Some tm ->
  user w = Some uid ->
  heap w !! tm_state tm = Some st ->
  shouldAlertNow (tm_config tm) (getInstrumentName (tm_tick tm)) now = true ->
  pendingLogs (timeout id now w)
    = pendingLogs w ++ [{| pa_alert := newAlert uid (tm_tick tm) (tm_config tm) st now;
                           pa_tick := tm_tick tm; pa_config := tm_config tm;
                           pa_state := tm_state tm |}]
  /\ timers (timeout id now w) = delete id (timers w)
  /\ heap (timeout id now w) = heap w
  /\ symbolStates (timeout id now w) = symbolStates w
  /\ nextId (timeout id now w) = nextId w
  /\ (forall id' tm', timers (timeout id now w) !! id' = Some tm' ->
        tm_state tm' <> tm_state tm).
Proof.
  intros Hr Hid Hu Hst Hsa.
  assert (pendingLogs (timeout id now w)
            = pendingLogs w ++ [{| pa_alert := newAlert uid (tm_tick tm) (tm_config tm) st now;
                                   pa_tick := tm_tick tm; pa_config := tm_config tm;
                                   pa_state := tm_state tm |}]
          /\ timers (timeout id now w) = delete id (timers w)
          /\ heap (timeout id now w) = heap w
          /\ symbolStates (timeout id now w) = symbolStates w
          /\ nextId (timeout id now w) = nextId w) as (Hp & Ht & Hh & Hs & Hn).
  { unfold timeout. rewrite Hid. unfold timerCallback. rewrite Hsa.
    unfold triggerAlert, noteSessionQuery.
    destruct (Config.respect_market_hours (tm_config tm)); simpl; rewrite Hu, Hst; done. }
  repeat (split; [done|]).
  intros id' tm' Hid' Heq. rewrite Ht in Hid'.
  apply lookup_delete_Some in Hid' as [Hne Hid'].
  pose proof (reachable_Inv w Hr) as HI.
  destruct (inv_timers w HI id tm Hid) as [_ (s1 & Hs1 & Ht1 & _)].
  destruct (inv_timers w HI id' tm' Hid') as [_ (s2 & Hs2 & Ht2 & _)].
  rewrite Heq in Hs2. congruence.
Qed.

(** C10: in every reachable state, a pending timer closed over a tick whose
    price is the baseline of the state object it closed over.  When the timer
    fires for a signed-in user while alerting is eligible, exactly one record
    is handed to [AlertService.logAlert]: it is built from the tick and the
    configuration the timer closed over, its [current_price] is the price of
    that tick, its [baseline_price] is the baseline of the state object, and
    the two are equal.  So is every record pending after a timer has fired. *)
Theorem fired_record_current_price_is_baseline (id : nat) (tm : Timer) (now : Z) (w : World) :
  reachable w -> timers w !! id = Some tm ->
  (exists st,
     heap w !! tm_state tm = Some st
     /\ baselinePrice st = Tick.last_price (tm_tick tm)
     /\ forall uid, user w = Some uid ->
          shouldAlertNow (tm_config tm) (getInstrumentName (tm_tick tm)) now = true ->
          exists pa,
            pendingLogs (timeout id now w) = pendingLogs w ++ [pa]
            /\ pa_tick pa = tm_tick tm
            /\ pa_config pa = tm_config tm
            /\ pa_state pa = tm_state tm
            /\ Log.user_id (pa_alert pa) = uid
            /\ Log.instrument_token (pa_alert pa) = Tick.instrument_token (tm_tick tm)
            /\ Log.tick_data (Log.alert_data (pa_alert pa)) = tm_tick tm
            /\ Log.current_price (pa_alert pa) = Tick.last_price (tm_tick tm)
            /\ Log.baseline_price (pa_alert pa) = baselinePrice st
            /\ Log.current_price (pa_alert pa) = Log.baseline_price (pa_alert pa))
  /\ forall pa, pa ∈ pendingLogs (timeout id now w) ->
       Log.current_price (pa_alert pa) = Log.baseline_price (pa_alert pa).
Proof.
  intros Hr Hid. split.
  - destruct (inv_timers w (reachable_Inv w Hr) id tm Hid) as [_ (st & Hst & _ & Hb)].
    exists st. split; [done|]. split; [done|]. intros uid Hu Hsa.
    exists {| pa_alert := newAlert uid (tm_tick tm) (tm_config tm) st now;
              pa_tick := tm_tick tm; pa_config := tm_config tm; pa_state := tm_state tm |}.
    split.
    + unfold timeout. rewrite Hid. unfold timerCallback. rewrite Hsa.
      unfold triggerAlert, noteSessionQuery.
      destruct (Config.respect_market_hours (tm_config tm)); simpl; rewrite Hu, Hst; done.
    + simpl. repeat split; congruence.
  - intros pa Hpa.
    assert (reachable (timeout id now w)) as Hr' by apply (reachable_step now (Timeout id) w Hr).
    by apply (inv_pending _ (reachable_Inv _ Hr') pa).
Qed.

End Firing.

Lemma scenario_timer : timers scenario !! 2%nat = Some timer2.
Proof. vm_compute. reflexivity. Qed.

Lemma scenario_user : user scenario = Some "u1"%string.
Proof. vm_compute. reflexivity. Qed.

Lemma scenario_state : heap scenario !! tm_state timer2 = Some state101.
Proof. vm_compute. reflexivity. Qed.

Lemma timeout_hands_off_without_rearming_witness :
  timers scenario !! 2%nat = Some timer2
  /\ @shouldAlertNow alwaysOpen (tm_config timer2) (@getInstrumentName alwaysOpen (tm_tick timer2))
       30000 = true
  /\ timers (@timeout alwaysOpen 2 30000 scenario) = delete 2%nat (timers scenario)
  /\ heap (@timeout alwaysOpen 2 30000 scenario) = heap scenario.
Proof.
  apply conj; [exact scenario_timer|]. apply conj; [reflexivity|].
  pose proof (@timeout_hands_off_without_rearming alwaysOpen 2%nat timer2 30000 scenario
                "u1"%string state101 reachable_scenario scenario_timer scenario_user
                scenario_state eq_refl)
    as (_ & Ht & Hh & _).
  exact (conj Ht Hh).
Defined.

(** C2, counterexample: after the timer of the scenario has fired at 30 s no
    timer is pending, the baseline is still 100 although the latest known price
    is 100.5, and letting the clock run to 1000 s changes nothing: there is no
    second alert.  Nor is a timer armed when the alert has been persisted and
    the tick effect has run again on the same batch. *)
Lemma no_rearm_after_fire :
  timers fired = ∅
  /\ heap fired !! 1%nat = Some state101
  /\ pendingLogs fired = [firedAlert]
  /\ @advance alwaysOpen 5 1000000 fired = fired
  /\ timers rerun = ∅
  /\ (baselinePrice <$> heap rerun !! 1%nat) = Some (100 # 1)
  /\ length (alerts (@advance alwaysOpen 5 1000000 rerun)) = 1%nat.
Proof. repeat apply conj; vm_compute; reflexivity. Qed.

Lemma fired_record_current_price_is_baseline_witness :
  @reachable alwaysOpen scenario /\ timers scenario !! 2%nat = Some timer2
  /\ exists pa,
       pendingLogs (@timeout alwaysOpen 2 30000 scenario) = pendingLogs scenario ++ [pa]
       /\ Log.current_price (pa_alert pa) = Tick.last_price (tm_tick timer2)
       /\ Log.current_price (pa_alert pa) = Log.baseline_price (pa_alert pa).
Proof.
  apply conj; [exact reachable_scenario|]. apply conj; [exact scenario_timer|].
  destruct (@fired_record_current_price_is_baseline alwaysOpen 2%nat timer2 30000 scenario
              reachable_scenario scenario_timer) as [(st & _ & _ & Hfire) _].
  destruct (Hfire "u1"%string scenario_user eq_refl)
    as (pa & Hp & _ & _ & _ & _ & _ & _ & Hc & _ & Heq).
  exists pa. exact (conj Hp (conj Hc Heq)).
Defined.

(** ** The scenario of the specification *)

(** C3 (as the code has it): with deviation 1.0, duration 30 s and market hours
    ignored, ticks at t = 0 (price 100) and t = 10 s (price 100.5) fire no alert
    at or before t = 10 s; with no further tick the alert fires at t = 30 s,
    thirty seconds after the tick that armed the timer, with baseline price 100,
    current price 100 and price range min 100, max 100.5; nothing more fires
    through t = 40 s. *)
Theorem scenario_fires_at_30s_from_first_tick :
  pendingLogs scenario = [] /\ alerts scenario = [] /\ effects scenario = []
  /\ pendingLogs (@advance alwaysOpen 5 29999 scenario) = []
  /\ pendingLogs (@advance alwaysOpen 5 30000 scenario) = [firedAlert]
  /\ Log.baseline_price (pa_alert firedAlert) = 100 # 1
  /\ Log.current_price (pa_alert firedAlert) = 100 # 1
  /\ Log.price_range (pa_alert firedAlert) = (Some (100 # 1), Some (201 # 2))
  /\ timers (@advance alwaysOpen 5 30000 scenario) = ∅
  /\ @advance alwaysOpen 5 40000 scenario = @advance alwaysOpen 5 30000 scenario.
Proof. repeat apply conj; vm_compute; reflexivity. Qed.

(** C3, counterexample: the alert of the scenario is already out at 39.999 s,
    and no alert with baseline 100.5 is out at 40 s. *)
Lemma scenario_does_not_fire_at_40s :
  pendingLogs (@advance alwaysOpen 5 39999 scenario) = [firedAlert]
  /\ forall pa, pa ∈ pendingLogs (@advance alwaysOpen 5 40000 scenario) ->
       ~ (Log.baseline_price (pa_alert pa) == 201 # 2)%Q.
Proof.
  apply conj; [vm_compute; reflexivity|].
  assert (pendingLogs (@advance alwaysOpen 5 40000 scenario) = [firedAlert]) as ->
    by (vm_compute; reflexivity).
  intros pa Hpa. apply list_elem_of_singleton in Hpa as ->. vm_compute. discriminate.
Qed.

(** ** Acknowledgment *)

Lemma acknowledge_again alertId uid t t' (r : UserAlertLog) :
  let f := fun now (r : UserAlertLog) =>
             if has_id alertId r && String.eqb (Log.user_id r) uid
             then Log.acknowledge now r else r in
  f t' (f t r) = f t' r.
Proof.
  simpl. destruct (has_id alertId r && String.eqb (Log.user_id r) uid) eqn:Hm.
  - unfold has_id in *. simpl. by rewrite Hm.
  - by rewrite Hm.
Qed.

Lemma acknowledge_again_cache alertId t t' (a : UserAlertLog) :
  let f := fun now (a : UserAlertLog) =>
             if has_id alertId a then Log.acknowledge now a else a in
  f t' (f t a) = f t' a.
Proof.
  simpl. destruct (has_id alertId a) eqn:Hm.
  - unfold has_id in *. simpl. by rewrite Hm.
  - by rewrite Hm.
Qed.

(** C9 (as the code has it): acknowledging an alert that is already
    acknowledged succeeds and keeps it acknowledged, but it is not a no-op:
    [acknowledged_at] of the stored record and of the cache entry is overwritten
    with the time of the new call.  The store and the cache end up as if the
    alert had been acknowledged once, at the time of the last call; a record
    either is left as it was or is the old record with [acknowledged = true]
    and the new [acknowledged_at]. *)
Theorem acknowledgeAlert_again_restamps (alertId : nat) (t1 t2 t1' t2' : Z) (w : World)
  (uid : string) :
  user w = Some uid ->
  let w1 := fst (acknowledgeAlert alertId true t1 t2 w) in
  let w2 := fst (acknowledgeAlert alertId true t1' t2' w1) in
  snd (acknowledgeAlert alertId true t1' t2' w1) = true
  /\ store w2 = store (fst (acknowledgeAlert alertId true t1' t2' w))
  /\ alerts w2 = alerts (fst (acknowledgeAlert alertId true t1' t2' w))
  /\ (forall i r, store w1 !! i = Some r ->
        has_id alertId r = true -> Log.user_id r = uid ->
        Log.acknowledged r = true
        /\ store w2 !! i = Some (Log.acknowledge t1' r))
  /\ (forall i r, store w1 !! i = Some r ->
        has_id alertId r && String.eqb (Log.user_id r) uid = false ->
        store w2 !! i = Some r)
  /\ (forall i a, alerts w1 !! i = Some a ->
        alerts w2 !! i = Some (if has_id alertId a then Log.acknowledge t2' a else a)).
Proof.
  intros Hu. unfold acknowledgeAlert, AlertService_acknowledgeAlert. rewrite Hu. simpl.
  rewrite Hu. simpl.
  split; [done|]. split; [|split; [|split; [|split]]].
  - rewrite map_map. apply map_ext. intros r. apply acknowledge_again.
  - rewrite map_map. apply map_ext. intros a. apply acknowledge_again_cache.
  - intros i r Hi Hid Huid. split.
    + apply list_elem_of_lookup_2 in Hi. apply list_elem_of_In, in_map_iff in Hi
        as (r0 & Hr0 & _).
      destruct (has_id alertId r0 && String.eqb (Log.user_id r0) uid) eqn:Hm.
      * by subst r.
      * subst r. rewrite Hid in Hm. simpl in Hm.
        apply String.eqb_neq in Hm. done.
    + change (map ?f ?l) with (f <$> l). rewrite list_lookup_fmap.
      change ((?f <$> ?l) !! i) with (map f l !! i) in Hi |- *.
      rewrite Hi. simpl. rewrite Hid. simpl.
      by rewrite (proj2 (String.eqb_eq _ _) Huid).
  - intros i r Hi Hm. change (map ?f ?l) with (f <$> l). rewrite list_lookup_fmap.
    change ((?f <$> ?l) !! i) with (map f l !! i) in Hi |- *.
    rewrite Hi. simpl. by rewrite Hm.
  - intros i a Hi. change (map ?f ?l) with (f <$> l). rewrite list_lookup_fmap.
    change ((?f <$> ?l) !! i) with (map f l !! i) in Hi |- *.
    by rewrite Hi.
Qed.

Lemma reloaded_user : user reloaded = Some "u1"%string.
Proof. vm_compute. reflexivity. Qed.

Lemma acknowledgeAlert_again_restamps_witness :
  user reloaded = Some "u1"%string
  /\ store ackedTwice = store (fst (acknowledgeAlert 3 true 50000 50001 reloaded))
  /\ alerts ackedTwice = alerts (fst (acknowledgeAlert 3 true 50000 50001 reloaded)).
Proof.
  apply conj; [exact reloaded_user|].
  pose proof (acknowledgeAlert_again_restamps 3 40000 40001 50000 50001 reloaded "u1"
                reloaded_user) as (_ & Hs & Ha & _).
  exact (conj Hs Ha).
Defined.

(** C9, counterexample: the alert stored under id 3 and acknowledged at 40 s is
    acknowledged again at 50 s; the call succeeds, and both the stored record
    and the cache entry change: their [acknowledged_at] moves from the first
    call's time to the second call's. *)
Lemma second_acknowledge_changes_record :
  map Log.acknowledged (store ackedOnce) = [true]
  /\ map Log.acknowledged (alerts ackedOnce) = [true]
  /\ snd (acknowledgeAlert 3 true 50000 50001 ackedOnce) = true
  /\ map Log.acknowledged_at (store ackedOnce) = [Some 40000]
  /\ map Log.acknowledged_at (store ackedTwice) = [Some 50000]
  /\ map Log.acknowledged_at (alerts ackedOnce) = [Some 40001]
  /\ map Log.acknowledged_at (alerts ackedTwice) = [Some 50001]
  /\ store ackedTwice <> store ackedOnce
  /\ alerts ackedTwice <> alerts ackedOnce.
Proof.
  repeat apply conj; try (vm_compute; reflexivity).
  - intros Heq. apply (f_equal (map Log.acknowledged_at)) in Heq.
    vm_compute in Heq. discriminate.
  - intros Heq. apply (f_equal (map Log.acknowledged_at)) in Heq.
    vm_compute in Heq. discriminate.
Qed.

(** ** Acknowledging everything: the sounds the state objects hold are stopped *)

Lemma quieter_refl w : quieter w w.
Proof. split; [done|]. split; [done|]. intros l st0 Hl. exists st0. auto. Qed.

Lemma quieter_stopAlertSound token w0 w :
  quieter w0 w -> quieter w0 (stopAlertSound token w).
Proof.
  intros (Hs & Hp & Hh). unfold stopAlertSound.
  destruct (getState token w) as [[l st]|] eqn:Hg; [|done].
  apply getState_Some in Hg as [Hsym Hst].
  destruct (oscillator st) as [o|] eqn:Ho; [|done].
  split; [done|]. split; simpl.
  - intros o' Ho'. apply Hp. by apply elem_of_difference in Ho' as [? _].
  - intros l' st0 Hl'. destruct (Hh l' st0 Hl') as (st' & Hst' & Hcase).
    destruct (decide (l = l')) as [<-|Hne].
    + rewrite lookup_alter_eq, Hst. simpl. eexists. split; [done|]. right. simpl.
      split; [done|]. intros o' Ho'.
      assert (st' = st) as -> by congruence.
      destruct Hcase as [Heq|[Hnone _]]; [|congruence].
      assert (o' = o) as -> by congruence.
      intros Hin. apply elem_of_difference in Hin as [_ Hn]. apply Hn.
      by apply elem_of_singleton.
    + rewrite lookup_alter_ne by done. exists st'. split; [done|].
      destruct Hcase as [Heq|[Hnone Hout]]; [by left|]. right. split; [done|].
      intros o' Ho' Hin. apply (Hout o' Ho'). by apply elem_of_difference in Hin as [? _].
Qed.

Lemma stopAlertSound_silent token w l st :
  symbolStates w !! token = Some l ->
  heap (stopAlertSound token w) !! l = Some st -> oscillator st = None.
Proof.
  intros Hsym. unfold stopAlertSound, getState. rewrite Hsym.
  destruct (heap w !! l) as [st0|] eqn:Hst0; [|by rewrite Hst0].
  destruct (oscillator st0) as [o|] eqn:Ho.
  - simpl. rewrite lookup_alter_eq, Hst0. simpl. by intros [= <-].
  - rewrite Hst0. by intros [= <-].
Qed.

Lemma stopAlertSound_stays_silent token w l st :
  heap (stopAlertSound token w) !! l = Some st ->
  exists st0, heap w !! l = Some st0 /\ (oscillator st0 = None -> oscillator st = None).
Proof.
  unfold stopAlertSound. destruct (getState token w) as [[l' st']|] eqn:Hg; [|eauto].
  destruct (oscillator st') as [o|]; [|eauto]. simpl.
  intros Hl. apply lookup_alter_Some in Hl as [[<- (st0 & Hst0 & ->)]|[_ Hl]]; eauto.
Qed.

Lemma stopAll_silent tokens w token l st :
  let w' := fold_left (fun w' token => stopAlertSound token w') tokens w in
  token ∈ tokens -> symbolStates w' !! token = Some l -> heap w' !! l = Some st ->
  oscillator st = None.
Proof.
  simpl. revert w. induction tokens as [|t ts IH]; intros w Hin Hsym Hst; simpl in *.
  - by apply elem_of_nil in Hin.
  - apply elem_of_cons in Hin as [->|Hin]; [|by eapply IH].
    (* [t] is stopped first and stays silent while the others are stopped *)
    assert (forall ts w l st,
              heap (fold_left (fun w' token => stopAlertSound token w') ts w) !! l = Some st ->
              exists st0, heap w !! l = Some st0
                          /\ (oscillator st0 = None -> oscillator st = None)) as Hstay.
    { clear. induction ts as [|t ts IH]; intros w l st Hst; simpl in *; [eauto|].
      destruct (IH _ _ _ Hst) as (st1 & Hst1 & H1).
      destruct (stopAlertSound_stays_silent _ _ _ _ Hst1) as (st0 & Hst0 & H0). eauto. }
    assert (forall ts w,
              symbolStates (fold_left (fun w' token => stopAlertSound token w') ts w)
              = symbolStates w) as Hsame.
    { clear. induction ts as [|t ts IH]; intros w; simpl; [done|].
      rewrite IH. apply (quieter_stopAlertSound t w w (quieter_refl w)). }
    destruct (Hstay _ _ _ _ Hst) as (st0 & Hst0 & H0). apply H0.
    rewrite Hsame in Hsym.
    eapply stopAlertSound_silent; [|exact Hst0].
    by rewrite (proj1 (quieter_stopAlertSound t w w (quieter_refl w))) in Hsym.
Qed.

Lemma quieter_stopAll tokens w0 w :
  quieter w0 w -> quieter w0 (fold_left (fun w' token => stopAlertSound token w') tokens w).
Proof.
  revert w. induction tokens as [|t ts IH]; intros w Hq; simpl; [done|].
  by apply IH, quieter_stopAlertSound.
Qed.

Lemma stopAlertSound_keeps token w o :
  o ∈ playing w ->
  (forall t l st, symbolStates w !! t = Some l -> heap w !! l = Some st ->
     oscillator st <> Some o) ->
  o ∈ playing (stopAlertSound token w)
  /\ (forall t l st, symbolStates (stopAlertSound token w) !! t = Some l ->
        heap (stopAlertSound token w) !! l = Some st -> oscillator st <> Some o).
Proof.
  intros Ho Hfree. unfold stopAlertSound.
  destruct (getState token w) as [[l0 s]|] eqn:Hg; [|done].
  apply getState_Some in Hg as [Hsym Hs].
  destruct (oscillator s) as [o0|] eqn:Hos; [|done]. simpl. split.
  - apply elem_of_difference. split; [done|]. intros Heq. apply elem_of_singleton in Heq.
    subst o0. by apply (Hfree token l0 s).
  - intros t l st Ht Hl. apply lookup_alter_Some in Hl as [[<- (st0 & Hst0 & ->)]|[_ Hl]].
    + done.
    + by apply (Hfree t l st).
Qed.

Lemma stopAll_keeps tokens w o :
  o ∈ playing w ->
  (forall t l st, symbolStates w !! t = Some l -> heap w !! l = Some st ->
     oscillator st <> Some o) ->
  o ∈ playing (fold_left (fun w' token => stopAlertSound token w') tokens w).
Proof.
  revert w. induction tokens as [|t ts IH]; intros w Ho Hfree; simpl; [done|].
  destruct (stopAlertSound_keeps t w o Ho Hfree) as [Ho' Hfree']. by apply IH.
Qed.

(** X25: when [clearAllAlerts] succeeds for the signed-in user, the
    recent-alerts cache is empty (so it holds no unacknowledged record), the
    inactive-symbol set is empty, and the sound of every state object of
    [symbolStates] is stopped: the object holds no oscillator any more, and the
    oscillator it held is no longer playing.  The sounds that play afterwards
    are exactly those that played before and that no state object of
    [symbolStates] held.  In the store every record of the user is
    acknowledged. *)
Theorem clearAllAlerts_success (now : Z) (w : World) (uid : string) :
  user w = Some uid ->
  let w' := clearAllAlerts true now w in
  alerts w' = []
  /\ inactiveSymbols w' = ∅
  /\ symbolStates w' = symbolStates w
  /\ (forall token l st, symbolStates w' !! token = Some l -> heap w' !! l = Some st ->
        oscillator st = None)
  /\ (forall token l st o, symbolStates w !! token = Some l -> heap w !! l = Some st ->
        oscillator st = Some o -> o ∉ playing w')
  /\ (forall r, r ∈ store w' -> Log.user_id r = uid -> Log.acknowledged r = true)
  /\ (forall o, o ∈ playing w'
        <-> o ∈ playing w
            /\ forall token l st, symbolStates w !! token = Some l ->
                  heap w !! l = Some st -> oscillator st <> Some o).
Proof.
  intros Hu. unfold clearAllAlerts, AlertService_acknowledgeAllAlerts. rewrite Hu. simpl.
  set (w2 := upd_alerts _ _).
  set (tokens := map fst (map_to_list (symbolStates w2))).
  set (w3 := fold_left (fun w' token => stopAlertSound token w') tokens w2).
  assert (quieter w2 w3) as (Hs & Hp & Hh) by apply quieter_stopAll, quieter_refl.
  assert (alerts w3 = []) as Ha.
  { subst w3. generalize tokens. assert (alerts w2 = []) as Ha2 by done. revert Ha2.
    generalize w2. clear. intros w Hw ts. revert w Hw.
    induction ts as [|t ts IH]; intros w Hw; simpl; [done|]. apply IH.
    unfold stopAlertSound. destruct (getState t w) as [[l st]|]; [|done].
    by destruct (oscillator st). }
  assert (store w3 = store w2) as Hst.
  { subst w3. generalize tokens. generalize w2. clear. intros w ts. revert w.
    induction ts as [|t ts IH]; intros w; simpl; [done|]. rewrite IH.
    unfold stopAlertSound. destruct (getState t w) as [[l st]|]; [|done].
    by destruct (oscillator st). }
  assert (forall token l st o, symbolStates w !! token = Some l -> heap w !! l = Some st ->
            oscillator st = Some o -> o ∉ playing w3) as Hstopped.
  { intros token l st o Hsym Hl Ho.
    destruct (Hh l st Hl) as (st' & Hst' & [Heq|[_ Hout]]); [|by apply Hout].
    assert (oscillator st' = None) as Hnone.
    { apply (stopAll_silent tokens w2 token l st');
        [|change (symbolStates w3 !! token = Some l); by rewrite Hs|done].
      subst tokens. apply list_elem_of_In, in_map_iff. exists (token, l). split; [done|].
      apply list_elem_of_In. by apply elem_of_map_to_list. }
    congruence. }
  split; [done|]. split; [done|]. split; [done|]. split; [|split; [|split]].
  - intros token l st Hsym Hl.
    change (symbolStates w3 !! token = Some l) in Hsym.
    change (heap w3 !! l = Some st) in Hl.
    apply (stopAll_silent tokens w2 token l st); [|done..].
    subst tokens. rewrite Hs in Hsym.
    apply list_elem_of_In, in_map_iff. exists (token, l). split; [done|].
    apply list_elem_of_In. by apply elem_of_map_to_list.
  - exact Hstopped.
  - intros r Hr Hru. change (r ∈ store w3) in Hr. rewrite Hst in Hr. simpl in Hr.
    apply list_elem_of_In, in_map_iff in Hr as (r0 & <- & _).
    destruct (String.eqb (Log.user_id r0) uid && negb (Log.acknowledged r0)) eqn:Hm; [done|].
    rewrite (proj2 (String.eqb_eq _ _) Hru) in Hm. simpl in Hm.
    by destruct (Log.acknowledged r0).
  - intros o. change (o ∈ playing w3
                      <-> o ∈ playing w
                          /\ forall token l st, symbolStates w !! token = Some l ->
                                heap w !! l = Some st -> oscillator st <> Some o).
    split.
    + intros Ho. split; [by apply Hp|].
      intros token l st Hsym Hl Heq. by apply (Hstopped token l st o).
    + intros [Ho Hfree]. by apply (stopAll_keeps tokens w2 o).
Qed.

Lemma sounding_user : user sounding = Some "u1"%string.
Proof. vm_compute. reflexivity. Qed.

Lemma sounding_plays :
  (oscillator <$> heap sounding !! 1%nat) = Some (Some 5%nat)
  /\ 5%nat ∈ playing sounding /\ 101 ∈ inactiveSymbols sounding
  /\ length (alerts sounding) = 1%nat.
Proof. repeat apply conj; vm_compute; reflexivity. Qed.

Lemma clearAllAlerts_success_witness :
  user sounding = Some "u1"%string
  /\ alerts (clearAllAlerts true 31000 sounding) = []
  /\ inactiveSymbols (clearAllAlerts true 31000 sounding) = ∅
  /\ 5%nat ∉ playing (clearAllAlerts true 31000 sounding).
Proof.
  apply conj; [exact sounding_user|].
  pose proof (clearAllAlerts_success 31000 sounding "u1" sounding_user)
    as (Ha & Hi & _ & _ & Hp & _).
  apply conj; [exact Ha|]. apply conj; [exact Hi|].
  apply (Hp 101 1%nat
           (set_sound (Some 5%nat) (Some 5%nat) state101) 5%nat); vm_compute; reflexivity.
Defined.


(** ** What a tick does to the state object of its token *)

Lemma alter_Some {A} (f : A -> A) (m : gmap nat A) l x :
  m !! l = Some x -> alter f l m = <[l := f x]> m.
Proof.
  intros Hl. apply map_eq. intros j. destruct (decide (l = j)) as [<-|Hne].
  - by rewrite lookup_alter_eq, lookup_insert_eq, Hl.
  - by rewrite lookup_alter_ne, lookup_insert_ne.
Qed.

Lemma heap_modify_Some l f w st :
  heap w !! l = Some st -> heap (modify l f w) = <[l := f st]> (heap w).
Proof. intros Hst. simpl. by apply alter_Some. Qed.

Lemma stopAlertSound_heap token w l st :
  symbolStates w !! token = Some l -> heap w !! l = Some st ->
  heap (stopAlertSound token w) = <[l := silenced st]> (heap w).
Proof.
  intros Hsym Hst. unfold stopAlertSound, getState, silenced. rewrite Hsym, Hst.
  destruct (oscillator st).
  - simpl. by apply alter_Some.
  - by rewrite insert_id.
Qed.

Lemma stopAlertSound_rest token w :
  symbolStates (stopAlertSound token w) = symbolStates w
  /\ timers (stopAlertSound token w) = timers w
  /\ inactiveSymbols (stopAlertSound token w) = inactiveSymbols w
  /\ pendingLogs (stopAlertSound token w) = pendingLogs w
  /\ alerts (stopAlertSound token w) = alerts w
  /\ effects (stopAlertSound token w) = effects w
  /\ nextId (stopAlertSound token w) = nextId w.
Proof.
  unfold stopAlertSound. destruct (getState token w) as [[l st]|]; [|done].
  by destruct (oscillator st).
Qed.

Lemma stopAlertSound_playing token w l st o :
  symbolStates w !! token = Some l -> heap w !! l = Some st -> oscillator st = Some o ->
  o ∉ playing (stopAlertSound token w).
Proof.
  intros Hsym Hst Ho. unfold stopAlertSound, getState. rewrite Hsym, Hst, Ho. simpl.
  intros Hin. apply elem_of_difference in Hin as [_ Hn]. apply Hn. by apply elem_of_singleton.
Qed.

Lemma resetInactivityTimer_spec tick config l now w st :
  heap w !! l = Some st ->
  let w' := resetInactivityTimer tick config l now w in
  heap w' = <[l := set_timerId (Some (nextId w))
                     (set_priceHistory [{| price := Tick.last_price tick; timestamp := now |}] st)]>
              (heap w)
  /\ timers w' = <[nextId w := {| tm_deadline := now + Z.max 0 (Config.duration config * 1000);
                                  tm_tick := tick; tm_config := config; tm_state := l |}]>
                   (cancelled (timerId st) (timers w))
  /\ nextId w' = S (nextId w)
  /\ symbolStates w' = symbolStates w
  /\ inactiveSymbols w' = inactiveSymbols w
  /\ playing w' = playing w
  /\ pendingLogs w' = pendingLogs w
  /\ alerts w' = alerts w
  /\ effects w' = effects w.
Proof.
  intros Hst. unfold resetInactivityTimer. rewrite Hst.
  destruct (timerId st) as [id|]; simpl.
  - split; [|done]. rewrite (alter_Some _ _ _ st Hst), alter_insert_eq. done.
  - split; [|done]. rewrite (alter_Some _ _ _ st Hst), alter_insert_eq. done.
Qed.

Lemma rearmed_fields tick n now st :
  baselinePrice (rearmed tick n now st) = Tick.last_price tick
  /\ timerId (rearmed tick n now st) = Some n
  /\ priceHistory (rearmed tick n now st)
     = [{| price := Tick.last_price tick; timestamp := now |}]
  /\ oscillator (rearmed tick n now st) = None
  /\ lastMarketStatusCheck (rearmed tick n now st) = lastMarketStatusCheck st
  /\ wasMarketOpen (rearmed tick n now st) = wasMarketOpen st.
Proof.
  unfold rearmed, silenced. simpl. destruct (oscillator st) eqn:Ho; simpl; repeat split; done.
Qed.

Lemma rearm_spec snap tick config l now w st :
  symbolStates w !! Tick.instrument_token tick = Some l -> heap w !! l = Some st ->
  let w' := rearm snap tick config l now w in
  heap w' = <[l := rearmed tick (nextId w) now st]> (heap w)
  /\ timers w' = <[nextId w := {| tm_deadline := now + Z.max 0 (Config.duration config * 1000);
                                  tm_tick := tick; tm_config := config; tm_state := l |}]>
                   (cancelled (timerId st) (timers w))
  /\ nextId w' = S (nextId w)
  /\ symbolStates w' = symbolStates w
  /\ inactiveSymbols w' = (if decide (Tick.instrument_token tick ∈ snap)
                           then inactiveSymbols w ∖ {[Tick.instrument_token tick]}
                           else inactiveSymbols w)
  /\ (forall o, oscillator st = Some o -> o ∉ playing w')
  /\ pendingLogs w' = pendingLogs w
  /\ alerts w' = alerts w
  /\ effects w' = effects w.
Proof.
  intros Hsym Hst. unfold rearm.
  set (token := Tick.instrument_token tick) in *.
  set (w1 := modify l (set_baselinePrice (Tick.last_price tick)) w).
  assert (heap w1 !! l = Some (set_baselinePrice (Tick.last_price tick) st)) as Hst1.
  { subst w1. rewrite (heap_modify_Some _ _ _ st Hst). apply lookup_insert_eq. }
  destruct (resetInactivityTimer_spec tick config l now w1 _ Hst1)
    as (Rh & Rt & Rn & Rs & Ri & Rp & Rl & Ra & Re).
  set (w2 := resetInactivityTimer tick config l now w1) in *.
  set (w3 := dropInactive snap token w2).
  assert (heap w3 = heap w2 /\ timers w3 = timers w2 /\ nextId w3 = nextId w2
          /\ symbolStates w3 = symbolStates w2 /\ playing w3 = playing w2
          /\ pendingLogs w3 = pendingLogs w2 /\ alerts w3 = alerts w2
          /\ effects w3 = effects w2
          /\ inactiveSymbols w3 = (if decide (token ∈ snap)
                                   then inactiveSymbols w2 ∖ {[token]}
                                   else inactiveSymbols w2))
    as (Dh & Dt & Dn & Ds & Dp & Dl & Da & De & Di).
  { subst w3. unfold dropInactive. by case_decide. }
  set (st2 := set_timerId (Some (nextId w1)) _) in Rh.
  assert (symbolStates w3 !! token = Some l) as Hsym3 by (by rewrite Ds, Rs).
  assert (heap w3 !! l = Some st2) as Hst3.
  { rewrite Dh, Rh. apply lookup_insert_eq. }
  destruct (stopAlertSound_rest token w3) as (Ss & St & Si & Sl & Sa & Se & Sn).
  rewrite (stopAlertSound_heap token w3 l st2 Hsym3 Hst3).
  rewrite St, Sn, Ss, Si, Sl, Sa, Se, Dh, Dt, Dn, Ds, Dl, Da, De, Di.
  rewrite Rh, Rt, Rn, Rs, Ri, Rl, Ra, Re.
  subst w1. simpl. rewrite (alter_Some _ _ _ st Hst), !insert_insert_eq.
  repeat split; try done.
  intros o Ho. eapply stopAlertSound_playing; [exact Hsym3 | exact Hst3 | done].
Qed.

Lemma suspend_spec token l w st :
  symbolStates w !! token = Some l -> heap w !! l = Some st ->
  let w' := suspend token l w in
  heap w' = <[l := suspended st]> (heap w)
  /\ timers w' = cancelled (timerId st) (timers w)
  /\ nextId w' = nextId w
  /\ symbolStates w' = symbolStates w
  /\ inactiveSymbols w' = inactiveSymbols w
  /\ pendingLogs w' = pendingLogs w
  /\ alerts w' = alerts w
  /\ effects w' = effects w.
Proof.
  intros Hsym Hst. unfold suspend.
  destruct (stopAlertSound_rest token w) as (Ss & St & Si & Sl & Sa & Se & Sn).
  pose proof (stopAlertSound_heap token w l st Hsym Hst) as Sh.
  set (w1 := stopAlertSound token w) in *.
  assert (heap w1 !! l = Some (silenced st)) as Hst1 by (rewrite Sh; apply lookup_insert_eq).
  rewrite Hst1. unfold suspended.
  assert (timerId (silenced st) = timerId st) as Hti.
  { unfold silenced. by destruct (oscillator st). }
  rewrite Hti. destruct (timerId st) as [id|]; simpl.
  - rewrite (alter_Some _ _ _ _ Hst1), Sh, insert_insert_eq, St. done.
  - rewrite Sh, St. done.
Qed.

Lemma priceMoved_baseline tick st st' config :
  baselinePrice st' = baselinePrice st -> priceMoved tick st' config = priceMoved tick st config.
Proof. unfold priceMoved. by intros ->. Qed.

Lemma watchPrice_spec snap tick config l now w st :
  symbolStates w !! Tick.instrument_token tick = Some l -> heap w !! l = Some st ->
  let w' := watchPrice snap tick config l now w in
  heap w' = <[l := watched tick config (nextId w) now st]> (heap w)
  /\ symbolStates w' = symbolStates w
  /\ effects w' = effects w.
Proof.
  intros Hsym Hst. unfold watchPrice. rewrite modify_modify.
  set (w2 := modify l _ w).
  assert (heap w2 = <[l := pruned tick now st]> (heap w)) as Hh2.
  { subst w2. by rewrite (heap_modify_Some _ _ _ st Hst). }
  assert (heap w2 !! l = Some (pruned tick now st)) as Hst2.
  { rewrite Hh2. apply lookup_insert_eq. }
  rewrite Hst2. unfold watched.
  destruct (priceMoved tick (pruned tick now st) config).
  - destruct (rearm_spec snap tick config l now w2 _ Hsym Hst2)
      as (Rh & _ & _ & Rs & _ & _ & _ & _ & Re).
    rewrite Rh, Rs, Re, Hh2, insert_insert_eq. done.
  - by rewrite Hh2.
Qed.

Lemma processExisting_spec snap tick config shouldAlert l st now w :
  symbolStates w !! Tick.instrument_token tick = Some l -> heap w !! l = Some st ->
  let w' := processExisting snap tick config shouldAlert l st now w in
  heap w' = <[l := checked tick config shouldAlert (nextId w) now st]> (heap w)
  /\ symbolStates w' = symbolStates w
  /\ effects w' = effects w.
Proof.
  intros Hsym Hst. unfold processExisting, checked.
  set (due := now - lastMarketStatusCheck st >? 60000).
  set (st1 := if due then set_lastMarketStatusCheck now st else st).
  set (w1 := if due then _ else w).
  assert (heap w1 = <[l := st1]> (heap w) /\ symbolStates w1 = symbolStates w
          /\ effects w1 = effects w /\ nextId w1 = nextId w) as (Hh1 & Hs1 & He1 & Hn1).
  { subst w1 st1. destruct due.
    - by rewrite (heap_modify_Some _ _ _ st Hst).
    - by rewrite insert_id. }
  assert (heap w1 !! l = Some st1) as Hst1 by (rewrite Hh1; apply lookup_insert_eq).
  assert (symbolStates w1 !! Tick.instrument_token tick = Some l) as Hsym1 by (by rewrite Hs1).
  destruct (due && negb (Bool.eqb (wasMarketOpen st) shouldAlert)).
  - set (w2 := modify l (set_wasMarketOpen shouldAlert) w1).
    assert (heap w2 = <[l := set_wasMarketOpen shouldAlert st1]> (heap w)) as Hh2.
    { subst w2. by rewrite (heap_modify_Some _ _ _ st1 Hst1), Hh1, insert_insert_eq. }
    assert (heap w2 !! l = Some (set_wasMarketOpen shouldAlert st1)) as Hst2.
    { rewrite Hh2. apply lookup_insert_eq. }
    destruct shouldAlert.
    + destruct (rearm_spec snap tick config l now w2 _ Hsym1 Hst2)
        as (Rh & _ & _ & Rs & _ & _ & _ & _ & Re).
      rewrite Rh, Rs, Re, Hh2, insert_insert_eq. simpl. rewrite Hn1. done.
    + destruct (suspend_spec (Tick.instrument_token tick) l w2 _ Hsym1 Hst2)
        as (Rh & _ & _ & Rs & _ & _ & _ & Re).
      rewrite Rh, Rs, Re, Hh2, insert_insert_eq. done.
  - destruct (negb shouldAlert && Config.respect_market_hours config).
    + destruct (suspend_spec (Tick.instrument_token tick) l w1 _ Hsym1 Hst1)
        as (Rh & _ & _ & Rs & _ & _ & _ & Re).
      rewrite Rh, Rs, Re, Hh1, insert_insert_eq. done.
    + destruct (watchPrice_spec snap tick config l now w1 _ Hsym1 Hst1)
        as (Rh & Rs & Re).
      rewrite Rh, Rs, Re, Hh1, insert_insert_eq, Hn1. done.
Qed.

Lemma processExisting_moved snap tick config l st now w :
  symbolStates w !! Tick.instrument_token tick = Some l -> heap w !! l = Some st ->
  priceMoved tick st config = true ->
  exists wX stX,
    processExisting snap tick config true l st now w = rearm snap tick config l now wX
    /\ symbolStates wX = symbolStates w /\ heap wX = <[l := stX]> (heap w)
    /\ timerId stX = timerId st /\ oscillator stX = oscillator st
    /\ timers wX = timers w /\ nextId wX = nextId w
    /\ inactiveSymbols wX = inactiveSymbols w /\ playing wX = playing w
    /\ pendingLogs wX = pendingLogs w /\ alerts wX = alerts w
    /\ store wX = store w /\ effects wX = effects w.
Proof.
  intros Hsym Hst Hpm. unfold processExisting.
  set (due := now - lastMarketStatusCheck st >? 60000).
  set (st1 := if due then set_lastMarketStatusCheck now st else st).
  set (w1 := if due then _ else w).
  assert (w1 = modify l (fun s => if due then set_lastMarketStatusCheck now s else s) w) as Hw1.
  { subst w1. destruct due; [done|]. by rewrite modify_id. }
  destruct (due && negb (Bool.eqb (wasMarketOpen st) true)).
  - rewrite Hw1, modify_modify. eexists _, _. split; [reflexivity|].
    rewrite (heap_modify_Some _ _ _ st Hst). simpl.
    split; [done|]. split; [reflexivity|]. destruct due; repeat split; done.
  - simpl. unfold watchPrice. rewrite Hw1, !modify_modify.
    set (g := _ ∘ _).
    rewrite (heap_modify_Some _ _ _ st Hst), lookup_insert_eq.
    rewrite (priceMoved_baseline tick st (g st) config), Hpm by (subst g; by destruct due).
    eexists _, _. split; [reflexivity|].
    rewrite (heap_modify_Some _ _ _ st Hst). simpl.
    split; [done|]. split; [reflexivity|]. subst g. destruct due; repeat split; done.
Qed.

(** The sounds [rearm] leaves playing: all but the one the object held. *)
Lemma rearm_sound snap tick config l now w st :
  symbolStates w !! Tick.instrument_token tick = Some l -> heap w !! l = Some st ->
  let w' := rearm snap tick config l now w in
  playing w' = match oscillator st with
               | Some o => playing w ∖ {[o]}
               | None => playing w
               end
  /\ store w' = store w.
Proof.
  intros Hsym Hst. unfold rearm.
  set (token := Tick.instrument_token tick) in *.
  set (w1 := modify l (set_baselinePrice (Tick.last_price tick)) w).
  assert (heap w1 !! l = Some (set_baselinePrice (Tick.last_price tick) st)) as Hst1.
  { subst w1. rewrite (heap_modify_Some _ _ _ st Hst). apply lookup_insert_eq. }
  destruct (resetInactivityTimer_spec tick config l now w1 _ Hst1)
    as (Rh & _ & _ & Rs & _ & Rp & _).
  assert (store (resetInactivityTimer tick config l now w1) = store w) as Rst.
  { unfold resetInactivityTimer. rewrite Hst1. simpl. by destruct (timerId st). }
  set (w2 := resetInactivityTimer tick config l now w1) in *.
  set (w3 := dropInactive snap token w2).
  assert (heap w3 = heap w2 /\ symbolStates w3 = symbolStates w2 /\ playing w3 = playing w2
          /\ store w3 = store w2) as (Dh & Ds & Dp & Dst).
  { subst w3. unfold dropInactive. by case_decide. }
  unfold stopAlertSound, getState. rewrite Ds, Rs, Dh, Rh.
  change (symbolStates w1) with (symbolStates w). rewrite Hsym, lookup_insert_eq.
  change (playing w1) with (playing w) in Rp.
  cbn [oscillator set_timerId set_priceHistory set_baselinePrice].
  destruct (oscillator st) as [o|]; simpl; by rewrite Dp, Rp, Dst, Rst.
Qed.

Section Monitoring.
Context `{MarketTimings}.

(** C5 (as the code has it): for every instrument that has a state object and
    an enabled configuration for which alerting is eligible when the tick is
    processed (market hours not respected, or the session oracle reports
    active), processing a tick whose price differs from the baseline by
    strictly more than the configured deviation, on doubles, cancels the timer
    the object holds, arms a fresh timer for [duration] seconds, sets the
    baseline to the new price and makes it the only point of the history.  The
    instrument leaves the inactive-symbol set when [snap], the set of the
    render the effect belongs to, holds it, and otherwise the set stays as it
    is.  The oscillator the state object holds is stopped and no other: the
    sounds that play afterwards are those that played before but that one.  No
    alert is emitted: nothing is handed to the store, nothing is shown, and the
    pending and the cached alerts are as before (up to the points of the shared
    history array); the cancelled timer is gone, and the only pending timer of
    the state object is the fresh one. *)
Theorem price_move_cancels_and_rearms (snap : gset Z) (now : Z) (tick : TickData) (w : World)
  (config : UserAlertConfig) (l : loc) (st : SymbolState) :
  reachable w ->
  configurations w !! Tick.instrument_token tick = Some config ->
  Config.enabled config = true ->
  getState (Tick.instrument_token tick) w = Some (l, st) ->
  shouldAlertNow config (getInstrumentName tick) now = true ->
  priceMoved tick st config = true ->
  exists st',
    getState (Tick.instrument_token tick) (processTick snap now tick w) = Some (l, st')
    /\ baselinePrice st' = Tick.last_price tick
    /\ priceHistory st' = [{| price := Tick.last_price tick; timestamp := now |}]
    /\ timerId st' = Some (nextId w)
    /\ oscillator st' = None
    /\ timers (processTick snap now tick w)
       = <[nextId w := {| tm_deadline := now + Z.max 0 (Config.duration config * 1000);
                          tm_tick := tick; tm_config := config; tm_state := l |}]>
           (cancelled (timerId st) (timers w))
    /\ (forall id, timerId st = Some id -> timers (processTick snap now tick w) !! id = None)
    /\ (forall id tm, timers (processTick snap now tick w) !! id = Some tm ->
          tm_state tm = l -> id = nextId w)
    /\ playing (processTick snap now tick w)
       = match oscillator st with
         | Some o => playing w ∖ {[o]}
         | None => playing w
         end
    /\ inactiveSymbols (processTick snap now tick w)
       = (if decide (Tick.instrument_token tick ∈ snap)
          then inactiveSymbols w ∖ {[Tick.instrument_token tick]}
          else inactiveSymbols w)
    /\ map pa_without_history (pendingLogs (processTick snap now tick w))
       = map pa_without_history (pendingLogs w)
    /\ map Log.without_history (alerts (processTick snap now tick w))
       = map Log.without_history (alerts w)
    /\ store (processTick snap now tick w) = store w
    /\ effects (processTick snap now tick w)
       = (if Config.respect_market_hours config
          then SessionQueried (getInstrumentName tick) now :: effects w
          else effects w).
Proof.
  intros Hr Hcfg Hen Hg Hsa Hdev.
  pose proof (reachable_Inv w Hr) as HI.
  apply getState_Some in Hg as [Hsym Hst].
  set (token := Tick.instrument_token tick) in *.
  unfold processTick. fold token. rewrite Hcfg, Hen, Hsa. simpl.
  set (w0 := noteSessionQuery config (getInstrumentName tick) now w).
  assert (symbolStates w0 = symbolStates w /\ heap w0 = heap w /\ timers w0 = timers w
          /\ nextId w0 = nextId w /\ inactiveSymbols w0 = inactiveSymbols w
          /\ playing w0 = playing w /\ pendingLogs w0 = pendingLogs w
          /\ alerts w0 = alerts w /\ store w0 = store w
          /\ effects w0 = (if Config.respect_market_hours config
                           then SessionQueried (getInstrumentName tick) now :: effects w
                           else effects w))
    as (Hs0 & Hh0 & Ht0 & Hn0 & Hi0 & Hp0 & Hl0 & Ha0 & Hst0 & He0).
  { subst w0. unfold noteSessionQuery. by destruct (Config.respect_market_hours config). }
  assert (getState token w0 = Some (l, st)) as ->.
  { apply getState_Some. by rewrite Hs0, Hh0. }
  destruct (processExisting_moved snap tick config l st now w0)
    as (wX & stX & -> & HsX & HhX & HtiX & HoX & HtX & HnX & HiX & HpX & HlX & HaX & HstX' & HeX);
    [by rewrite Hs0 | by rewrite Hh0 | done |].
  assert (symbolStates wX !! token = Some l) as HsymX by (by rewrite HsX, Hs0).
  assert (heap wX !! l = Some stX) as HstX by (rewrite HhX; apply lookup_insert_eq).
  destruct (rearm_spec snap tick config l now wX stX HsymX HstX)
    as (Rh & Rt & Rn & Rs & Ri & _ & Rl & Ra & Re).
  destruct (rearm_sound snap tick config l now wX stX HsymX HstX) as (Rp & Rst).
  fold token in Ri.
  set (w' := rearm snap tick config l now wX) in *.
  rewrite HnX, Hn0 in Rh, Rt. rewrite HtiX, HtX, Ht0 in Rt.
  exists (rearmed tick (nextId w) now stX).
  assert (forall id, timerId st = Some id -> (id < nextId w)%nat) as Hfresh.
  { intros id Hid. destruct (inv_heap w HI l st Hst) as [_ [_ Hlt]]. by apply Hlt. }
  destruct (rearmed_fields tick (nextId w) now stX) as (Fb & Ft & Fh & Fo & _).
  split; [|split; [done|split; [done|split; [done|split; [done|split; [done|]]]]]].
  { apply getState_Some. split; [by rewrite Rs|]. rewrite Rh. apply lookup_insert_eq. }
  split; [|split; [|split; [|split; [|split; [|split; [|split]]]]]].
  - intros id Hid. rewrite Rt, Hid. simpl.
    specialize (Hfresh id Hid).
    rewrite lookup_insert_ne by lia. apply lookup_delete_eq.
  - intros id tm Hid Hl. rewrite Rt in Hid.
    apply lookup_insert_Some in Hid as [[<- _]|[Hne Hid]]; [done|]. exfalso.
    assert (timers w !! id = Some tm /\ timerId st <> Some id) as [Hw Hti].
    { destruct (timerId st) as [id0|]; simpl in Hid.
      - apply lookup_delete_Some in Hid as [? ?]. split; [done | congruence].
      - done. }
    destruct (inv_timers w HI id tm Hw) as [_ (st0 & Hst0' & Hti0 & _)].
    rewrite Hl in Hst0'. congruence.
  - by rewrite Rp, HoX, HpX, Hp0.
  - by rewrite Ri, HiX, Hi0.
  - by rewrite Rl, HlX, Hl0.
  - by rewrite Ra, HaX, Ha0.
  - by rewrite Rst, HstX', Hst0.
  - by rewrite Re, HeX, He0.
Qed.
End Monitoring.

Lemma silenced_fields st :
  baselinePrice (silenced st) = baselinePrice st
  /\ timerId (silenced st) = timerId st
  /\ priceHistory (silenced st) = priceHistory st
  /\ lastMarketStatusCheck (silenced st) = lastMarketStatusCheck st
  /\ wasMarketOpen (silenced st) = wasMarketOpen st.
Proof. unfold silenced. by destruct (oscillator st). Qed.

Lemma suspended_fields st :
  baselinePrice (suspended st) = baselinePrice st
  /\ priceHistory (suspended st) = priceHistory st
  /\ lastMarketStatusCheck (suspended st) = lastMarketStatusCheck st
  /\ wasMarketOpen (suspended st) = wasMarketOpen st.
Proof.
  unfold suspended. destruct (silenced_fields st) as (Hb & Ht & Hp & Hl & Hw).
  destruct (timerId (silenced st)); simpl; repeat split; done.
Qed.

Lemma watched_fields tick config n now st :
  lastMarketStatusCheck (watched tick config n now st) = lastMarketStatusCheck st
  /\ wasMarketOpen (watched tick config n now st) = wasMarketOpen st.
Proof.
  unfold watched. destruct (priceMoved tick (pruned tick now st) config); [|done].
  destruct (rearmed_fields tick n now (pruned tick now st)) as (_ & _ & _ & _ & -> & ->). done.
Qed.

Lemma pruned_history tick now st :
  (length (priceHistory (pruned tick now st)) <= 100)%nat
  /\ Forall (recent now) (priceHistory (pruned tick now st)).
Proof.
  unfold pruned. simpl. split; [apply slice_last_length|].
  unfold slice_last. apply Forall_drop. apply Forall_forall. intros h Hh.
  apply list_elem_of_In, filter_In in Hh as [_ Hh]. unfold recent. lia.
Qed.

Lemma fresh_history tick now :
  (length [{| price := Tick.last_price tick; timestamp := now |}] <= 100)%nat
  /\ Forall (recent now) [{| price := Tick.last_price tick; timestamp := now |}].
Proof.
  split; [simpl; lia|]. apply Forall_cons. split; [|done]. unfold recent. simpl. lia.
Qed.

Lemma checked_history tick config n now st :
  (length (priceHistory (checked tick config true n now st)) <= 100)%nat
  /\ Forall (recent now) (priceHistory (checked tick config true n now st)).
Proof.
  unfold checked.
  destruct (_ && negb (Bool.eqb (wasMarketOpen st) true)).
  - destruct (rearmed_fields tick n now (set_wasMarketOpen true
        (if now - lastMarketStatusCheck st >? 60000
         then set_lastMarketStatusCheck now st else st))) as (_ & _ & -> & _).
    apply fresh_history.
  - simpl. unfold watched.
    destruct (priceMoved tick _ config).
    + destruct (rearmed_fields tick n now (pruned tick now
          (if now - lastMarketStatusCheck st >? 60000
           then set_lastMarketStatusCheck now st else st))) as (_ & _ & -> & _).
      apply fresh_history.
    + apply pruned_history.
Qed.

Lemma checked_session tick config shouldAlert n now st :
  (lastMarketStatusCheck (checked tick config shouldAlert n now st) = lastMarketStatusCheck st
   /\ wasMarketOpen (checked tick config shouldAlert n now st) = wasMarketOpen st
   /\ now - lastMarketStatusCheck st <= 60000)
  \/ (60000 < now - lastMarketStatusCheck st
      /\ lastMarketStatusCheck (checked tick config shouldAlert n now st) = now
      /\ wasMarketOpen (checked tick config shouldAlert n now st) = shouldAlert).
Proof.
  unfold checked.
  destruct (Z.gtb_spec (now - lastMarketStatusCheck st) 60000) as [Hdue|Hdue]; simpl.
  - right. split; [lia|].
    destruct (Bool.eqb (wasMarketOpen st) shouldAlert) eqn:Heq; simpl.
    + apply Bool.eqb_prop in Heq.
      destruct (negb shouldAlert && Config.respect_market_hours config).
      * destruct (suspended_fields (set_lastMarketStatusCheck now st)) as (_ & _ & -> & ->).
        done.
      * destruct (watched_fields tick config n now (set_lastMarketStatusCheck now st))
          as (-> & ->). done.
    + destruct shouldAlert.
      * destruct (rearmed_fields tick n now
                    (set_wasMarketOpen true (set_lastMarketStatusCheck now st)))
          as (_ & _ & _ & _ & -> & ->). done.
      * destruct (suspended_fields
                    (set_wasMarketOpen false (set_lastMarketStatusCheck now st)))
          as (_ & _ & -> & ->). done.
  - left.
    destruct (negb shouldAlert && Config.respect_market_hours config).
    + destruct (suspended_fields st) as (_ & _ & -> & ->). done.
    + destruct (watched_fields tick config n now st) as (-> & ->). done.
Qed.

Section History.
Context `{MarketTimings}.

(** C6 (as the code has it): in every reachable state every retained
    [priceHistory] holds at most 100 entries; and after processing a tick of an
    instrument with an enabled configuration while alerting is eligible (market
    hours not respected, or the session oracle reports active), the retained
    history of the instrument holds at most 100 entries, each less than five
    minutes older than the time the tick was processed.  A tick processed while
    alerting is not eligible leaves the history of an existing state object
    untouched, whatever the age of its entries. *)
Theorem history_is_capped_and_pruned_when_eligible (w : World) :
  reachable w ->
  (forall l st, heap w !! l = Some st -> (length (priceHistory st) <= 100)%nat)
  /\ (forall snap now tick config l st',
        configurations w !! Tick.instrument_token tick = Some config ->
        Config.enabled config = true ->
        shouldAlertNow config (getInstrumentName tick) now = true ->
        getState (Tick.instrument_token tick) (processTick snap now tick w) = Some (l, st') ->
        (length (priceHistory st') <= 100)%nat
        /\ Forall (fun h => now - 5 * 60 * 1000 < timestamp h) (priceHistory st'))
  /\ (forall snap now tick config l st,
        configurations w !! Tick.instrument_token tick = Some config ->
        Config.enabled config = true ->
        shouldAlertNow config (getInstrumentName tick) now = false ->
        getState (Tick.instrument_token tick) w = Some (l, st) ->
        exists st',
          getState (Tick.instrument_token tick) (processTick snap now tick w) = Some (l, st')
          /\ priceHistory st' = priceHistory st).
Proof.
  intros Hr. split; [|split].
  - intros l st Hl. by destruct (inv_heap w (reachable_Inv w Hr) l st Hl) as [_ [? _]].
  - intros snap now tick config l st' Hcfg Hen Hsa Hg.
    unfold processTick in Hg. rewrite Hcfg, Hen, Hsa in Hg. simpl in Hg.
    set (token := Tick.instrument_token tick) in *.
    set (w0 := noteSessionQuery config (getInstrumentName tick) now w) in *.
    destruct (getState token w0) as [[l0 st]|] eqn:Hg0.
    + apply getState_Some in Hg0 as [Hsym Hst].
      destruct (processExisting_spec snap tick config true l0 st now w0 Hsym Hst)
        as (Rh & Rs & _).
      apply getState_Some in Hg as [Hsym' Hst'].
      rewrite Rs in Hsym'. fold token in Hsym. rewrite Hsym in Hsym'. injection Hsym' as <-.
      rewrite Rh, lookup_insert_eq in Hst'. injection Hst' as <-.
      apply checked_history.
    + set (state := Build_SymbolState _ _ _ _ _ _ _) in Hg.
      set (w1 := upd_symbolStates _ _) in Hg.
      assert (heap w1 !! nextId w0 = Some state) as Hst1 by (simpl; apply lookup_insert_eq).
      destruct (resetInactivityTimer_spec tick config (nextId w0) now w1 state Hst1)
        as (Rh & _ & _ & Rs & _).
      apply getState_Some in Hg as [Hsym' Hst'].
      rewrite Rs in Hsym'. simpl in Hsym'. rewrite lookup_insert_eq in Hsym'.
      injection Hsym' as <-.
      rewrite Rh, lookup_insert_eq in Hst'. injection Hst' as <-. simpl.
      apply fresh_history.
  - intros snap now tick config l st Hcfg Hen Hsa Hg.
    apply getState_Some in Hg as [Hsym Hst].
    unfold processTick. rewrite Hcfg, Hen, Hsa. simpl.
    set (token := Tick.instrument_token tick) in *.
    set (w0 := noteSessionQuery config (getInstrumentName tick) now w).
    assert (symbolStates w0 = symbolStates w /\ heap w0 = heap w) as (Hs0 & Hh0).
    { subst w0. unfold noteSessionQuery. by destruct (Config.respect_market_hours config). }
    assert (getState token w0 = Some (l, st)) as ->.
    { apply getState_Some. by rewrite Hs0, Hh0. }
    destruct (processExisting_spec snap tick config false l st now w0)
      as (Rh & Rs & _); [by rewrite Hs0 | by rewrite Hh0 |].
    eexists. split.
    + apply getState_Some. split; [by rewrite Rs, Hs0|]. rewrite Rh. apply lookup_insert_eq.
    + assert (Config.respect_market_hours config = true) as Hrespect.
      { unfold shouldAlertNow in Hsa. by destruct (Config.respect_market_hours config). }
      unfold checked. rewrite Hrespect. simpl.
      destruct (_ && negb (Bool.eqb (wasMarketOpen st) false)).
      * destruct (suspended_fields (set_wasMarketOpen false
            (if now - lastMarketStatusCheck st >? 60000
             then set_lastMarketStatusCheck now st else st))) as (_ & -> & _).
        simpl. by destruct (now - lastMarketStatusCheck st >? 60000).
      * destruct (suspended_fields
            (if now - lastMarketStatusCheck st >? 60000
             then set_lastMarketStatusCheck now st else st)) as (_ & -> & _).
        by destruct (now - lastMarketStatusCheck st >? 60000).
Qed.

(** C7 (as the code has it): processing a tick of an instrument with an enabled
    configuration consults the session oracle exactly once when the
    configuration respects market hours and not at all otherwise, however
    recent the previous consultation.  What is throttled is the check for a
    session transition: when the instrument has a state object, a tick processed
    60 seconds or less after [lastMarketStatusCheck] leaves
    [lastMarketStatusCheck] and [wasMarketOpen] unchanged, and one processed
    later sets [lastMarketStatusCheck] to the current time and [wasMarketOpen]
    to the oracle's answer. *)
Theorem session_check_is_throttled_oracle_is_not (snap : gset Z) (now : Z) (tick : TickData)
  (w : World) (config : UserAlertConfig) :
  configurations w !! Tick.instrument_token tick = Some config ->
  Config.enabled config = true ->
  effects (processTick snap now tick w)
  = (if Config.respect_market_hours config
     then [SessionQueried (getInstrumentName tick) now] else []) ++ effects w
  /\ forall l st, getState (Tick.instrument_token tick) w = Some (l, st) ->
     exists st',
       getState (Tick.instrument_token tick) (processTick snap now tick w) = Some (l, st')
       /\ ((lastMarketStatusCheck st' = lastMarketStatusCheck st
            /\ wasMarketOpen st' = wasMarketOpen st
            /\ now - lastMarketStatusCheck st <= 60000)
           \/ (60000 < now - lastMarketStatusCheck st
               /\ lastMarketStatusCheck st' = now
               /\ wasMarketOpen st' = shouldAlertNow config (getInstrumentName tick) now)).
Proof.
  intros Hcfg Hen.
  unfold processTick. rewrite Hcfg, Hen. simpl.
  set (token := Tick.instrument_token tick) in *.
  set (w0 := noteSessionQuery config (getInstrumentName tick) now w).
  assert (symbolStates w0 = symbolStates w /\ heap w0 = heap w
          /\ effects w0 = (if Config.respect_market_hours config
                           then [SessionQueried (getInstrumentName tick) now] else [])
                          ++ effects w) as (Hs0 & Hh0 & He0).
  { subst w0. unfold noteSessionQuery. by destruct (Config.respect_market_hours config). }
  assert (getState token w0 = getState token w) as Hg0.
  { unfold getState. by rewrite Hs0, Hh0. }
  rewrite Hg0.
  destruct (getState token w) as [[l st]|] eqn:Hg.
  - apply getState_Some in Hg as [Hsym Hst].
    destruct (processExisting_spec snap tick config
                (shouldAlertNow config (getInstrumentName tick) now) l st now w0)
      as (Rh & Rs & Re); [by rewrite Hs0 | by rewrite Hh0 |].
    split; [by rewrite Re|].
    intros l' st0 [= <- <-]. eexists. split.
    + apply getState_Some. split; [by rewrite Rs, Hs0|]. rewrite Rh. apply lookup_insert_eq.
    + apply checked_session.
  - split; [|done].
    set (state := Build_SymbolState _ _ _ _ _ _ _).
    set (w1 := upd_symbolStates _ _).
    destruct (shouldAlertNow config (getInstrumentName tick) now); [|done].
    assert (heap w1 !! nextId w0 = Some state) as Hst1 by (simpl; apply lookup_insert_eq).
    destruct (resetInactivityTimer_spec tick config (nextId w0) now w1 state Hst1)
      as (_ & _ & _ & _ & _ & _ & _ & _ & Re).
    by rewrite Re.
Qed.
End History.

(** ** The monitoring properties on the concrete runs *)

Lemma scenario_configuration :
  configurations scenario !! Tick.instrument_token moveTick = Some (config101 false).
Proof. vm_compute. reflexivity. Qed.

Lemma scenario_getState :
  getState (Tick.instrument_token moveTick) scenario = Some (1%nat, state101).
Proof. vm_compute. reflexivity. Qed.

Lemma moveTick_moves : priceMoved moveTick state101 (config101 false) = true.
Proof. vm_compute. reflexivity. Qed.

(** The deviation test is made on doubles.  The doubles nearest to 1.05 and to
    0.05 differ by more than 1, and their difference rounds to 1: with
    deviation 1 the price has not moved. *)
Lemma priceMoved_is_rounded :
  let high := 4728779608739021 # 4503599627370496 in
  let low := 7205759403792794 # 144115188075855872 in
  (Config.deviation (config101 false) < high - low)%Q
  /\ number high = number (105 # 100) /\ number low = number (5 # 100)
  /\ priceMoved (tick101 high 0) (set_baselinePrice low state101) (config101 false) = false
  /\ priceMoved (tick101 (105 # 100) 0) (set_baselinePrice (5 # 100) state101)
       (config101 false) = false.
Proof. repeat apply conj; vm_compute; reflexivity. Qed.

Lemma price_move_cancels_and_rearms_witness :
  @reachable alwaysOpen scenario
  /\ getState (Tick.instrument_token moveTick) scenario = Some (1%nat, state101)
  /\ priceMoved moveTick state101 (config101 false) = true
  /\ timers (@processTick alwaysOpen (inactiveSymbols scenario) 20000 moveTick scenario)
     = <[nextId scenario :=
           {| tm_deadline := 20000 + Z.max 0 (Config.duration (config101 false) * 1000);
              tm_tick := moveTick; tm_config := config101 false; tm_state := 1%nat |}]>
         (cancelled (timerId state101) (timers scenario))
  /\ (forall id, timerId state101 = Some id ->
        timers (@processTick alwaysOpen (inactiveSymbols scenario) 20000 moveTick scenario)
          !! id = None)
  /\ store (@processTick alwaysOpen (inactiveSymbols scenario) 20000 moveTick scenario)
     = store scenario.
Proof.
  apply conj; [exact reachable_scenario|]. apply conj; [exact scenario_getState|].
  apply conj; [exact moveTick_moves|].
  destruct (@price_move_cancels_and_rearms alwaysOpen (inactiveSymbols scenario) 20000
              moveTick scenario (config101 false) 1%nat state101
              reachable_scenario scenario_configuration eq_refl scenario_getState eq_refl
              moveTick_moves)
    as (st' & _ & _ & _ & _ & _ & Hnew & Hold & _ & _ & _ & _ & _ & Hstore & _).
  exact (conj Hnew (conj Hold Hstore)).
Defined.

(** C5, counterexample: token 101 is armed at t = 0 (timer 2, due at 30 s) under
    a configuration that respects market hours; the session ends at 5 s; at
    10 s, before the timeout, a tick at 105 arrives, 5 away from the baseline
    100 with deviation 1.  The pending timer is cancelled but no fresh timer is
    armed, and the baseline stays 100. *)
Lemma price_move_while_session_inactive_does_not_rearm :
  getState 101 (watchingUntil 5000) = Some (1%nat, armed101)
  /\ (tm_deadline <$> timers (watchingUntil 5000) !! 2%nat) = Some 30000
  /\ priceMoved (tick101 (105 # 1) 10000) armed101 (config101 true) = true
  /\ timers closedMove = ∅
  /\ getState 101 closedMove = Some (1%nat, set_timerId None armed101).
Proof. repeat apply conj; vm_compute; reflexivity. Qed.

Lemma history_is_capped_and_pruned_when_eligible_witness :
  @reachable alwaysOpen scenario
  /\ forall l st, heap scenario !! l = Some st -> (length (priceHistory st) <= 100)%nat.
Proof.
  apply conj; [exact reachable_scenario|].
  exact (proj1 (@history_is_capped_and_pruned_when_eligible alwaysOpen scenario
                  reachable_scenario)).
Defined.

(** C6, counterexample: token 101 gets its first tick at t = 0 under a
    configuration that respects market hours; the session ends at 200 s and the
    next tick is processed at 400 s.  After that tick the retained history still
    holds the entry of t = 0, which is 400 s old. *)
Lemma history_keeps_old_entry_while_session_inactive :
  (priceHistory <$> (snd <$> getState 101 stale))
  = Some [{| price := 100 # 1; timestamp := 0 |}]
  /\ 0 < 400000 - 5 * 60 * 1000.
Proof. apply conj; vm_compute; reflexivity. Qed.

Lemma busy_configuration :
  configurations (watchingUntil 5000) !! Tick.instrument_token (tick101 (100 # 1) 1000)
  = Some (config101 true).
Proof. vm_compute. reflexivity. Qed.

Lemma session_check_is_throttled_oracle_is_not_witness :
  configurations (watchingUntil 5000) !! Tick.instrument_token (tick101 (100 # 1) 1000)
  = Some (config101 true)
  /\ effects (@processTick alwaysOpen ∅ 1000 (tick101 (100 # 1) 1000) (watchingUntil 5000))
     = (if Config.respect_market_hours (config101 true)
        then [SessionQueried (@getInstrumentName alwaysOpen (tick101 (100 # 1) 1000)) 1000]
        else []) ++ effects (watchingUntil 5000).
Proof.
  apply conj; [exact busy_configuration|].
  exact (proj1 (@session_check_is_throttled_oracle_is_not alwaysOpen ∅ 1000
                  (tick101 (100 # 1) 1000) (watchingUntil 5000) (config101 true)
                  busy_configuration eq_refl)).
Defined.

(** C7, counterexample: three ticks of token 101 are processed at 0 s, 1 s and
    2 s under a configuration that respects market hours; the session oracle is
    consulted for each of them, three times within two seconds. *)
Lemma oracle_consulted_on_every_tick :
  effects busy = [SessionQueried "NIFTY" 2000; SessionQueried "NIFTY" 1000;
                  SessionQueried "NIFTY" 0].
Proof. vm_compute. reflexivity. Qed.

(** ** State objects, timers and stored rows stay linked *)

Lemma keeps_refl w : keeps w w.
Proof. repeat split; auto. Qed.

Lemma keeps_trans w1 w2 w3 : keeps w1 w2 -> keeps w2 w3 -> keeps w1 w3.
Proof.
  intros (A1 & A2 & A3 & A4 & A5) (B1 & B2 & B3 & B4 & B5).
  repeat split; [congruence.. | lia | auto].
Qed.

Lemma Linked_shrink w w' :
  symbolStates w' = symbolStates w ->
  (forall id tm, timers w' !! id = Some tm -> timers w !! id = Some tm) ->
  store w' = store w -> (nextId w <= nextId w')%nat ->
  (forall l, is_Some (heap w !! l) -> is_Some (heap w' !! l)) ->
  Linked w -> Linked w'.
Proof.
  intros Hs Ht Hst Hn Hh [L1 L2 L3]. split.
  - intros token l Hl. rewrite Hs in Hl. eauto.
  - intros id tm Hid. rewrite Hs. eauto.
  - intros r Hr. rewrite Hst in Hr. destruct (L3 r Hr) as (i & Hi & Hlt).
    exists i. split; [done | lia].
Qed.

Lemma Linked_keeps w w' : keeps w w' -> Linked w -> Linked w'.
Proof.
  intros (A1 & A2 & A3 & A4 & A5). apply Linked_shrink; auto.
  intros id tm. by rewrite A2.
Qed.

Lemma keeps_modify l f w : keeps w (modify l f w).
Proof.
  repeat split; auto. intros l' Hl'. simpl. by apply lookup_alter_is_Some.
Qed.

Lemma keeps_stopAlertSound token w : keeps w (stopAlertSound token w).
Proof.
  unfold stopAlertSound. destruct (getState token w) as [[l st]|]; [|apply keeps_refl].
  destruct (oscillator st); [|apply keeps_refl].
  repeat split; auto. intros l' Hl'. simpl. by apply lookup_alter_is_Some.
Qed.

Lemma keeps_playAlertSound token config w : keeps w (playAlertSound token config w).
Proof.
  unfold playAlertSound.
  destruct (negb (Config.notification_sound config) || negb (audioContext w));
    [apply keeps_refl|].
  eapply keeps_trans; [apply (keeps_stopAlertSound token)|].
  set (w1 := stopAlertSound token w).
  set (w2 := upd_effects _ _).
  assert (keeps w1 w2) as Hk by (repeat split; simpl; auto).
  destruct (getState token w2) as [[l st]|]; [|done].
  eapply keeps_trans; [exact Hk | apply keeps_modify].
Qed.

Lemma keeps_showBrowserNotification alert config w :
  keeps w (showBrowserNotification alert config w).
Proof.
  unfold showBrowserNotification.
  destruct (negb (Config.notification_browser config)); [apply keeps_refl|].
  destruct (notificationPermission w); repeat split; auto.
Qed.

Lemma keeps_dropInactive snap token w : keeps w (dropInactive snap token w).
Proof. unfold dropInactive. case_decide; repeat split; auto. Qed.

Lemma Linked_clearTimeout id w : Linked w -> Linked (clearTimeout id w).
Proof.
  apply Linked_shrink; auto. intros id' tm Hid. simpl in Hid.
  by apply lookup_delete_Some in Hid as [_ ?].
Qed.

Lemma Linked_clearSymbolState token w : Inv w -> Linked w -> Linked (clearSymbolState token w).
Proof.
  intros HI HL. unfold clearSymbolState.
  set (w1 := match getState token w with Some _ => _ | None => _ end).
  assert (Linked w1 /\ symbolStates w1 = symbolStates w
          /\ forall id tm, timers w1 !! id = Some tm ->
               Tick.instrument_token (tm_tick tm) <> token) as (HL1 & Hs1 & Hno).
  { subst w1. destruct (getState token w) as [[l st]|] eqn:Hg.
    - apply getState_Some in Hg as [Hsym Hst].
      assert (forall id tm, timers w !! id = Some tm ->
                Tick.instrument_token (tm_tick tm) = token -> timerId st = Some id) as Hown.
      { intros id tm Hid Htok. pose proof (linked_timers w HL id tm Hid) as Hl.
        rewrite Htok, Hsym in Hl. injection Hl as Hl.
        destruct (inv_timers w HI id tm Hid) as [_ (st' & Hst' & Hti & _)].
        rewrite <- Hl in Hst'. congruence. }
      destruct (timerId st) as [id0|] eqn:Hid0.
      + split; [by apply Linked_clearTimeout|]. split; [done|].
        intros id tm Hid Htok. simpl in Hid. apply lookup_delete_Some in Hid as [Hne Hid].
        specialize (Hown id tm Hid Htok). congruence.
      + split; [done|]. split; [done|]. intros id tm Hid Htok.
        by specialize (Hown id tm Hid Htok).
    - split; [done|]. split; [done|]. intros id tm Hid Htok.
      pose proof (linked_timers w HL id tm Hid) as Hl. rewrite Htok in Hl.
      destruct (linked_states w HL token _ Hl) as [st Hst].
      assert (getState token w = Some (tm_state tm, st)) by (by apply getState_Some).
      congruence. }
  pose proof (keeps_stopAlertSound token w1) as (K1 & K2 & K3 & K4 & K5).
  pose proof (Linked_keeps _ _ (keeps_stopAlertSound token w1) HL1) as [L1 L2 L3].
  set (w2 := stopAlertSound token w1) in *.
  split; simpl.
  - intros t l Hl. apply lookup_delete_Some in Hl as [_ Hl]. eauto.
  - intros id tm Hid. rewrite lookup_delete_ne; [eauto|].
    intros Heq. rewrite K2 in Hid. by apply (Hno id tm Hid).
  - done.
Qed.

Lemma resetInactivityTimer_timers tick config l now w st id tm :
  heap w !! l = Some st ->
  timers (resetInactivityTimer tick config l now w) !! id = Some tm ->
  timers w !! id = Some tm \/ (tm_tick tm = tick /\ tm_state tm = l).
Proof.
  intros Hst Hid.
  destruct (resetInactivityTimer_spec tick config l now w st Hst) as (_ & Rt & _).
  rewrite Rt in Hid. apply lookup_insert_Some in Hid as [[_ <-]|[_ Hid]]; [by right|].
  left. unfold cancelled in Hid. destruct (timerId st); [|done].
  by apply lookup_delete_Some in Hid as [_ ?].
Qed.

Lemma Linked_resetInactivityTimer tick config l now w :
  symbolStates w !! Tick.instrument_token tick = Some l ->
  Linked w -> Linked (resetInactivityTimer tick config l now w).
Proof.
  intros Hsym HL. destruct (linked_states w HL _ _ Hsym) as [st Hst].
  destruct (resetInactivityTimer_spec tick config l now w st Hst)
    as (Rh & Rt & Rn & Rs & _).
  destruct HL as [L1 L2 L3]. split.
  - intros t l' Hl'. rewrite Rs in Hl'. rewrite Rh. apply lookup_insert_is_Some'. eauto.
  - intros id tm Hid. rewrite Rs.
    destruct (resetInactivityTimer_timers _ _ _ _ _ _ _ _ Hst Hid) as [Hold|[-> ->]]; eauto.
  - intros r Hr.
    assert (store (resetInactivityTimer tick config l now w) = store w) as Hstore.
    { unfold resetInactivityTimer. rewrite Hst. by destruct (timerId st). }
    rewrite Hstore in Hr. destruct (L3 r Hr) as (i & Hi & Hlt). exists i. split; [done|].
    rewrite Rn. lia.
Qed.

Lemma Linked_rearm snap tick config l now w :
  symbolStates w !! Tick.instrument_token tick = Some l ->
  Linked w -> Linked (rearm snap tick config l now w).
Proof.
  intros Hsym HL. unfold rearm.
  eapply Linked_keeps; [apply keeps_stopAlertSound|].
  eapply Linked_keeps; [apply keeps_dropInactive|].
  apply Linked_resetInactivityTimer; [done|].
  eapply Linked_keeps; [apply keeps_modify | done].
Qed.

Lemma Linked_suspend token l w : Linked w -> Linked (suspend token l w).
Proof.
  intros HL. unfold suspend.
  pose proof (Linked_keeps _ _ (keeps_stopAlertSound token w) HL) as HL1.
  destruct (heap (stopAlertSound token w) !! l) as [st|]; [|done].
  destruct (timerId st); [|done].
  eapply Linked_keeps; [apply keeps_modify|]. by apply Linked_clearTimeout.
Qed.

Lemma Linked_watchPrice snap tick config l now w :
  symbolStates w !! Tick.instrument_token tick = Some l ->
  Linked w -> Linked (watchPrice snap tick config l now w).
Proof.
  intros Hsym HL. unfold watchPrice.
  set (w1 := modify l _ w). set (w2 := modify l _ w1).
  assert (Linked w2) as HL2.
  { eapply Linked_keeps; [apply keeps_modify|].
    eapply Linked_keeps; [apply keeps_modify | done]. }
  destruct (heap w2 !! l); [|done].
  destruct (priceMoved tick s config); [|done]. by apply Linked_rearm.
Qed.

Lemma Linked_processExisting snap tick config shouldAlert l state now w :
  symbolStates w !! Tick.instrument_token tick = Some l ->
  Linked w -> Linked (processExisting snap tick config shouldAlert l state now w).
Proof.
  intros Hsym HL. unfold processExisting.
  set (due := now - lastMarketStatusCheck state >? 60000).
  set (w1 := if due then _ else w).
  assert (Linked w1 /\ symbolStates w1 = symbolStates w) as [HL1 Hs1].
  { subst w1. destruct due; [|done]. split; [|done].
    eapply Linked_keeps; [apply keeps_modify | done]. }
  destruct (due && negb (Bool.eqb (wasMarketOpen state) shouldAlert)).
  - set (w2 := modify l _ w1).
    assert (Linked w2) as HL2 by (eapply Linked_keeps; [apply keeps_modify | done]).
    destruct shouldAlert; [apply Linked_rearm; [by simpl; rewrite Hs1 | done]|].
    by apply Linked_suspend.
  - destruct (negb shouldAlert && Config.respect_market_hours config).
    + by apply Linked_suspend.
    + apply Linked_watchPrice; [by rewrite Hs1 | done].
Qed.

Section LinkedSteps.
Context `{MarketTimings}.

Lemma keeps_noteSessionQuery config name now w : keeps w (noteSessionQuery config name now w).
Proof.
  unfold noteSessionQuery. destruct (Config.respect_market_hours config); repeat split; auto.
Qed.

Lemma Linked_processTick snap now tick w :
  Inv w -> Linked w -> Linked (processTick snap now tick w).
Proof.
  intros HI HL. unfold processTick.
  destruct (configurations w !! Tick.instrument_token tick) as [config|];
    [|by apply Linked_clearSymbolState].
  destruct (negb (Config.enabled config)); [by apply Linked_clearSymbolState|].
  pose proof (Linked_keeps _ _ (keeps_noteSessionQuery config (getInstrumentName tick) now w) HL)
    as HL0.
  set (w0 := noteSessionQuery config (getInstrumentName tick) now w) in *.
  destruct (getState (Tick.instrument_token tick) w0) as [[l state]|] eqn:Hg.
  - apply getState_Some in Hg as [Hsym Hst]. by apply Linked_processExisting.
  - set (state := Build_SymbolState _ _ _ _ _ _ _).
    set (w1 := upd_symbolStates _ _).
    assert (symbolStates w0 !! Tick.instrument_token tick = None) as Hnone.
    { destruct (symbolStates w0 !! Tick.instrument_token tick) as [l|] eqn:Hl; [|done].
      destruct (linked_states w0 HL0 _ _ Hl) as [st Hst].
      assert (getState (Tick.instrument_token tick) w0 = Some (l, st))
        by (by apply getState_Some).
      congruence. }
    assert (Linked w1) as HL1.
    { destruct HL0 as [L1 L2 L3]. split; simpl.
      - intros t l Hl. apply lookup_insert_is_Some'.
        apply lookup_insert_Some in Hl as [[_ <-]|[_ Hl]]; [by left | right; eauto].
      - intros id tm Hid. rewrite lookup_insert_ne; [eauto|].
        intros Heq. specialize (L2 id tm Hid). rewrite <- Heq in L2. congruence.
      - intros r Hr. destruct (L3 r Hr) as (i & Hi & Hlt). exists i. split; [done | lia]. }
    destruct (shouldAlertNow _ _ _); [|done].
    apply Linked_resetInactivityTimer; [|done]. simpl. apply lookup_insert_eq.
Qed.

Lemma Linked_timeout id now w : Inv w -> Linked w -> Linked (timeout id now w).
Proof.
  intros HI HL. unfold timeout. destruct (timers w !! id) as [tm|] eqn:Hid; [|done].
  pose proof (Inv_clearTimeout id w HI) as HI1.
  pose proof (Linked_clearTimeout id w HL) as HL1. unfold clearTimeout in HI1, HL1.
  set (w1 := upd_timers (delete id) w) in *.
  unfold timerCallback.
  pose proof (Inv_noteSessionQuery (tm_config tm) (getInstrumentName (tm_tick tm)) now w1 HI1)
    as HI2.
  pose proof (Linked_keeps _ _ (keeps_noteSessionQuery (tm_config tm)
                (getInstrumentName (tm_tick tm)) now w1) HL1) as HL2.
  set (w2 := noteSessionQuery _ _ _ w1) in *.
  destruct (shouldAlertNow _ _ _).
  - unfold triggerAlert. destruct (user w2); [|done].
    destruct (heap w2 !! tm_state tm); [|done].
    revert HL2. apply Linked_keeps. repeat split; auto.
  - apply Linked_clearSymbolState; [by apply Inv_stopAlertSound|].
    eapply Linked_keeps; [apply keeps_stopAlertSound | done].
Qed.

Lemma Linked_logAlertSettled i ok now w : Linked w -> Linked (logAlertSettled i ok now w).
Proof.
  intros HL. unfold logAlertSettled.
  destruct (pendingLogs w !! i) as [pa|]; [|done].
  set (w0 := upd_pendingLogs (delete i) w).
  assert (Linked w0) as HL0 by (revert HL; apply Linked_keeps; repeat split; auto).
  unfold triggerAlert_resume, AlertService_logAlert.
  destruct ok.
  - set (w1 := upd_store _ _).
    assert (Linked w1) as HL1.
    { destruct HL0 as [L1 L2 L3]. subst w1. split; simpl; [done..|].
      intros r Hr. apply elem_of_app in Hr as [Hr|Hr].
      - destruct (L3 r Hr) as (j & Hj & Hlt). exists j. split; [done|]. simpl in Hlt. lia.
      - apply list_elem_of_singleton in Hr as ->. exists (nextId w). split; [done | lia]. }
    set (w3 := upd_inactiveSymbols _ _).
    assert (Linked w3) as HL3 by (revert HL1; apply Linked_keeps; repeat split; simpl; auto).
    set (w4 := playAlertSound _ _ w3).
    assert (Linked w4) as HL4 by (eapply Linked_keeps; [apply keeps_playAlertSound | done]).
    set (w5 := showBrowserNotification _ _ _).
    assert (Linked w5) as HL5.
    { eapply Linked_keeps; [apply keeps_showBrowserNotification|].
      revert HL4. apply Linked_keeps. repeat split; simpl; auto. }
    destruct (heap w5 !! pa_state pa); [|done].
    revert HL5. apply Linked_keeps. repeat split; auto.
  - revert HL0. apply Linked_keeps. repeat split; auto.
Qed.

Lemma Linked_step now ev w : Inv w -> Linked w -> Linked (step now ev w).
Proof.
  intros HI HL. destruct ev; simpl.
  - unfold processTicks. destruct (user w); [|done]. destruct (loading w); [done|].
    generalize (inactiveSymbols w). intros snap.
    revert w HI HL. induction (latestTicks batch) as [|kv m IH]; intros w HI HL; simpl; [done|].
    apply IH; [by apply Inv_processTick | by apply Linked_processTick].
  - by apply Linked_timeout.
  - by apply Linked_logAlertSettled.
  - unfold permissionSettled. destruct (permissionRequests w !! i) as [[alert config]|]; [|done].
    set (w1 := upd_notificationPermission _ _).
    assert (Linked w1) as HL1 by (revert HL; apply Linked_keeps; repeat split; auto).
    destruct permission; try done.
    eapply Linked_keeps; [apply keeps_showBrowserNotification | done].
  - unfold updateConfiguration, AlertService_saveAlertConfig.
    destruct (user w); [|done]. destruct ok; simpl.
    + apply Linked_clearSymbolState.
      * revert HI. apply Inv_frame; simpl; auto with lia.
      * revert HL. apply Linked_keeps. repeat split; simpl; auto.
    + revert HL. apply Linked_keeps. repeat split; auto.
  - unfold acknowledgeAlert, AlertService_acknowledgeAlert.
    destruct (user w); [|done]. destruct ok; simpl.
    + destruct HL as [L1 L2 L3]. split; simpl; [done..|].
      intros r Hr. apply list_elem_of_In, in_map_iff in Hr as (r0 & <- & Hr0).
      apply list_elem_of_In, L3 in Hr0 as (j & Hj & Hlt). exists j. split; [|done].
      by destruct (has_id alertId r0 && _).
    + revert HL. apply Linked_keeps. repeat split; auto.
  - unfold clearAllAlerts, AlertService_acknowledgeAllAlerts.
    destruct (user w) as [uid|]; [|done]. destruct ok.
    + set (w2 := upd_alerts _ _).
      assert (Linked w2) as HL2.
      { destruct HL as [L1 L2 L3]. split; simpl; [done..|].
        intros r Hr. apply list_elem_of_In, in_map_iff in Hr as (r0 & <- & Hr0).
        apply list_elem_of_In, L3 in Hr0 as (j & Hj & Hlt). exists j. split; [|done].
        by destruct (String.eqb (Log.user_id r0) uid && _). }
      set (tokens := map fst (map_to_list (symbolStates w2))).
      assert (forall ts w', Linked w' ->
                Linked (fold_left (fun w' token => stopAlertSound token w') ts w')) as Hall.
      { clear. induction ts as [|t ts IH]; intros w' HL'; simpl; [done|].
        apply IH. eapply Linked_keeps; [apply keeps_stopAlertSound | done]. }
      specialize (Hall tokens w2 HL2). revert Hall. apply Linked_keeps.
      repeat split; auto.
    + revert HL. apply Linked_keeps. repeat split; auto.
  - unfold configurationsLoaded. destruct (user w); [|done].
    revert HL. apply Linked_keeps. repeat split; auto.
  - unfold recentAlertsLoaded. destruct (user w); [|done].
    revert HL. apply Linked_keeps. repeat split; auto.
  - revert HL. apply Linked_keeps. repeat split; auto.
Qed.

Lemma reachable_Linked w : reachable w -> Linked w.
Proof.
  induction 1 as [uid p | now ev w Hr IH | snap now tick w Hr IH].
  - split; simpl.
    + intros t l Hl. by rewrite lookup_empty in Hl.
    + intros id tm Hid. by rewrite lookup_empty in Hid.
    + intros r Hr. by apply elem_of_nil in Hr.
  - apply Linked_step; [by apply reachable_Inv | done].
  - apply Linked_processTick; [by apply reachable_Inv | done].
Qed.

End LinkedSteps.


(** ** State objects and timer ids are never shared *)

Lemma tame_refl w : tame w w.
Proof. split; [done|]. intros l st Hl. exists st. auto. Qed.

Lemma tame_trans w1 w2 w3 : tame w1 w2 -> tame w2 w3 -> tame w1 w3.
Proof.
  intros [A1 A2] [B1 B2]. split; [auto|].
  intros l st3 H3. destruct (B2 l st3 H3) as (st2 & H2 & Ht2).
  destruct (A2 l st2 H2) as (st1 & H1 & Ht1). exists st1. split; [done|].
  destruct Ht2 as [?|Ht2]; [by left|]. rewrite Ht2. exact Ht1.
Qed.

Lemma tame_same w w' : symbolStates w' = symbolStates w -> heap w' = heap w -> tame w w'.
Proof. intros Hs Hh. unfold tame. rewrite Hs, Hh. apply tame_refl. Qed.

Lemma Owned_tame w w' : tame w w' -> Owned w -> Owned w'.
Proof.
  intros [T1 T2] [O1 O2]. split.
  - intros t1 t2 l H1 H2. eauto.
  - intros l1 l2 st1 st2 id H1 H2 Hi1 Hi2.
    destruct (T2 l1 st1 H1) as (s1 & Hs1 & [?|E1]); [congruence|].
    destruct (T2 l2 st2 H2) as (s2 & Hs2 & [?|E2]); [congruence|].
    eapply (O2 l1 l2 s1 s2 id); congruence.
Qed.

Lemma Owned_same w w' :
  symbolStates w' = symbolStates w -> heap w' = heap w -> Owned w -> Owned w'.
Proof. intros Hs Hh. apply Owned_tame. by apply tame_same. Qed.

Ltac owned_same :=
  match goal with
  | HO : Owned ?w |- Owned ?w' => apply (Owned_same w w'); [done | done | exact HO]
  end.

Lemma tame_modify l f w :
  (forall st, timerId (f st) = None \/ timerId (f st) = timerId st) -> tame w (modify l f w).
Proof.
  intros Hf. split; [done|]. intros l' st' Hl'. simpl in Hl'.
  apply lookup_alter_Some in Hl' as [(-> & st & Hst & ->)|[_ Hl']]; eauto.
Qed.

Lemma tame_stopAlertSound token w : tame w (stopAlertSound token w).
Proof.
  unfold stopAlertSound. destruct (getState token w) as [[l st]|]; [|apply tame_refl].
  destruct (oscillator st); [|apply tame_refl].
  eapply tame_trans; [|apply tame_modify; by right]. by apply tame_same.
Qed.

Lemma tame_playAlertSound token config w : tame w (playAlertSound token config w).
Proof.
  unfold playAlertSound.
  destruct (negb (Config.notification_sound config) || negb (audioContext w));
    [apply tame_refl|].
  eapply tame_trans; [apply (tame_stopAlertSound token)|].
  set (w1 := stopAlertSound token w).
  set (w2 := upd_effects _ _).
  assert (tame w1 w2) as Hk by (by apply tame_same).
  destruct (getState token w2) as [[l st]|]; [|done].
  eapply tame_trans; [exact Hk | apply tame_modify; by right].
Qed.

Lemma tame_showBrowserNotification alert config w :
  tame w (showBrowserNotification alert config w).
Proof.
  unfold showBrowserNotification.
  destruct (negb (Config.notification_browser config)); [apply tame_refl|].
  destruct (notificationPermission w); by apply tame_same.
Qed.

Lemma tame_dropInactive snap token w : tame w (dropInactive snap token w).
Proof. unfold dropInactive. case_decide; by apply tame_same. Qed.

Lemma tame_clearSymbolState token w : tame w (clearSymbolState token w).
Proof.
  unfold clearSymbolState.
  set (w1 := match getState token w with Some _ => _ | None => _ end).
  assert (tame w w1) as H1.
  { subst w1. destruct (getState token w) as [[l st]|]; [|apply tame_refl].
    destruct (timerId st); [by apply tame_same | apply tame_refl]. }
  eapply tame_trans; [exact H1|].
  eapply tame_trans; [apply (tame_stopAlertSound token)|].
  split; simpl.
  - intros t l Hl. by apply lookup_delete_Some in Hl as [_ ?].
  - intros l st Hl. exists st. auto.
Qed.

Lemma tame_suspend token l w : tame w (suspend token l w).
Proof.
  unfold suspend. pose proof (tame_stopAlertSound token w) as H1.
  destruct (heap (stopAlertSound token w) !! l) as [st|]; [|done].
  destruct (timerId st); [|done].
  eapply tame_trans; [exact H1|].
  eapply tame_trans; [|apply tame_modify; by left]. by apply tame_same.
Qed.

Lemma Owned_resetInactivityTimer tick config l now w :
  (forall l' st' id, heap w !! l' = Some st' -> timerId st' = Some id -> (id < nextId w)%nat) ->
  Owned w -> Owned (resetInactivityTimer tick config l now w).
Proof.
  intros Hold [O1 O2]. destruct (heap w !! l) as [st|] eqn:Hst.
  - destruct (resetInactivityTimer_spec tick config l now w st Hst) as (Rh & _ & _ & Rs & _).
    split.
    + intros t1 t2 l'. rewrite Rs. apply O1.
    + intros l1 l2 st1 st2 id H1 H2 Hi1 Hi2. rewrite Rh in H1, H2.
      apply lookup_insert_Some in H1 as [[<- <-]|[Hne1 H1]];
        apply lookup_insert_Some in H2 as [[<- <-]|[Hne2 H2]].
      * done.
      * simpl in Hi1. injection Hi1 as <-. specialize (Hold l2 st2 _ H2 Hi2). lia.
      * simpl in Hi2. injection Hi2 as <-. specialize (Hold l1 st1 _ H1 Hi1). lia.
      * by eapply O2.
  - unfold resetInactivityTimer. by rewrite Hst.
Qed.

Lemma Inv_bounded w l st id :
  Inv w -> heap w !! l = Some st -> timerId st = Some id -> (id < nextId w)%nat.
Proof. intros HI Hl Hid. destruct (inv_heap w HI l st Hl) as [_ [_ Hlt]]. auto. Qed.

Lemma Owned_rearm snap tick config l now w :
  Inv w -> Owned w -> Owned (rearm snap tick config l now w).
Proof.
  intros HI HO. unfold rearm.
  eapply Owned_tame; [apply tame_stopAlertSound|].
  eapply Owned_tame; [apply tame_dropInactive|].
  apply Owned_resetInactivityTimer.
  - intros l' st' id Hl' Hid. simpl in Hl'.
    apply lookup_alter_Some in Hl' as [(-> & s0 & Hs0 & ->)|[_ Hl']];
      by eapply (Inv_bounded w).
  - eapply Owned_tame; [apply tame_modify; by right | done].
Qed.

Lemma Owned_watchPrice snap tick config l now w :
  Inv w -> Owned w -> Owned (watchPrice snap tick config l now w).
Proof.
  intros HI HO. pose proof (Inv_watchPrice snap tick config l now w HI) as _.
  unfold watchPrice. rewrite modify_modify.
  set (f := _ ∘ _). set (w2 := modify l f w).
  assert (Owned w2) as HO2 by (eapply Owned_tame; [apply tame_modify; by right | done]).
  destruct (heap w2 !! l) as [st|]; [|done].
  destruct (priceMoved tick st config); [|done].
  unfold rearm.
  eapply Owned_tame; [apply tame_stopAlertSound|].
  eapply Owned_tame; [apply tame_dropInactive|].
  apply Owned_resetInactivityTimer.
  - intros l' st' id Hl' Hid. subst w2. rewrite modify_modify in Hl'. simpl in Hl'.
    apply lookup_alter_Some in Hl' as [(-> & s0 & Hs0 & ->)|[_ Hl']];
      by eapply (Inv_bounded w).
  - eapply Owned_tame; [apply tame_modify; by right | done].
Qed.

Lemma Owned_processExisting snap tick config shouldAlert l state now w :
  heap w !! l = Some state -> Inv w -> Owned w ->
  Owned (processExisting snap tick config shouldAlert l state now w).
Proof.
  intros Hst HI HO. unfold processExisting.
  set (due := now - lastMarketStatusCheck state >? 60000).
  set (w1 := if due then _ else w).
  assert (Inv w1 /\ Owned w1) as [HI1 HO1].
  { subst w1. destruct due; [|done]. split.
    - apply Inv_modify; [done| |done]. intros st' Hst'. simpl.
      by destruct (inv_heap w HI l st' Hst') as [_ [? _]].
    - eapply Owned_tame; [apply tame_modify; by right | done]. }
  destruct (due && negb (Bool.eqb (wasMarketOpen state) shouldAlert)).
  - set (w2 := modify l _ w1).
    assert (Inv w2 /\ Owned w2) as [HI2 HO2].
    { split.
      - apply Inv_modify; [done| |done]. intros st' Hst'. simpl.
        by destruct (inv_heap w1 HI1 l st' Hst') as [_ [? _]].
      - eapply Owned_tame; [apply tame_modify; by right | done]. }
    destruct shouldAlert; [by apply Owned_rearm|].
    eapply Owned_tame; [apply tame_suspend | done].
  - destruct (negb shouldAlert && Config.respect_market_hours config).
    + eapply Owned_tame; [apply tame_suspend | done].
    + by apply Owned_watchPrice.
Qed.

Section OwnedSteps.
Context `{MarketTimings}.

Lemma tame_noteSessionQuery config name now w : tame w (noteSessionQuery config name now w).
Proof.
  unfold noteSessionQuery. destruct (Config.respect_market_hours config);
    [by apply tame_same | apply tame_refl].
Qed.

Lemma Owned_processTick snap now tick w :
  Inv w -> Linked w -> Owned w -> Owned (processTick snap now tick w).
Proof.
  intros HI HL HO. unfold processTick.
  destruct (configurations w !! Tick.instrument_token tick) as [config|];
    [|eapply Owned_tame; [apply tame_clearSymbolState | done]].
  destruct (negb (Config.enabled config));
    [eapply Owned_tame; [apply tame_clearSymbolState | done]|].
  pose proof (Inv_noteSessionQuery config (getInstrumentName tick) now w HI) as HI0.
  pose proof (Linked_keeps _ _ (keeps_noteSessionQuery config (getInstrumentName tick) now w) HL)
    as HL0.
  pose proof (Owned_tame _ _ (tame_noteSessionQuery config (getInstrumentName tick) now w) HO)
    as HO0.
  set (w0 := noteSessionQuery config (getInstrumentName tick) now w) in *.
  destruct (getState (Tick.instrument_token tick) w0) as [[l state]|] eqn:Hg.
  - apply getState_Some in Hg as [Hsym Hst]. by apply Owned_processExisting.
  - set (state := Build_SymbolState _ _ _ _ _ _ _).
    set (w1 := upd_symbolStates _ _).
    assert (forall t l, symbolStates w0 !! t = Some l -> (l < nextId w0)%nat) as Hlt.
    { intros t l Hl. destruct (linked_states w0 HL0 t l Hl) as [st Hst].
      by destruct (inv_heap w0 HI0 l st Hst). }
    assert (Owned w1) as HO1.
    { destruct HO0 as [O1 O2]. split; simpl.
      - intros t1 t2 l H1 H2.
        apply lookup_insert_Some in H1 as [[<- <-]|[Hne1 H1]];
          apply lookup_insert_Some in H2 as [[<- E2]|[Hne2 H2]]; try done.
        + specialize (Hlt _ _ H2). lia.
        + specialize (Hlt _ _ H1). lia.
        + by eapply O1.
      - intros l1 l2 st1 st2 id H1 H2 Hi1 Hi2.
        apply lookup_insert_Some in H1 as [[<- <-]|[Hne1 H1]]; [done|].
        apply lookup_insert_Some in H2 as [[<- <-]|[Hne2 H2]]; [done|].
        by eapply O2. }
    destruct (shouldAlertNow _ _ _); [|done].
    apply Owned_resetInactivityTimer; [|done].
    intros l' st' id Hl' Hid. simpl in Hl'.
    apply lookup_insert_Some in Hl' as [[<- <-]|[_ Hl']]; [done|].
    pose proof (Inv_bounded w0 _ _ _ HI0 Hl' Hid). simpl. lia.
Qed.

Lemma Owned_timeout id now w : Owned w -> Owned (timeout id now w).
Proof.
  intros HO. unfold timeout. destruct (timers w !! id) as [tm|]; [|done].
  set (w1 := upd_timers (delete id) w).
  assert (Owned w1) as HO1 by owned_same.
  unfold timerCallback.
  pose proof (Owned_tame _ _ (tame_noteSessionQuery (tm_config tm)
                (getInstrumentName (tm_tick tm)) now w1) HO1) as HO2.
  set (w2 := noteSessionQuery _ _ _ w1) in *.
  destruct (shouldAlertNow _ _ _).
  - unfold triggerAlert. destruct (user w2); [|done].
    destruct (heap w2 !! tm_state tm); [|done].
    owned_same.
  - eapply Owned_tame; [apply tame_clearSymbolState|].
    eapply Owned_tame; [apply tame_stopAlertSound | done].
Qed.

Lemma Owned_logAlertSettled i ok now w : Owned w -> Owned (logAlertSettled i ok now w).
Proof.
  intros HO. unfold logAlertSettled.
  destruct (pendingLogs w !! i) as [pa|]; [|done].
  set (w0 := upd_pendingLogs (delete i) w).
  assert (Owned w0) as HO0 by owned_same.
  unfold triggerAlert_resume, AlertService_logAlert.
  destruct ok.
  - set (w3 := upd_inactiveSymbols _ _).
    assert (Owned w3) as HO3 by owned_same.
    set (w4 := playAlertSound _ _ w3).
    assert (Owned w4) as HO4 by (eapply Owned_tame; [apply tame_playAlertSound | done]).
    set (w5 := showBrowserNotification _ _ _).
    assert (Owned w5) as HO5.
    { eapply Owned_tame; [apply tame_showBrowserNotification|]. owned_same. }
    destruct (heap w5 !! pa_state pa); [|done].
    owned_same.
  - owned_same.
Qed.

Lemma Owned_step now ev w : Inv w -> Linked w -> Owned w -> Owned (step now ev w).
Proof.
  intros HI HL HO. destruct ev; simpl.
  - unfold processTicks. destruct (user w); [|done]. destruct (loading w); [done|].
    generalize (inactiveSymbols w). intros snap.
    revert w HI HL HO.
    induction (latestTicks batch) as [|kv m IH]; intros w HI HL HO; simpl; [done|].
    apply IH; [by apply Inv_processTick | by apply Linked_processTick
              | by apply Owned_processTick].
  - by apply Owned_timeout.
  - by apply Owned_logAlertSettled.
  - unfold permissionSettled. destruct (permissionRequests w !! i) as [[alert config]|]; [|done].
    set (w1 := upd_notificationPermission _ _).
    assert (Owned w1) as HO1 by owned_same.
    destruct permission; try done.
    eapply Owned_tame; [apply tame_showBrowserNotification | done].
  - unfold updateConfiguration, AlertService_saveAlertConfig.
    destruct (user w); [|done]. destruct ok; simpl.
    + eapply Owned_tame; [apply tame_clearSymbolState|].
      owned_same.
    + owned_same.
  - unfold acknowledgeAlert, AlertService_acknowledgeAlert.
    destruct (user w); [|done]. destruct ok; simpl;
      owned_same.
  - unfold clearAllAlerts, AlertService_acknowledgeAllAlerts.
    destruct (user w) as [uid|]; [|done]. destruct ok.
    + set (w2 := upd_alerts _ _).
      assert (Owned w2) as HO2 by owned_same.
      set (tokens := map fst (map_to_list (symbolStates w2))).
      assert (forall ts w', Owned w' ->
                Owned (fold_left (fun w' token => stopAlertSound token w') ts w')) as Hall.
      { clear. induction ts as [|t ts IH]; intros w' HO'; simpl; [done|].
        apply IH. eapply Owned_tame; [apply tame_stopAlertSound | done]. }
      specialize (Hall tokens w2 HO2).
      owned_same.
    + owned_same.
  - unfold configurationsLoaded. destruct (user w); [|done].
    owned_same.
  - unfold recentAlertsLoaded. destruct (user w); [|done].
    owned_same.
  - owned_same.
Qed.

Lemma reachable_Owned w : reachable w -> Owned w.
Proof.
  induction 1 as [uid p | now ev w Hr IH | snap now tick w Hr IH].
  - split; simpl.
    + intros t1 t2 l Hl. by rewrite lookup_empty in Hl.
    + intros l1 l2 st1 st2 id Hl. by rewrite lookup_empty in Hl.
  - apply Owned_step; [by apply reachable_Inv | by apply reachable_Linked | done].
  - apply Owned_processTick; [by apply reachable_Inv | by apply reachable_Linked | done].
Qed.

End OwnedSteps.


(** ** Clearing the state of an instrument *)

Lemma world_upd_id f g w :
  f (inactiveSymbols w) = inactiveSymbols w -> g (symbolStates w) = symbolStates w ->
  upd_inactiveSymbols f (upd_symbolStates g w) = w.
Proof. intros Hf Hg. destruct w. unfold upd_inactiveSymbols, upd_symbolStates. simpl in *. congruence. Qed.

Lemma getState_None_stop token w : getState token w = None -> stopAlertSound token w = w.
Proof. intros Hg. unfold stopAlertSound. by rewrite Hg. Qed.

Lemma clearSymbolState_gone token w :
  getState token (clearSymbolState token w) = None
  /\ symbolStates (clearSymbolState token w) = delete token (symbolStates w)
  /\ (token ∉ inactiveSymbols (clearSymbolState token w))
  /\ pendingLogs (clearSymbolState token w) = pendingLogs w
  /\ alerts (clearSymbolState token w) = alerts w
  /\ effects (clearSymbolState token w) = effects w
  /\ configurations (clearSymbolState token w) = configurations w
  /\ nextId (clearSymbolState token w) = nextId w
  /\ (forall id tm, timers (clearSymbolState token w) !! id = Some tm -> timers w !! id = Some tm).
Proof.
  unfold clearSymbolState.
  set (w1 := match getState token w with Some _ => _ | None => _ end).
  assert (symbolStates w1 = symbolStates w /\ inactiveSymbols w1 = inactiveSymbols w
          /\ pendingLogs w1 = pendingLogs w /\ alerts w1 = alerts w /\ effects w1 = effects w
          /\ configurations w1 = configurations w /\ nextId w1 = nextId w
          /\ (forall id tm, timers w1 !! id = Some tm -> timers w !! id = Some tm))
    as (H1 & H2 & H3 & H4 & H5 & H6 & H7 & H8).
  { subst w1. destruct (getState token w) as [[l st]|]; [|done].
    destruct (timerId st); [|done]. repeat split; try done.
    intros id tm Hid. simpl in Hid. by apply lookup_delete_Some in Hid as [_ ?]. }
  destruct (stopAlertSound_rest token w1) as (Ss & St & Si & Sl & Sa & Se & Sn).
  assert (configurations (stopAlertSound token w1) = configurations w1) as Sc.
  { unfold stopAlertSound. destruct (getState token w1) as [[l st]|]; [|done].
    by destruct (oscillator st). }
  set (w2 := stopAlertSound token w1) in *.
  simpl. rewrite Ss, Si, Sl, Sa, Se, Sn, Sc, H1, H2, H3, H4, H5, H6, H7.
  split; [|split; [done|split; [|repeat split; try done]]].
  - unfold getState. simpl. by rewrite Ss, H1, lookup_delete_eq.
  - case_decide as Hin; [|done]. intros Hd. apply elem_of_difference in Hd as [_ Hn].
    apply Hn. by apply elem_of_singleton.
  - intros id tm Hid. rewrite St in Hid. by apply H8.
Qed.

Lemma clearSymbolState_idem token w :
  clearSymbolState token (clearSymbolState token w) = clearSymbolState token w.
Proof.
  destruct (clearSymbolState_gone token w) as (Hg & Hs & Hi & _).
  set (w' := clearSymbolState token w) in *.
  unfold clearSymbolState at 1. rewrite Hg. rewrite (getState_None_stop token w' Hg).
  apply world_upd_id.
  - by rewrite decide_False.
  - rewrite Hs. apply map_eq. intros k. destruct (decide (token = k)) as [<-|Hne].
    + by rewrite !lookup_delete_eq.
    + by rewrite !lookup_delete_ne.
Qed.

Lemma clearSymbolState_sound token w l st o :
  getState token w = Some (l, st) -> oscillator st = Some o ->
  o ∉ playing (clearSymbolState token w).
Proof.
  intros Hg Ho. unfold clearSymbolState. simpl.
  set (w1 := match getState token w with Some _ => _ | None => _ end).
  apply getState_Some in Hg as [Hsym Hst].
  assert (symbolStates w1 !! token = Some l /\ heap w1 !! l = Some st) as [Hs1 Hh1].
  { subst w1. unfold getState. rewrite Hsym, Hst. by destruct (timerId st). }
  by eapply stopAlertSound_playing.
Qed.

Section Teardown.
Context `{MarketTimings}.

(** X1: [clearSymbolState(token)], in a reachable state, leaves no state object
    for the token, removes the token from [symbolStates] and from the inactive
    set, leaves only timers that were pending before and belong to other
    instruments, stops the oscillator the object held, and doing it twice is
    doing it once. *)
Theorem clearSymbolState_destroys (token : Z) (w : World) :
  reachable w ->
  getState token (clearSymbolState token w) = None
  /\ symbolStates (clearSymbolState token w) = delete token (symbolStates w)
  /\ (token ∉ inactiveSymbols (clearSymbolState token w))
  /\ (forall id tm, timers (clearSymbolState token w) !! id = Some tm ->
        timers w !! id = Some tm /\ Tick.instrument_token (tm_tick tm) <> token)
  /\ (forall l st o, getState token w = Some (l, st) -> oscillator st = Some o ->
        o ∉ playing (clearSymbolState token w))
  /\ clearSymbolState token (clearSymbolState token w) = clearSymbolState token w.
Proof.
  intros Hr.
  destruct (clearSymbolState_gone token w) as (Hg & Hs & Hi & _ & _ & _ & _ & _ & Ht).
  split; [done|]. split; [done|]. split; [done|]. split; [|split].
  - intros id tm Hid. split; [by apply Ht|].
    pose proof (Linked_clearSymbolState token w (reachable_Inv w Hr) (reachable_Linked w Hr))
      as HL.
    pose proof (linked_timers _ HL id tm Hid) as Hl. rewrite Hs in Hl.
    intros Heq. rewrite Heq, lookup_delete_eq in Hl. done.
  - intros l st o. apply clearSymbolState_sound.
  - apply clearSymbolState_idem.
Qed.

(** X2: a tick of an instrument that has no configuration, or a disabled one,
    clears the state of the instrument: afterwards it has no state object and
    no pending timer, nothing was logged and no alert is pending that was not
    before, and further ticks of the instrument change nothing. *)
Theorem tick_without_enabled_configuration (snap : gset Z) (now : Z) (tick : TickData)
  (w : World) :
  reachable w ->
  (forall config, configurations w !! Tick.instrument_token tick = Some config ->
     Config.enabled config = false) ->
  getState (Tick.instrument_token tick) (processTick snap now tick w) = None
  /\ (forall id tm, timers (processTick snap now tick w) !! id = Some tm ->
        timers w !! id = Some tm
        /\ Tick.instrument_token (tm_tick tm) <> Tick.instrument_token tick)
  /\ effects (processTick snap now tick w) = effects w
  /\ pendingLogs (processTick snap now tick w) = pendingLogs w
  /\ (forall snap' now' tick', Tick.instrument_token tick' = Tick.instrument_token tick ->
        processTick snap' now' tick' (processTick snap now tick w) = processTick snap now tick w).
Proof.
  intros Hr Hcfg.
  set (token := Tick.instrument_token tick) in *.
  assert (processTick snap now tick w = clearSymbolState token w) as Heq.
  { unfold processTick. fold token. destruct (configurations w !! token) as [config|]; [|done].
    by rewrite (Hcfg config eq_refl). }
  rewrite Heq.
  destruct (clearSymbolState_gone token w) as (Hg & Hs & Hi & Hl & _ & He & Hc & _ & Ht).
  split; [done|]. split; [|split; [done|split; [done|]]].
  - intros id tm Hid. split; [by apply Ht|].
    pose proof (Linked_clearSymbolState token w (reachable_Inv w Hr) (reachable_Linked w Hr))
      as HL.
    pose proof (linked_timers _ HL id tm Hid) as Hlk. rewrite Hs in Hlk.
    intros Heq'. rewrite Heq', lookup_delete_eq in Hlk. done.
  - intros snap' now' tick' Htok. unfold processTick. rewrite Htok. fold token. rewrite Hc.
    destruct (configurations w !! token) as [config|]; [|apply clearSymbolState_idem].
    rewrite (Hcfg config eq_refl). apply clearSymbolState_idem.
Qed.

End Teardown.


(** ** The branches of the tick effect *)

(** The two field updates that open the [forEach] body for an existing object. *)
Lemma processExisting_shape snap tick config sa l st now w :
  heap w !! l = Some st ->
  exists g,
    (forall s, baselinePrice (g s) = baselinePrice s /\ timerId (g s) = timerId s
               /\ priceHistory (g s) = priceHistory s /\ oscillator (g s) = oscillator s)
    /\ lastMarketStatusCheck (g st)
       = (if now - lastMarketStatusCheck st >? 60000 then now else lastMarketStatusCheck st)
    /\ wasMarketOpen (g st)
       = (if now - lastMarketStatusCheck st >? 60000 then sa else wasMarketOpen st)
    /\ processExisting snap tick config sa l st now w
       = (if (now - lastMarketStatusCheck st >? 60000)
             && negb (Bool.eqb (wasMarketOpen st) sa)
          then if sa then rearm snap tick config l now (modify l g w)
               else suspend (Tick.instrument_token tick) l (modify l g w)
          else if negb sa && Config.respect_market_hours config
               then suspend (Tick.instrument_token tick) l (modify l g w)
               else watchPrice snap tick config l now (modify l g w)).
Proof.
  intros Hst. unfold processExisting.
  destruct (now - lastMarketStatusCheck st >? 60000) eqn:Hdue; simpl.
  - destruct (Bool.eqb (wasMarketOpen st) sa) eqn:Hw; simpl.
    + exists (set_lastMarketStatusCheck now). split; [done|]. split; [done|].
      split; [by apply Bool.eqb_prop in Hw|]. done.
    + exists (set_wasMarketOpen sa ∘ set_lastMarketStatusCheck now).
      split; [done|]. split; [done|]. split; [done|]. by rewrite modify_modify.
  - exists (fun s => s). split; [done|]. split; [done|]. split; [done|].
    by rewrite (modify_id l (fun s => s) w).
Qed.

Lemma modify_fields l g w st :
  heap w !! l = Some st ->
  heap (modify l g w) !! l = Some (g st)
  /\ symbolStates (modify l g w) = symbolStates w
  /\ timers (modify l g w) = timers w
  /\ nextId (modify l g w) = nextId w
  /\ inactiveSymbols (modify l g w) = inactiveSymbols w
  /\ playing (modify l g w) = playing w
  /\ pendingLogs (modify l g w) = pendingLogs w
  /\ alerts (modify l g w) = alerts w
  /\ effects (modify l g w) = effects w.
Proof. intros Hst. simpl. by rewrite lookup_alter_eq, Hst. Qed.

Lemma noteSessionQuery_fields `{MarketTimings} config name now w :
  symbolStates (noteSessionQuery config name now w) = symbolStates w
  /\ heap (noteSessionQuery config name now w) = heap w
  /\ timers (noteSessionQuery config name now w) = timers w
  /\ nextId (noteSessionQuery config name now w) = nextId w
  /\ inactiveSymbols (noteSessionQuery config name now w) = inactiveSymbols w
  /\ playing (noteSessionQuery config name now w) = playing w
  /\ pendingLogs (noteSessionQuery config name now w) = pendingLogs w
  /\ alerts (noteSessionQuery config name now w) = alerts w
  /\ user (noteSessionQuery config name now w) = user w.
Proof. unfold noteSessionQuery. by destruct (Config.respect_market_hours config). Qed.

Lemma suspended_timerId st : timerId (suspended st) = None /\ oscillator (suspended st) = None.
Proof.
  unfold suspended, silenced.
  destruct (oscillator st) eqn:Ho; simpl; destruct (timerId st) eqn:Ht; simpl; auto.
Qed.

Lemma resetInactivityTimer_user `{MarketTimings} tick config l now w :
  user (resetInactivityTimer tick config l now w) = user w.
Proof.
  unfold resetInactivityTimer. destruct (heap w !! l) as [st|]; [|done].
  by destruct (timerId st).
Qed.

Section TickBranches.
Context `{MarketTimings}.

Lemma first_tick_shape (snap : gset Z) (now : Z) (tick : TickData) (w : World)
  (config : UserAlertConfig) :
  reachable w ->
  configurations w !! Tick.instrument_token tick = Some config ->
  Config.enabled config = true ->
  getState (Tick.instrument_token tick) w = None ->
  exists st,
    getState (Tick.instrument_token tick) (processTick snap now tick w) = Some (nextId w, st)
    /\ baselinePrice st = Tick.last_price tick
    /\ priceHistory st = [{| price := Tick.last_price tick; timestamp := now |}]
    /\ lastMarketStatusCheck st = now
    /\ wasMarketOpen st = shouldAlertNow config (getInstrumentName tick) now
    /\ oscillator st = None
    /\ (if shouldAlertNow config (getInstrumentName tick) now
        then timerId st = Some (S (nextId w))
             /\ timers (processTick snap now tick w)
                = <[S (nextId w) := armedTimer tick config (nextId w) now]> (timers w)
        else timerId st = None /\ timers (processTick snap now tick w) = timers w)
    /\ pendingLogs (processTick snap now tick w) = pendingLogs w
    /\ (forall l st0, heap w !! l = Some st0 ->
          heap (processTick snap now tick w) !! l = Some st0)
    /\ user (processTick snap now tick w) = user w.
Proof.
  intros Hr Hcfg Hen Hg. pose proof (reachable_Inv w Hr) as HI.
  unfold processTick. rewrite Hcfg, Hen. simpl.
  set (token := Tick.instrument_token tick) in *.
  destruct (noteSessionQuery_fields config (getInstrumentName tick) now w)
    as (Hs0 & Hh0 & Ht0 & Hn0 & _ & _ & Hl0 & _ & Hu0).
  set (w0 := noteSessionQuery config (getInstrumentName tick) now w) in *.
  assert (getState token w0 = None) as ->.
  { unfold getState in *. by rewrite Hs0, Hh0. }
  set (state := Build_SymbolState _ _ _ _ _ _ _).
  set (w1 := upd_symbolStates _ _).
  assert (heap w1 = <[nextId w := state]> (heap w)
          /\ symbolStates w1 = <[token := nextId w]> (symbolStates w)
          /\ timers w1 = timers w /\ nextId w1 = S (nextId w)
          /\ pendingLogs w1 = pendingLogs w /\ user w1 = user w)
    as (Hh1 & Hs1 & Ht1 & Hn1 & Hl1 & Hu1).
  { subst w1. simpl. by rewrite Hh0, Hs0, Ht0, Hn0, Hl0, Hu0. }
  rewrite Hn0 in *.
  assert (heap w1 !! nextId w = Some state) as Hst1 by (rewrite Hh1; apply lookup_insert_eq).
  assert (forall l st0, heap w !! l = Some st0 -> nextId w <> l) as Hfresh.
  { intros l st0 Hl. destruct (inv_heap w HI l st0 Hl) as [Hlt _]. lia. }
  destruct (shouldAlertNow config (getInstrumentName tick) now) eqn:Hsa.
  - destruct (resetInactivityTimer_spec tick config (nextId w) now w1 state Hst1)
      as (Rh & Rt & Rn & Rs & _ & _ & Rl & _).
    assert (user (resetInactivityTimer tick config (nextId w) now w1) = user w) as Ru.
    { by rewrite resetInactivityTimer_user. }
    rewrite Hh1, insert_insert_eq, Hn1 in Rh. rewrite Hn1, Ht1 in Rt. simpl in Rt.
    fold (armedTimer tick config (nextId w) now) in Rt.
    eexists. split; [|split; [|split; [|split; [|split; [|split; [|split]]]]]].
    + apply getState_Some. rewrite Rs, Rh, Hs1. split; apply lookup_insert_eq.
    + done.
    + done.
    + done.
    + done.
    + done.
    + split; [done|]. by rewrite Rt.
    + split; [by rewrite Rl|]. split; [|by rewrite Ru].
      intros l st0 Hl. rewrite Rh.
      rewrite lookup_insert_ne by (by eapply Hfresh). done.
  - exists state. split; [|split; [|split; [|split; [|split; [|split; [|split]]]]]]; try done.
    + apply getState_Some. rewrite Hs1, Hh1. split; apply lookup_insert_eq.
    + split; [done|]. split; [|done]. intros l st0 Hl. rewrite Hh1.
      rewrite lookup_insert_ne by (by eapply Hfresh). done.
Qed.

(** X3: the first tick of an instrument with an enabled configuration creates
    its state object at a fresh location: the baseline and the single history
    entry are the price of the tick, [lastMarketStatusCheck] is the time of the
    tick, [wasMarketOpen] is whether alerts are eligible at that time, and no
    sound plays.  When eligible, one timer of [duration] seconds is armed for
    the object and its id stored; otherwise none is.  Pending alerts and the
    other state objects are as before. *)
Theorem first_tick_creates_state (snap : gset Z) (now : Z) (tick : TickData) (w : World)
  (config : UserAlertConfig) :
  reachable w ->
  configurations w !! Tick.instrument_token tick = Some config ->
  Config.enabled config = true ->
  getState (Tick.instrument_token tick) w = None ->
  exists st,
    getState (Tick.instrument_token tick) (processTick snap now tick w) = Some (nextId w, st)
    /\ baselinePrice st = Tick.last_price tick
    /\ priceHistory st = [{| price := Tick.last_price tick; timestamp := now |}]
    /\ lastMarketStatusCheck st = now
    /\ wasMarketOpen st = shouldAlertNow config (getInstrumentName tick) now
    /\ oscillator st = None
    /\ (if shouldAlertNow config (getInstrumentName tick) now
        then timerId st = Some (S (nextId w))
             /\ timers (processTick snap now tick w)
                = <[S (nextId w) := armedTimer tick config (nextId w) now]> (timers w)
        else timerId st = None /\ timers (processTick snap now tick w) = timers w)
    /\ pendingLogs (processTick snap now tick w) = pendingLogs w
    /\ (forall l st0, heap w !! l = Some st0 ->
          heap (processTick snap now tick w) !! l = Some st0).
Proof.
  intros Hr Hcfg Hen Hg.
  destruct (first_tick_shape snap now tick w config Hr Hcfg Hen Hg)
    as (st & H1 & H2 & H3 & H4 & H5 & H6 & H7 & H8 & H9 & _).
  exists st. repeat (split; [assumption|]). assumption.
Qed.

(** X4: a tick of an instrument whose alerts are not eligible now leaves its
    state object without timer and without sound, whether the check of the
    session is due or not: the baseline and the price history are kept, the
    timer the object held is cancelled, no timer of the instrument remains,
    the oscillator it held no longer plays, and the pending alerts and the
    inactive set are as before. *)
Theorem ineligible_tick_suspends (snap : gset Z) (now : Z) (tick : TickData) (w : World)
  (config : UserAlertConfig) (l : loc) (st : SymbolState) :
  reachable w ->
  configurations w !! Tick.instrument_token tick = Some config ->
  Config.enabled config = true ->
  getState (Tick.instrument_token tick) w = Some (l, st) ->
  shouldAlertNow config (getInstrumentName tick) now = false ->
  exists st',
    getState (Tick.instrument_token tick) (processTick snap now tick w) = Some (l, st')
    /\ timerId st' = None /\ oscillator st' = None
    /\ baselinePrice st' = baselinePrice st
    /\ priceHistory st' = priceHistory st
    /\ timers (processTick snap now tick w) = cancelled (timerId st) (timers w)
    /\ (forall id tm, timers (processTick snap now tick w) !! id = Some tm ->
          Tick.instrument_token (tm_tick tm) <> Tick.instrument_token tick)
    /\ (forall o, oscillator st = Some o -> o ∉ playing (processTick snap now tick w))
    /\ pendingLogs (processTick snap now tick w) = pendingLogs w
    /\ inactiveSymbols (processTick snap now tick w) = inactiveSymbols w.
Proof.
  intros Hr Hcfg Hen Hg Hsa.
  pose proof (reachable_Inv w Hr) as HI. pose proof (reachable_Linked w Hr) as HL.
  apply getState_Some in Hg as [Hsym Hst].
  assert (Config.respect_market_hours config = true) as Hrespect.
  { unfold shouldAlertNow in Hsa. by destruct (Config.respect_market_hours config). }
  unfold processTick. rewrite Hcfg, Hen, Hsa. simpl.
  set (token := Tick.instrument_token tick) in *.
  destruct (noteSessionQuery_fields config (getInstrumentName tick) now w)
    as (Hs0 & Hh0 & Ht0 & Hn0 & Hi0 & Hp0 & Hl0 & _).
  set (w0 := noteSessionQuery config (getInstrumentName tick) now w) in *.
  assert (getState token w0 = Some (l, st)) as ->.
  { apply getState_Some. by rewrite Hs0, Hh0. }
  assert (heap w0 !! l = Some st) as Hst0 by (by rewrite Hh0).
  destruct (processExisting_shape snap tick config false l st now w0 Hst0)
    as (g & Hg & _ & _ & ->).
  rewrite Hrespect. simpl.
  assert (processExisting_result :
            (if (now - lastMarketStatusCheck st >? 60000)
                && negb (Bool.eqb (wasMarketOpen st) false)
             then suspend token l (modify l g w0) else suspend token l (modify l g w0))
            = suspend token l (modify l g w0)) by (by destruct (_ && _)).
  fold token. rewrite processExisting_result. clear processExisting_result.
  destruct (modify_fields l g w0 st Hst0) as (Mh & Ms & Mt & Mn & Mi & Mp & Ml & Ma & Me).
  set (wX := modify l g w0) in *.
  assert (symbolStates wX !! token = Some l) as HsymX by (by rewrite Ms, Hs0).
  destruct (suspend_spec token l wX (g st) HsymX Mh) as (Rh & Rt & Rn & Rs & Ri & Rl & Ra & Re).
  destruct (Hg st) as (Gb & Gt & Gh & Go).
  exists (suspended (g st)).
  destruct (suspended_fields (g st)) as (Sb & Sh & _ & _).
  destruct (suspended_timerId (g st)) as (St & So).
  assert (timers (suspend token l wX) = cancelled (timerId st) (timers w)) as Htimers.
  { by rewrite Rt, Gt, Mt, Ht0. }
  split; [|split; [done|split; [done|split; [congruence|split; [congruence|split;
    [done|split; [|split; [|split]]]]]]]].
  - apply getState_Some. split; [by rewrite Rs|]. rewrite Rh. apply lookup_insert_eq.
  - intros id tm Hid Htok. rewrite Htimers in Hid.
    assert (timers w !! id = Some tm /\ timerId st <> Some id) as [Hw Hne].
    { unfold cancelled in Hid. destruct (timerId st) as [id0|].
      - apply lookup_delete_Some in Hid as [? ?]. split; [done | congruence].
      - done. }
    pose proof (linked_timers w HL id tm Hw) as Hlk. rewrite Htok in Hlk.
    fold token in Hlk. rewrite Hsym in Hlk. injection Hlk as Hlk.
    destruct (inv_timers w HI id tm Hw) as [_ (s' & Hs' & Hti & _)].
    rewrite <- Hlk in Hs'. congruence.
  - intros o Ho. unfold suspend.
    assert (o ∉ playing (stopAlertSound token wX)) as Hout.
    { eapply stopAlertSound_playing; [exact HsymX | exact Mh | by rewrite Go]. }
    destruct (heap (stopAlertSound token wX) !! l) as [s1|]; [|done].
    by destruct (timerId s1).
  - by rewrite Rl, Ml, Hl0.
  - by rewrite Ri, Mi, Hi0.
Qed.

End TickBranches.

Lemma watchPrice_quiet snap tick config l now w st :
  heap w !! l = Some st -> priceMoved tick st config = false ->
  watchPrice snap tick config l now w = modify l (pruned tick now) w.
Proof.
  intros Hst Hq. unfold watchPrice. rewrite modify_modify.
  set (w2 := modify l _ w).
  assert (heap w2 !! l = Some (pruned tick now st)) as ->.
  { subst w2. rewrite (heap_modify_Some _ _ _ st Hst). apply lookup_insert_eq. }
  by rewrite (priceMoved_baseline tick st (pruned tick now st) config), Hq.
Qed.

Section SessionAndDeviation.
Context `{MarketTimings}.


(** X6: an eligible tick that sees no change of session (the check is not due,
    or [wasMarketOpen] holds already) and whose price is not further from the
    baseline than the deviation, on doubles, only appends to the pruned
    history: the baseline, the timer id, the sound, the pending timers and so
    the deadline, the inactive set and the id counter are as before, and so
    are the pending alerts up to the points of their history, whose array is
    the one the tick appends to when it is still the array of the object.  In
    particular no timer is armed for an object that has none. *)
Theorem quiet_tick_keeps_deadline (snap : gset Z) (now : Z) (tick : TickData) (w : World)
  (config : UserAlertConfig) (l : loc) (st : SymbolState) :
  configurations w !! Tick.instrument_token tick = Some config ->
  Config.enabled config = true ->
  getState (Tick.instrument_token tick) w = Some (l, st) ->
  shouldAlertNow config (getInstrumentName tick) now = true ->
  now - lastMarketStatusCheck st <= 60000 \/ wasMarketOpen st = true ->
  priceMoved tick st config = false ->
  exists st',
    getState (Tick.instrument_token tick) (processTick snap now tick w) = Some (l, st')
    /\ baselinePrice st' = baselinePrice st
    /\ timerId st' = timerId st
    /\ oscillator st' = oscillator st
    /\ wasMarketOpen st' = wasMarketOpen st
    /\ priceHistory st'
       = slice_last 100
           (List.filter (fun h => now - 5 * 60 * 1000 <? timestamp h)
              (priceHistory st ++ [{| price := Tick.last_price tick; timestamp := now |}]))
    /\ timers (processTick snap now tick w) = timers w
    /\ inactiveSymbols (processTick snap now tick w) = inactiveSymbols w
    /\ playing (processTick snap now tick w) = playing w
    /\ map pa_without_history (pendingLogs (processTick snap now tick w))
       = map pa_without_history (pendingLogs w)
    /\ nextId (processTick snap now tick w) = nextId w.
Proof.
  intros Hcfg Hen Hg Hsa Hsame Hq.
  apply getState_Some in Hg as [Hsym Hst].
  unfold processTick. rewrite Hcfg, Hen, Hsa. simpl.
  set (token := Tick.instrument_token tick) in *.
  destruct (noteSessionQuery_fields config (getInstrumentName tick) now w)
    as (Hs0 & Hh0 & Ht0 & Hn0 & Hi0 & Hp0 & Hl0 & _).
  set (w0 := noteSessionQuery config (getInstrumentName tick) now w) in *.
  assert (getState token w0 = Some (l, st)) as ->.
  { apply getState_Some. by rewrite Hs0, Hh0. }
  assert (heap w0 !! l = Some st) as Hst0 by (by rewrite Hh0).
  destruct (processExisting_shape snap tick config true l st now w0 Hst0)
    as (g & Hg & Hlast & Hopen & ->).
  assert ((now - lastMarketStatusCheck st >? 60000)
          && negb (Bool.eqb (wasMarketOpen st) true) = false) as Hno.
  { destruct Hsame as [Hle | ->].
    - assert ((now - lastMarketStatusCheck st >? 60000) = false) as -> by lia. done.
    - simpl. apply andb_false_r. }
  rewrite Hno. simpl.
  destruct (modify_fields l g w0 st Hst0) as (Mh & Ms & Mt & Mn & Mi & Mp & Ml & Ma & Me).
  destruct (Hg st) as (Gb & Gt & Gh & Go).
  set (wX := modify l g w0) in *.
  assert (priceMoved tick (g st) config = false) as Hqg.
  { by rewrite (priceMoved_baseline tick st (g st) config Gb). }
  rewrite (watchPrice_quiet snap tick config l now wX (g st) Mh Hqg).
  destruct (modify_fields l (pruned tick now) wX (g st) Mh)
    as (Ph & Ps & Pt & Pn & Pi & Pp & Pl & _).
  exists (pruned tick now (g st)).
  split; [|split; [done|split; [done|split; [done|split; [|split; [|split; [|split;
    [|split; [|split]]]]]]]]].
  - apply getState_Some. split; [by rewrite Ps, Ms, Hs0 | done].
  - change (wasMarketOpen (g st) = wasMarketOpen st). rewrite Hopen.
    destruct (now - lastMarketStatusCheck st >? 60000) eqn:Hd; [|done].
    destruct Hsame as [Hle | Hw]; [lia | done].
  - unfold pruned. simpl. by rewrite Gh.
  - by rewrite Pt, Mt, Ht0.
  - by rewrite Pi, Mi, Hi0.
  - by rewrite Pp, Mp, Hp0.
  - by rewrite Pl, Ml, Hl0.
  - by rewrite Pn, Mn, Hn0.
Qed.

End SessionAndDeviation.


(** ** Timers *)

Section Timeouts.
Context `{MarketTimings}.

(** X7: when a timer elapses while alerts are not eligible, no alert is
    raised: the state object of the instrument is dropped, the instrument is
    not in the inactive set, nothing is handed to the store or cached, and no
    timer of the instrument remains. *)
Theorem timeout_outside_session_drops_state (now : Z) (id : nat) (w : World) (tm : Timer) :
  reachable w ->
  timers w !! id = Some tm ->
  shouldAlertNow (tm_config tm) (getInstrumentName (tm_tick tm)) now = false ->
  getState (Tick.instrument_token (tm_tick tm)) (timeout id now w) = None
  /\ (Tick.instrument_token (tm_tick tm) ∉ inactiveSymbols (timeout id now w))
  /\ pendingLogs (timeout id now w) = pendingLogs w
  /\ alerts (timeout id now w) = alerts w
  /\ store (timeout id now w) = store w
  /\ (forall id' tm', timers (timeout id now w) !! id' = Some tm' ->
        timers w !! id' = Some tm' /\ id' <> id
        /\ Tick.instrument_token (tm_tick tm') <> Tick.instrument_token (tm_tick tm)).
Proof.
  intros Hr Hid Hsa.
  pose proof (reachable_Linked _ (reachable_step now (Timeout id) w Hr)) as HL'.
  simpl in HL'. revert HL'.
  unfold timeout. rewrite Hid. unfold timerCallback. rewrite Hsa.
  set (token := Tick.instrument_token (tm_tick tm)).
  set (w0 := upd_timers (delete id) w).
  destruct (noteSessionQuery_fields (tm_config tm) (getInstrumentName (tm_tick tm)) now w0)
    as (Hs0 & Hh0 & Ht0 & Hn0 & Hi0 & Hp0 & Hl0 & Ha0 & _).
  assert (store (noteSessionQuery (tm_config tm) (getInstrumentName (tm_tick tm)) now w0)
          = store w) as Hst0.
  { unfold noteSessionQuery. by destruct (Config.respect_market_hours _). }
  set (w1 := noteSessionQuery _ _ now w0) in *.
  destruct (stopAlertSound_rest token w1) as (Ss & St & Si & Sl & Sa & Se & Sn).
  assert (store (stopAlertSound token w1) = store w1) as Sst.
  { unfold stopAlertSound. destruct (getState token w1) as [[l st]|]; [|done].
    by destruct (oscillator st). }
  set (w2 := stopAlertSound token w1) in *.
  destruct (clearSymbolState_gone token w2) as (Cg & Cs & Ci & Cl & Ca & _ & _ & _ & Ct).
  assert (store (clearSymbolState token w2) = store w2) as Cst.
  { unfold clearSymbolState.
    set (wa := match getState token w2 with Some _ => _ | None => _ end).
    assert (store wa = store w2) as Hwa.
    { subst wa. destruct (getState token w2) as [[l st]|]; [|done]. by destruct (timerId st). }
    simpl. unfold stopAlertSound. destruct (getState token wa) as [[l st]|]; [|done].
    by destruct (oscillator st). }
  intros HL'.
  split; [done|]. split; [done|]. split; [by rewrite Cl, Sl, Hl0|].
  split; [by rewrite Ca, Sa, Ha0|]. split; [by rewrite Cst, Sst, Hst0|].
  intros id' tm' Hid'.
  pose proof (linked_timers _ HL' id' tm' Hid') as Hlk.
  apply Ct in Hid'. rewrite St, Ht0 in Hid'. simpl in Hid'.
  apply lookup_delete_Some in Hid' as [Hne Hw].
  split; [done|]. split; [done|].
  intros Heq. rewrite Cs, Heq in Hlk. fold token in Hlk. by rewrite lookup_delete_eq in Hlk.
Qed.

(** X8: in every reachable state a pending timer is the timer of the current
    state object of its instrument: the object holds its id, and its baseline
    is the price of the tick that armed the timer.  Hence an instrument has at
    most one pending timer. *)
Theorem pending_timer_is_the_state_timer (w : World) (id : nat) (tm : Timer) :
  reachable w ->
  timers w !! id = Some tm ->
  (exists st, getState (Tick.instrument_token (tm_tick tm)) w = Some (tm_state tm, st)
              /\ timerId st = Some id
              /\ baselinePrice st = Tick.last_price (tm_tick tm))
  /\ (forall id' tm', timers w !! id' = Some tm' ->
        Tick.instrument_token (tm_tick tm') = Tick.instrument_token (tm_tick tm) -> id' = id).
Proof.
  intros Hr Hid.
  pose proof (reachable_Inv w Hr) as HI. pose proof (reachable_Linked w Hr) as HL.
  destruct (inv_timers w HI id tm Hid) as [_ (st & Hst & Hti & Hb)].
  pose proof (linked_timers w HL id tm Hid) as Hsym.
  split.
  - exists st. split; [|done]. by apply getState_Some.
  - intros id' tm' Hid' Htok.
    destruct (inv_timers w HI id' tm' Hid') as [_ (st' & Hst' & Hti' & _)].
    pose proof (linked_timers w HL id' tm' Hid') as Hsym'.
    rewrite Htok, Hsym in Hsym'. injection Hsym' as Hl. rewrite <- Hl in Hst'.
    congruence.
Qed.

(** X9: a first eligible tick followed by the elapse of its timer, alerts
    still eligible, hands exactly one alert to the store: for the signed-in
    user and the instrument, with the price of the tick as baseline, as
    current price and as both ends of the price range, the deviation and the
    duration of the configuration, unacknowledged.  The timer is consumed. *)
Theorem first_tick_then_silence_alerts (snap : gset Z) (now now' : Z) (tick : TickData)
  (w : World) (config : UserAlertConfig) (uid : string) :
  reachable w ->
  user w = Some uid ->
  configurations w !! Tick.instrument_token tick = Some config ->
  Config.enabled config = true ->
  getState (Tick.instrument_token tick) w = None ->
  shouldAlertNow config (getInstrumentName tick) now = true ->
  shouldAlertNow config (getInstrumentName tick) now' = true ->
  exists pa,
    pendingLogs (timeout (S (nextId w)) now' (processTick snap now tick w))
    = pendingLogs w ++ [pa]
    /\ pa_state pa = nextId w
    /\ Log.user_id (pa_alert pa) = uid
    /\ Log.instrument_token (pa_alert pa) = Tick.instrument_token tick
    /\ Log.baseline_price (pa_alert pa) = Tick.last_price tick
    /\ Log.current_price (pa_alert pa) = Tick.last_price tick
    /\ Log.price_range (pa_alert pa)
       = (Some (Tick.last_price tick), Some (Tick.last_price tick))
    /\ Log.deviation (pa_alert pa) = Config.deviation config
    /\ Log.duration (pa_alert pa) = Config.duration config
    /\ Log.acknowledged (pa_alert pa) = false
    /\ timers (timeout (S (nextId w)) now' (processTick snap now tick w)) = timers w.
Proof.
  intros Hr Hu Hcfg Hen Hg Hsa Hsa'.
  pose proof (reachable_Inv w Hr) as HI.
  destruct (first_tick_shape snap now tick w config Hr Hcfg Hen Hg)
    as (st & Hg1 & Hb & Hh & _ & _ & _ & Htm & Hl & _ & Hu1).
  rewrite Hsa in Htm. destruct Htm as [Hti Htm].
  set (w1 := processTick snap now tick w) in *.
  apply getState_Some in Hg1 as [Hsym1 Hst1].
  unfold timeout. rewrite Htm, lookup_insert_eq.
  unfold timerCallback, armedTimer. simpl. rewrite Hsa'.
  set (w2 := upd_timers (delete (S (nextId w))) w1).
  destruct (noteSessionQuery_fields config (getInstrumentName tick) now' w2)
    as (Hs3 & Hh3 & Ht3 & Hn3 & Hi3 & Hp3 & Hl3 & Ha3 & Hu3).
  set (w3 := noteSessionQuery config (getInstrumentName tick) now' w2) in *.
  unfold triggerAlert. rewrite Hu3, Hh3. simpl. rewrite Hu1, Hu, Hst1.
  eexists. split; [simpl; by rewrite Hl3; simpl; rewrite Hl|].
  simpl. rewrite Hb, Hh. simpl.
  repeat split; try done.
  rewrite Ht3. simpl. rewrite Htm, delete_insert_eq.
  apply delete_id. destruct (timers w !! S (nextId w)) as [tm0|] eqn:Htm0; [|done].
  destruct (inv_timers w HI _ _ Htm0) as [Hlt _]. lia.
Qed.

End Timeouts.


(** ** Sound, notification, loading and the controls *)

Lemma stopAlertSound_shape token w l st :
  getState token w = Some (l, st) ->
  getState token (stopAlertSound token w) = Some (l, silenced st)
  /\ playing (stopAlertSound token w)
     = (match oscillator st with Some o => playing w ∖ {[o]} | None => playing w end)
  /\ nextId (stopAlertSound token w) = nextId w
  /\ effects (stopAlertSound token w) = effects w.
Proof.
  intros Hg. pose proof Hg as Hg'. apply getState_Some in Hg' as [Hsym Hst].
  unfold stopAlertSound, silenced. rewrite Hg.
  destruct (oscillator st) as [o|]; [|done].
  split; [|done]. apply getState_Some. simpl. split; [done|].
  by rewrite lookup_alter_eq, Hst.
Qed.

(** X10: with sound enabled and an audio context, [playAlertSound] for an
    instrument that has a state object stops the oscillator the object holds,
    starts one new oscillator and stores its handle in the object; baseline
    and timer id are untouched. *)
Theorem playAlertSound_restarts (token : Z) (config : UserAlertConfig) (w : World)
  (l : loc) (st : SymbolState) :
  Config.notification_sound config = true ->
  audioContext w = true ->
  getState token w = Some (l, st) ->
  exists st',
    getState token (playAlertSound token config w) = Some (l, st')
    /\ oscillator st' = Some (nextId w)
    /\ gainNode st' = Some (nextId w)
    /\ baselinePrice st' = baselinePrice st
    /\ timerId st' = timerId st
    /\ playing (playAlertSound token config w)
       = {[nextId w]} ∪ (match oscillator st with
                         | Some o => playing w ∖ {[o]}
                         | None => playing w
                         end)
    /\ effects (playAlertSound token config w) = SoundStarted token (nextId w) :: effects w
    /\ nextId (playAlertSound token config w) = S (nextId w).
Proof.
  intros Hs Ha Hg. unfold playAlertSound. rewrite Hs, Ha. simpl.
  destruct (stopAlertSound_shape token w l st Hg) as (Sg & Sp & Sn & Se).
  set (w1 := stopAlertSound token w) in *.
  apply getState_Some in Sg as [Ssym Sst].
  set (w2 := upd_effects _ _).
  assert (getState token w2 = Some (l, silenced st)) as ->.
  { apply getState_Some. by subst w2. }
  destruct (silenced_fields st) as (Fb & Ft & _).
  exists (set_sound (Some (nextId w)) (Some (nextId w)) (silenced st)).
  assert (playing w2 = {[nextId w]} ∪ playing w1 /\ effects w2 = SoundStarted token (nextId w) :: effects w1
          /\ nextId w2 = S (nextId w) /\ symbolStates w2 = symbolStates w1 /\ heap w2 = heap w1)
    as (Hp2 & He2 & Hn2 & Hs2 & Hh2).
  { subst w2. simpl. by rewrite Sn. }
  rewrite Sn. clearbody w2.
  destruct (modify_fields l (set_sound (Some (nextId w)) (Some (nextId w))) w2 (silenced st))
    as (Mh & Ms & Mt & Mn & Mi & Mp & Ml & Ma & Me); [by rewrite Hh2|].
  split; [by apply getState_Some; rewrite Ms, Hs2|].
  split; [done|]. split; [done|]. split; [done|]. split; [done|].
  split; [by rewrite Mp, Hp2, Sp|]. split; [by rewrite Me, He2, Se|]. by rewrite Mn.
Qed.

(** X11: with sound enabled and an audio context, [playAlertSound] for an
    instrument without state object starts an oscillator no state object
    refers to: [stopAlertSound] and [clearSymbolState] of that instrument leave
    it playing. *)
Theorem sound_without_state_cannot_be_stopped (token : Z) (config : UserAlertConfig)
  (w : World) :
  Config.notification_sound config = true ->
  audioContext w = true ->
  getState token w = None ->
  playing (playAlertSound token config w) = {[nextId w]} ∪ playing w
  /\ heap (playAlertSound token config w) = heap w
  /\ stopAlertSound token (playAlertSound token config w) = playAlertSound token config w
  /\ playing (clearSymbolState token (playAlertSound token config w)) = {[nextId w]} ∪ playing w.
Proof.
  intros Hs Ha Hg. unfold playAlertSound. rewrite Hs, Ha. simpl.
  rewrite (getState_None_stop token w Hg).
  set (w2 := upd_effects _ _).
  assert (getState token w2 = None) as Hg2 by (by subst w2).
  rewrite Hg2. split; [done|]. split; [done|].
  rewrite (getState_None_stop token w2 Hg2). split; [done|].
  unfold clearSymbolState. rewrite Hg2, (getState_None_stop token w2 Hg2). done.
Qed.

(** X12: with browser notifications enabled and the permission not asked yet,
    [showBrowserNotification] shows nothing and asks; the notification is shown
    when, and only when, the request settles with [Granted]; the permission
    becomes the answer and the request is gone. *)
Theorem notification_waits_for_permission (alert : UserAlertLog) (config : UserAlertConfig)
  (w : World) (p : Permission) :
  Config.notification_browser config = true ->
  notificationPermission w = Default ->
  effects (showBrowserNotification alert config w) = effects w
  /\ effects (permissionSettled (length (permissionRequests w)) p
                (showBrowserNotification alert config w))
     = (match p with Granted => BrowserNotification alert :: effects w | _ => effects w end)
  /\ notificationPermission (permissionSettled (length (permissionRequests w)) p
                               (showBrowserNotification alert config w)) = p
  /\ permissionRequests (permissionSettled (length (permissionRequests w)) p
                           (showBrowserNotification alert config w))
     = permissionRequests w.
Proof.
  intros Hb Hp. unfold showBrowserNotification at 1 2 3 4. rewrite Hb, Hp. simpl.
  split; [done|]. unfold permissionSettled. simpl.
  rewrite lookup_app_r by done. rewrite Nat.sub_diag. simpl.
  assert (delete (length (permissionRequests w)) (permissionRequests w ++ [(alert, config)])
          = permissionRequests w) as Hdel.
  { induction (permissionRequests w) as [|x q IH]; [done|]. simpl. f_equal. exact IH. }
  unfold showBrowserNotification. rewrite Hb. simpl.
  destruct p; simpl; rewrite Hdel; done.
Qed.

Lemma recentAlertsLoaded_shape (logs : list UserAlertLog) (w : World) (uid : string) :
  user w = Some uid ->
  alerts (recentAlertsLoaded logs w) = logs
  /\ (forall token, token ∈ inactiveSymbols (recentAlertsLoaded logs w)
      <-> exists log, log ∈ logs /\ Log.acknowledged log = false
                      /\ Log.instrument_token log = token)
  /\ heap (recentAlertsLoaded logs w) = heap w
  /\ timers (recentAlertsLoaded logs w) = timers w.
Proof.
  intros Hu. unfold recentAlertsLoaded. rewrite Hu. simpl.
  split; [done|]. split; [|done]. intros token.
  assert (forall (s : gset Z),
            token ∈ fold_left (fun s log => if Log.acknowledged log then s
                                            else s ∪ {[Log.instrument_token log]}) logs s
            <-> token ∈ s \/ exists log, log ∈ logs /\ Log.acknowledged log = false
                                         /\ Log.instrument_token log = token) as Hfold.
  { induction logs as [|log logs IH]; intros s; simpl.
    - split; [by left|]. intros [?|(log & Hin & _)]; [done|]. by apply elem_of_nil in Hin.
    - rewrite IH. split.
      + intros [Hin|(log' & Hin & Hack & Htok)].
        * destruct (Log.acknowledged log) eqn:Hack; [by left|].
          apply elem_of_union in Hin as [?|Hin]; [by left|].
          apply elem_of_singleton in Hin. right. exists log. split; [left|done].
        * right. exists log'. split; [by right|done].
      + intros [Hin|(log' & Hin & Hack & Htok)].
        * left. destruct (Log.acknowledged log); [done|]. apply elem_of_union. by left.
        * apply elem_of_cons in Hin as [->|Hin].
          -- left. rewrite Hack. apply elem_of_union. right. by apply elem_of_singleton.
          -- right. by exists log'. }
  rewrite Hfold. split; [|by right]. intros [Hin|?]; [|done]. by apply elem_of_empty in Hin.
Qed.

(** X13: once the recent alerts are loaded the cache holds the logs received,
    and the inactive set is the set of the instruments of the unacknowledged
    logs among them, whatever it held before; state objects and timers are
    untouched. *)
Theorem recentAlertsLoaded_inactive (logs : list UserAlertLog) (w : World) (uid : string)
  (token : Z) :
  user w = Some uid ->
  alerts (recentAlertsLoaded logs w) = logs
  /\ (token ∈ inactiveSymbols (recentAlertsLoaded logs w)
      <-> exists log, log ∈ logs /\ Log.acknowledged log = false
                      /\ Log.instrument_token log = token)
  /\ heap (recentAlertsLoaded logs w) = heap w
  /\ timers (recentAlertsLoaded logs w) = timers w.
Proof.
  intros Hu. destruct (recentAlertsLoaded_shape logs w uid Hu) as (Ha & Hi & Hh & Ht).
  split; [done|]. split; [apply Hi|]. done.
Qed.

Lemma fold_insert_last (configs : list UserAlertConfig) (m : gmap Z UserAlertConfig) token :
  fold_left (fun m c => <[Config.instrument_token c := c]> m) configs m !! token
  = match last (List.filter (fun c => Config.instrument_token c =? token) configs) with
    | Some c => Some c
    | None => m !! token
    end.
Proof.
  revert m. induction configs as [|c configs IH]; intros m; simpl; [done|].
  rewrite IH. destruct (Config.instrument_token c =? token) eqn:Heq.
  - apply Z.eqb_eq in Heq. simpl.
    destruct (List.filter _ configs) as [|c' rest] eqn:Hf; simpl.
    + by rewrite <- Heq, lookup_insert_eq.
    + change (last (c :: c' :: rest)) with (last (c' :: rest)).
      destruct (last (c' :: rest)) eqn:Hl; [done|]. by apply last_None in Hl.
  - apply Z.eqb_neq in Heq.
    destruct (last _); [done|]. by rewrite lookup_insert_ne.
Qed.

(** X14: once the configurations are loaded, [loading] is false and the
    configuration of an instrument is the last one of the reply with that
    [instrument_token]; state objects and timers are untouched. *)
Theorem configurationsLoaded_last_wins (configs : list UserAlertConfig) (w : World)
  (uid : string) (token : Z) :
  user w = Some uid ->
  loading (configurationsLoaded configs w) = false
  /\ configurations (configurationsLoaded configs w) !! token
     = last (List.filter (fun c => Config.instrument_token c =? token) configs)
  /\ heap (configurationsLoaded configs w) = heap w
  /\ timers (configurationsLoaded configs w) = timers w.
Proof.
  intros Hu. unfold configurationsLoaded. rewrite Hu. simpl.
  split; [done|]. split; [|done]. rewrite fold_insert_last.
  by destruct (last _).
Qed.

Section Controls.
Context `{MarketTimings}.

(** X15: [updateConfiguration(token, config)], when the store accepts, returns
    true, files the configuration with a fresh id under [token] (whatever
    [config.instrument_token] is), keeps the configurations of the other
    instruments, and clears the state of [token]: no state object, not in the
    inactive set, no pending timer.  When the store refuses, the error is
    logged and nothing else changes. *)
Theorem updateConfiguration_saved (token : Z) (config : UserAlertConfig) (w : World)
  (uid : string) :
  reachable w ->
  user w = Some uid ->
  snd (updateConfiguration token config true w) = true
  /\ configurations (fst (updateConfiguration token config true w)) !! token
     = Some (identified (nextId w) config)
  /\ (forall t, t <> token ->
        configurations (fst (updateConfiguration token config true w)) !! t
        = configurations w !! t)
  /\ getState token (fst (updateConfiguration token config true w)) = None
  /\ (token ∉ inactiveSymbols (fst (updateConfiguration token config true w)))
  /\ (forall id tm, timers (fst (updateConfiguration token config true w)) !! id = Some tm ->
        timers w !! id = Some tm /\ Tick.instrument_token (tm_tick tm) <> token)
  /\ updateConfiguration token config false w
     = (upd_effects (cons (ConsoleError "Error saving alert config:")) w, false).
Proof.
  intros Hr Hu.
  pose proof (reachable_Linked _ (reachable_step 0 (UpdateConfiguration token config true) w Hr))
    as HL'.
  change (Linked (fst (updateConfiguration token config true w))) in HL'. revert HL'.
  assert (updateConfiguration token config false w
          = (upd_effects (cons (ConsoleError "Error saving alert config:")) w, false)) as Hfail.
  { unfold updateConfiguration. by rewrite Hu. }
  assert (updateConfiguration token config true w
          = (clearSymbolState token
               (upd_configurations <[token := identified (nextId w) config]> (upd_nextId S w)),
             true)) as ->.
  { unfold updateConfiguration. by rewrite Hu. }
  cbn [fst snd]. set (w1 := upd_configurations _ _).
  destruct (clearSymbolState_gone token w1) as (Cg & Cs & Ci & _ & _ & _ & Cc & _ & Ct).
  intros HL'. split; [done|]. rewrite Cc.
  split; [subst w1; simpl; apply lookup_insert_eq|].
  split; [intros t Hne; subst w1; simpl; by apply lookup_insert_ne|].
  split; [done|]. split; [done|]. split; [|done].
  intros id tm Hid. split; [by apply Ct in Hid|].
  pose proof (linked_timers _ HL' id tm Hid) as Hlk. rewrite Cs in Hlk.
  intros Heq. by rewrite Heq, lookup_delete_eq in Hlk.
Qed.

(** X16: [acknowledgeAlert] never touches the inactive set, the playing
    oscillators, the state objects or the timers, and keeps the number of
    cached alerts, whether the store accepts or not. *)
Theorem acknowledgeAlert_keeps_sound_and_mark (alertId : nat) (ok : bool) (tStore tCache : Z)
  (w : World) :
  inactiveSymbols (fst (acknowledgeAlert alertId ok tStore tCache w)) = inactiveSymbols w
  /\ playing (fst (acknowledgeAlert alertId ok tStore tCache w)) = playing w
  /\ heap (fst (acknowledgeAlert alertId ok tStore tCache w)) = heap w
  /\ symbolStates (fst (acknowledgeAlert alertId ok tStore tCache w)) = symbolStates w
  /\ timers (fst (acknowledgeAlert alertId ok tStore tCache w)) = timers w
  /\ length (alerts (fst (acknowledgeAlert alertId ok tStore tCache w))) = length (alerts w).
Proof.
  unfold acknowledgeAlert, AlertService_acknowledgeAlert.
  destruct (user w); [|done]. destruct ok; simpl; [|done].
  repeat split; try done. by rewrite length_map.
Qed.

End Controls.


(** ** The cache and the store *)

Lemma stopAlertSound_account token w :
  store (stopAlertSound token w) = store w /\ user (stopAlertSound token w) = user w.
Proof.
  unfold stopAlertSound. destruct (getState token w) as [[l st]|]; [|done].
  by destruct (oscillator st).
Qed.

Lemma playAlertSound_account token config w :
  store (playAlertSound token config w) = store w
  /\ user (playAlertSound token config w) = user w.
Proof.
  unfold playAlertSound. destruct (negb _ || negb _); [done|].
  destruct (stopAlertSound_account token w) as [Hs Hu].
  set (w1 := stopAlertSound token w) in *.
  set (w2 := upd_effects _ _).
  destruct (getState token w2) as [[l st]|]; simpl; by rewrite Hs, Hu.
Qed.

Lemma showBrowserNotification_account alert config w :
  store (showBrowserNotification alert config w) = store w
  /\ user (showBrowserNotification alert config w) = user w.
Proof.
  unfold showBrowserNotification. destruct (negb _); [done|].
  by destruct (notificationPermission w).
Qed.

Section Cache.
Context `{MarketTimings}.

Lemma logAlertSettled_stored i now w pa :
  pendingLogs w !! i = Some pa ->
  store (logAlertSettled i true now w) = store w ++ [Log.with_id (nextId w) now (pa_alert pa)]
  /\ alerts (logAlertSettled i true now w)
     = take 100 (Log.with_id (S (nextId w)) now (pa_alert pa) :: alerts w)
  /\ user (logAlertSettled i true now w) = user w.
Proof.
  intros Hi. unfold logAlertSettled. rewrite Hi.
  unfold triggerAlert_resume, AlertService_logAlert.
  cbv zeta. cbn [fst snd].
  set (w0 := upd_pendingLogs (delete i) w).
  set (w1 := upd_store _ (upd_nextId S w0)).
  set (w3 := upd_inactiveSymbols _ _).
  destruct (playAlertSound_account (Tick.instrument_token (pa_tick pa)) (pa_config pa) w3)
    as [Ps Pu].
  destruct (playAlertSound_frame (Tick.instrument_token (pa_tick pa)) (pa_config pa) w3)
    as (_ & _ & _ & Pa & _).
  set (w4 := playAlertSound _ _ w3) in *.
  set (alert5 := Log.with_id (nextId w4) now (pa_alert pa)).
  destruct (showBrowserNotification_account alert5 (pa_config pa) (upd_nextId S w4)) as [Bs Bu].
  destruct (showBrowserNotification_frame alert5 (pa_config pa) (upd_nextId S w4))
    as (_ & _ & _ & Ba & _).
  set (w5 := showBrowserNotification alert5 _ _) in *.
  assert (store w5 = store w ++ [Log.with_id (nextId w) now (pa_alert pa)]
          /\ alerts w5 = take 100 (Log.with_id (S (nextId w)) now (pa_alert pa) :: alerts w)
          /\ user w5 = user w) as Hw5.
  { rewrite Bs, Ba, Bu. simpl. rewrite Ps, Pa, Pu. done. }
  by destruct (heap w5 !! pa_state pa).
Qed.

(** X17: the alert the hook caches after a successful [logAlert] carries an id
    of its own, not the id of the stored row: acknowledging the cached alert by
    its id succeeds and marks the cached copy, but changes no row of the
    store. *)
Theorem acknowledging_fresh_alert_misses_store (i : nat) (now tStore tCache : Z) (w : World)
  (pa : PendingAlert) (uid : string) :
  reachable w ->
  user w = Some uid ->
  pendingLogs w !! i = Some pa ->
  store (logAlertSettled i true now w)
  = store w ++ [Log.with_id (nextId w) now (pa_alert pa)]
  /\ head (alerts (logAlertSettled i true now w))
     = Some (Log.with_id (S (nextId w)) now (pa_alert pa))
  /\ snd (acknowledgeAlert (S (nextId w)) true tStore tCache (logAlertSettled i true now w))
     = true
  /\ store (fst (acknowledgeAlert (S (nextId w)) true tStore tCache
                   (logAlertSettled i true now w)))
     = store (logAlertSettled i true now w)
  /\ head (alerts (fst (acknowledgeAlert (S (nextId w)) true tStore tCache
                          (logAlertSettled i true now w))))
     = Some (Log.acknowledge tCache (Log.with_id (S (nextId w)) now (pa_alert pa))).
Proof.
  intros Hr Hu Hi. pose proof (reachable_Linked w Hr) as HL.
  destruct (logAlertSettled_stored i now w pa Hi) as (Hs & Ha & Hu').
  set (w1 := logAlertSettled i true now w) in *.
  split; [done|]. split; [by rewrite Ha|].
  unfold acknowledgeAlert, AlertService_acknowledgeAlert. rewrite Hu', Hu. cbn [fst snd].
  split; [done|]. split.
  - simpl. rewrite Hs. rewrite <- (map_id (store w ++ _)) at 2.
    apply map_ext_in. intros r Hin.
    assert (has_id (S (nextId w)) r = false) as ->; [|done].
    apply in_app_or in Hin as [Hin|[<-|[]]].
    + apply list_elem_of_In in Hin.
      destruct (linked_store w HL r Hin) as (j & Hj & Hlt).
      unfold has_id. rewrite Hj. apply Nat.eqb_neq. lia.
    + unfold has_id. simpl. apply Nat.eqb_neq. lia.
  - simpl. rewrite Ha. simpl. unfold has_id. simpl. by rewrite Nat.eqb_refl.
Qed.

End Cache.


(** ** A batch and the instruments it has no tick for *)

Lemma untouched_refl token w : untouched token w w.
Proof. by repeat split. Qed.

Lemma untouched_trans token w1 w2 w3 :
  untouched token w1 w2 -> untouched token w2 w3 -> untouched token w1 w3.
Proof.
  intros (A1 & A2 & A3) (B1 & B2 & B3). split; [congruence|]. split.
  - intros id tm Htok. rewrite (B2 id tm Htok). by apply A2.
  - by rewrite B3.
Qed.

Lemma map_set_In k v m kv : In kv (map_set k v m) -> kv = (k, v) \/ In kv m.
Proof.
  induction m as [|[k' v'] m IH]; simpl.
  - intros [<-|[]]. by left.
  - destruct (k =? k'); simpl.
    + intros [<-|Hin]; [by left | right; by right].
    + intros [<-|Hin]; [right; by left|]. destruct (IH Hin) as [?|?]; [by left | right; by right].
Qed.

Lemma latestTicks_from ticks kv : In kv (latestTicks ticks) -> In (snd kv) ticks.
Proof.
  unfold latestTicks.
  assert (forall m, In kv (fold_left latestTicks_step ticks m) ->
                    In (snd kv) ticks \/ In kv m) as Hgen.
  { induction ticks as [|tick ticks IH]; intros m; simpl; [by right|].
    intros Hin. destruct (IH _ Hin) as [?|Hstep]; [left; by right|].
    unfold latestTicks_step in Hstep.
    destruct (map_get (Tick.instrument_token tick) m) as [old|].
    - destruct (Tick.receivedAt tick >? Tick.receivedAt old); [|by right].
      apply map_set_In in Hstep as [->|?]; [left; by left | by right].
    - apply map_set_In in Hstep as [->|?]; [left; by left | by right]. }
  intros Hin. by destruct (Hgen [] Hin) as [?|[]].
Qed.

Lemma watchPrice_cases snap tick config l now w st :
  heap w !! l = Some st ->
  watchPrice snap tick config l now w
  = if priceMoved tick st config
    then rearm snap tick config l now (modify l (pruned tick now) w)
    else modify l (pruned tick now) w.
Proof.
  intros Hst. unfold watchPrice. rewrite modify_modify.
  set (w2 := modify l _ w).
  assert (heap w2 !! l = Some (pruned tick now st)) as ->.
  { subst w2. rewrite (heap_modify_Some _ _ _ st Hst). apply lookup_insert_eq. }
  by rewrite (priceMoved_baseline tick st (pruned tick now st) config).
Qed.

(** The timers and the inactive set after the [forEach] body on an existing object. *)
Lemma processExisting_exact snap tick config shouldAlert l st now w :
  symbolStates w !! Tick.instrument_token tick = Some l -> heap w !! l = Some st ->
  (timers (processExisting snap tick config shouldAlert l st now w) = timers w
   \/ timers (processExisting snap tick config shouldAlert l st now w)
      = cancelled (timerId st) (timers w)
   \/ timers (processExisting snap tick config shouldAlert l st now w)
      = <[nextId w := armedTimer tick config l now]> (cancelled (timerId st) (timers w)))
  /\ (inactiveSymbols (processExisting snap tick config shouldAlert l st now w)
      = inactiveSymbols w
      \/ inactiveSymbols (processExisting snap tick config shouldAlert l st now w)
         = inactiveSymbols w ∖ {[Tick.instrument_token tick]}).
Proof.
  intros Hsym Hst.
  destruct (processExisting_shape snap tick config shouldAlert l st now w Hst)
    as (g & Hg & _ & _ & ->).
  destruct (modify_fields l g w st Hst) as (Mh & Ms & Mt & Mn & Mi & Mp & Ml & Ma & Me).
  destruct (Hg st) as (Gb & Gt & Gh & Go).
  set (wX := modify l g w) in *.
  assert (symbolStates wX !! Tick.instrument_token tick = Some l) as HsymX by (by rewrite Ms).
  assert (forall w', w' = rearm snap tick config l now wX ->
            timers w' = <[nextId w := armedTimer tick config l now]>
                          (cancelled (timerId st) (timers w))
            /\ (inactiveSymbols w' = inactiveSymbols w
                \/ inactiveSymbols w' = inactiveSymbols w ∖ {[Tick.instrument_token tick]}))
    as Hrearm.
  { intros w' ->.
    destruct (rearm_spec snap tick config l now wX (g st) HsymX Mh)
      as (_ & Rt & _ & _ & Ri & _).
    split; [by rewrite Rt, Gt, Mt, Mn|]. rewrite Ri, Mi. case_decide; auto. }
  assert (forall w', w' = suspend (Tick.instrument_token tick) l wX ->
            timers w' = cancelled (timerId st) (timers w)
            /\ inactiveSymbols w' = inactiveSymbols w) as Hsuspend.
  { intros w' ->.
    destruct (suspend_spec (Tick.instrument_token tick) l wX (g st) HsymX Mh)
      as (_ & Rt & _ & _ & Ri & _).
    split; [by rewrite Rt, Gt, Mt | by rewrite Ri, Mi]. }
  destruct ((now - lastMarketStatusCheck st >? 60000)
            && negb (Bool.eqb (wasMarketOpen st) shouldAlert)).
  - destruct shouldAlert.
    + destruct (Hrearm _ eq_refl) as [-> ?]. auto.
    + destruct (Hsuspend _ eq_refl) as [-> ->]. auto.
  - destruct (negb shouldAlert && Config.respect_market_hours config).
    + destruct (Hsuspend _ eq_refl) as [-> ->]. auto.
    + rewrite (watchPrice_cases snap tick config l now wX (g st) Mh).
      destruct (priceMoved tick (g st) config).
      * destruct (modify_fields l (pruned tick now) wX (g st) Mh)
          as (Ph & Ps & Pt & Pn & Pi & _).
        set (wP := modify l (pruned tick now) wX) in *.
        assert (symbolStates wP !! Tick.instrument_token tick = Some l) as HsymP
            by (by rewrite Ps).
        destruct (rearm_spec snap tick config l now wP _ HsymP Ph)
          as (_ & Rt & _ & _ & Ri & _).
        split.
        -- right. right. rewrite Rt, Pt, Pn, Mt, Mn. simpl. by rewrite Gt.
        -- rewrite Ri, Pi, Mi. case_decide; auto.
      * destruct (modify_fields l (pruned tick now) wX (g st) Mh)
          as (_ & _ & Pt & _ & Pi & _).
        split; left; [by rewrite Pt, Mt | by rewrite Pi, Mi].
Qed.

Lemma clearSymbolState_exact token w :
  match getState token w with
  | Some (l, st) =>
      heap (clearSymbolState token w) = <[l := silenced st]> (heap w)
      /\ timers (clearSymbolState token w) = cancelled (timerId st) (timers w)
  | None =>
      heap (clearSymbolState token w) = heap w
      /\ timers (clearSymbolState token w) = timers w
  end
  /\ symbolStates (clearSymbolState token w) = delete token (symbolStates w)
  /\ forall t, t <> token ->
       (t ∈ inactiveSymbols (clearSymbolState token w) <-> t ∈ inactiveSymbols w).
Proof.
  destruct (clearSymbolState_gone token w) as (_ & Hs & _).
  split; [|split; [done|]].
  - unfold clearSymbolState. simpl.
    destruct (getState token w) as [[l st]|] eqn:Hg.
    + apply getState_Some in Hg as [Hsym Hst].
      set (w1 := match timerId st with Some id => clearTimeout id w | None => w end).
      assert (symbolStates w1 = symbolStates w /\ heap w1 = heap w
              /\ timers w1 = cancelled (timerId st) (timers w)) as (H1 & H2 & H3).
      { subst w1. by destruct (timerId st). }
      destruct (stopAlertSound_rest token w1) as (_ & St & _).
      rewrite St, H3. split; [|done].
      rewrite (stopAlertSound_heap token w1 l st) by (by rewrite ?H1, ?H2). by rewrite H2.
    + by rewrite (getState_None_stop token w Hg).
  - intros t Hne. unfold clearSymbolState. simpl.
    set (w1 := match getState token w with Some _ => _ | None => _ end).
    assert (inactiveSymbols w1 = inactiveSymbols w) as H1.
    { subst w1. destruct (getState token w) as [[l st]|]; [|done]. by destruct (timerId st). }
    destruct (stopAlertSound_rest token w1) as (_ & _ & Si & _). rewrite Si, H1.
    case_decide; [|done]. rewrite elem_of_difference, elem_of_singleton. tauto.
Qed.

(** Cancelling the timer of one instrument leaves the timers of the others. *)
Lemma cancelled_other w token l st id tm :
  Inv w -> Linked w -> Owned w ->
  symbolStates w !! token = Some l -> heap w !! l = Some st ->
  Tick.instrument_token (tm_tick tm) <> token ->
  cancelled (timerId st) (timers w) !! id = Some tm <-> timers w !! id = Some tm.
Proof.
  intros HI HL HO Hsym Hst Hne. unfold cancelled.
  destruct (timerId st) as [id0|] eqn:Hid0; [|done].
  split.
  - intros Hid. by apply lookup_delete_Some in Hid as [_ ?].
  - intros Hid. apply lookup_delete_Some. split; [|done]. intros <-.
    destruct (inv_timers w HI _ _ Hid) as [_ (st' & Hst' & Hti & _)].
    pose proof (linked_timers w HL _ _ Hid) as Hlk.
    assert (l = tm_state tm) as Heq by (by eapply (owned_timers w HO)).
    rewrite <- Heq in Hlk. apply Hne. by eapply (owned_states w HO).
Qed.

Lemma getState_other w w' token :
  Linked w ->
  symbolStates w' !! token = symbolStates w !! token ->
  (forall l, symbolStates w !! token = Some l -> heap w' !! l = heap w !! l) ->
  getState token w' = getState token w.
Proof.
  intros HL Hs Hh. unfold getState. rewrite Hs.
  destruct (symbolStates w !! token) as [l|] eqn:Hl; [|done]. by rewrite (Hh l).
Qed.

Section Batches.
Context `{MarketTimings}.

Lemma clearSymbolState_untouched token t w :
  Inv w -> Linked w -> Owned w -> token <> t ->
  untouched token w (clearSymbolState t w).
Proof.
  intros HI HL HO Hne.
  destruct (clearSymbolState_exact t w) as (Hcase & Hs & Hi).
  destruct (getState t w) as [[l st]|] eqn:Hg.
  - apply getState_Some in Hg as [Hsym Hst]. destruct Hcase as [Hh Ht].
    split; [|split; [|by apply Hi]].
    + apply getState_other; [done | rewrite Hs; by apply lookup_delete_ne|].
      intros l' Hl'. rewrite Hh. apply lookup_insert_ne. intros <-.
      apply Hne. by eapply (owned_states w HO).
    + intros id tm Htok. rewrite Ht.
      apply (cancelled_other w t l st); try done. by rewrite Htok.
  - destruct Hcase as [Hh Ht]. split; [|split; [|by apply Hi]].
    + apply getState_other; [done | rewrite Hs; by apply lookup_delete_ne|].
      intros l' _. by rewrite Hh.
    + intros id tm _. by rewrite Ht.
Qed.

Lemma processTick_untouched snap now tick w token :
  Inv w -> Linked w -> Owned w -> token <> Tick.instrument_token tick ->
  untouched token w (processTick snap now tick w).
Proof.
  intros HI HL HO Hne. unfold processTick.
  destruct (configurations w !! Tick.instrument_token tick) as [config|];
    [|by apply clearSymbolState_untouched].
  destruct (negb (Config.enabled config)); [by apply clearSymbolState_untouched|].
  destruct (noteSessionQuery_fields config (getInstrumentName tick) now w)
    as (Hs0 & Hh0 & Ht0 & Hn0 & Hi0 & _).
  pose proof (Inv_noteSessionQuery config (getInstrumentName tick) now w HI) as HI0.
  pose proof (Linked_keeps _ _ (keeps_noteSessionQuery config (getInstrumentName tick) now w) HL)
    as HL0.
  pose proof (Owned_tame _ _ (tame_noteSessionQuery config (getInstrumentName tick) now w) HO)
    as HO0.
  set (w0 := noteSessionQuery config (getInstrumentName tick) now w) in *.
  assert (untouched token w w0) as U0.
  { split; [|split]; [unfold getState; by rewrite Hs0, Hh0 | intros; by rewrite Ht0
                     | by rewrite Hi0]. }
  apply (untouched_trans token w w0); [exact U0|]. clear U0.
  destruct (getState (Tick.instrument_token tick) w0) as [[l st]|] eqn:Hg.
  - apply getState_Some in Hg as [Hsym Hst].
    destruct (processExisting_spec snap tick config
                (shouldAlertNow config (getInstrumentName tick) now) l st now w0 Hsym Hst)
      as (Eh & Es & _).
    destruct (processExisting_exact snap tick config
                (shouldAlertNow config (getInstrumentName tick) now) l st now w0 Hsym Hst)
      as (Et & Ei).
    set (w' := processExisting _ _ _ _ _ _ _ _) in *.
    split; [|split].
    + apply getState_other; [done | by rewrite Es|].
      intros l' Hl'. rewrite Eh. apply lookup_insert_ne. intros <-.
      apply Hne. by eapply (owned_states w0 HO0).
    + intros id tm Htok.
      assert (Tick.instrument_token (tm_tick tm) <> Tick.instrument_token tick) as Hne'
          by (by rewrite Htok).
      pose proof (cancelled_other w0 _ l st id tm HI0 HL0 HO0 Hsym Hst Hne') as Hc.
      destruct Et as [Et | [Et | Et]]; rewrite Et; [done | done|].
      rewrite <- Hc. split.
      * intros Hid. apply lookup_insert_Some in Hid as [[_ <-]|[_ ?]]; [|done].
        by destruct Hne'.
      * intros Hid. rewrite lookup_insert_ne; [done|]. intros <-.
        apply Hc in Hid. destruct (inv_timers w0 HI0 _ _ Hid) as [Hlt _]. lia.
    + destruct Ei as [Ei|Ei]; rewrite Ei; [done|].
      rewrite elem_of_difference, elem_of_singleton. tauto.
  - set (state := Build_SymbolState _ _ _ _ _ _ _).
    set (w1 := upd_symbolStates _ _).
    assert (untouched token w0 w1) as U1.
    { split; [|split]; [|done..].
      apply getState_other; [done | by apply lookup_insert_ne|].
      intros l' Hl'. simpl. apply lookup_insert_ne. intros <-.
      destruct (linked_states w0 HL0 _ _ Hl') as [st' Hst'].
      destruct (inv_heap w0 HI0 _ _ Hst') as [Hlt _]. lia. }
    destruct (shouldAlertNow _ _ _); [|done].
    apply (untouched_trans token w0 w1); [exact U1|].
    assert (heap w1 !! nextId w0 = Some state) as Hst1 by (simpl; apply lookup_insert_eq).
    destruct (resetInactivityTimer_spec tick config (nextId w0) now w1 state Hst1)
      as (Rh & Rt & _ & Rs & Ri & _).
    split; [|split].
    + unfold getState. rewrite Rs, Rh.
      destruct (symbolStates w1 !! token) as [l'|] eqn:Hl'; [|done].
      rewrite lookup_insert_ne; [done|]. intros <-. simpl in Hl'.
      rewrite lookup_insert_ne in Hl' by done.
      destruct (linked_states w0 HL0 _ _ Hl') as [st' Hst'].
      destruct (inv_heap w0 HI0 _ _ Hst') as [Hlt _]. lia.
    + intros id tm Htok. rewrite Rt. simpl. split.
      * intros Hid. apply lookup_insert_Some in Hid as [[_ <-]|[_ ?]]; [|done].
        simpl in Htok. by destruct Hne.
      * intros Hid. rewrite lookup_insert_ne; [done|]. intros <-.
        destruct (inv_timers w0 HI0 _ _ Hid) as [Hlt _]. lia.
    + by rewrite Ri.
Qed.

(** X18: a batch of ticks leaves alone every instrument it has no tick for:
    its state object, its pending timers and its membership of the inactive
    set are the same after the batch. *)
Theorem batch_touches_only_its_instruments (ticks : list TickData) (now : Z) (w : World)
  (token : Z) :
  reachable w ->
  (forall tick, tick ∈ ticks -> Tick.instrument_token tick <> token) ->
  getState token (processTicks ticks now w) = getState token w
  /\ (forall id tm, Tick.instrument_token (tm_tick tm) = token ->
        timers (processTicks ticks now w) !! id = Some tm <-> timers w !! id = Some tm)
  /\ (token ∈ inactiveSymbols (processTicks ticks now w) <-> token ∈ inactiveSymbols w).
Proof.
  intros Hr Hnot. change (untouched token w (processTicks ticks now w)).
  unfold processTicks. destruct (user w); [|apply untouched_refl].
  destruct (loading w); [apply untouched_refl|].
  generalize (inactiveSymbols w). intros snap.
  assert (forall kv, In kv (latestTicks ticks) -> token <> Tick.instrument_token (snd kv))
    as Hm.
  { intros kv Hin Heq. apply latestTicks_from, list_elem_of_In in Hin. by apply (Hnot _ Hin). }
  revert w Hr. induction (latestTicks ticks) as [|kv m IH]; intros w Hr; simpl;
    [apply untouched_refl|].
  apply (untouched_trans token w (processTick snap now (snd kv) w)).
  - apply processTick_untouched;
      [by apply reachable_Inv | by apply reachable_Linked | by apply reachable_Owned|].
    apply Hm. by left.
  - apply IH; [|by apply reachable_tick]. intros kv' Hin. apply Hm. by right.
Qed.

End Batches.


(** ** The queries of the alert log *)

Section Sorting.
Context {A : Type} (before : A -> A -> bool).

Lemma place_Permutation a l : Permutation (place before a l) (a :: l).
Proof.
  induction l as [|x l IH]; simpl; [done|].
  destruct (before a x); [done|]. rewrite IH. apply perm_swap.
Qed.

Lemma sorted_by_Permutation l : Permutation (sorted_by before l) l.
Proof.
  induction l as [|a l IH]; simpl; [done|].
  rewrite place_Permutation. by constructor.
Qed.

Hypothesis before_total : forall a b, before a b = false -> before b a = true.
Hypothesis before_trans : forall a b c, before a b = true -> before b c = true ->
  before a c = true.

Lemma place_sorted a l :
  StronglySorted (fun a b => before a b = true) l ->
  StronglySorted (fun a b => before a b = true) (place before a l).
Proof.
  induction 1 as [|x l Hs IH Hall]; simpl; [by repeat constructor|].
  destruct (before a x) eqn:Hax.
  - constructor; [by constructor|]. constructor; [done|].
    eapply Forall_impl; [exact Hall|]. intros y Hy. by eapply before_trans.
  - constructor; [done|].
    apply Forall_forall. intros y Hy. rewrite place_Permutation in Hy.
    apply elem_of_cons in Hy as [->|Hy]; [by apply before_total|].
    by apply (proj1 (Forall_forall _ _) Hall).
Qed.

Lemma sorted_by_sorted l : StronglySorted (fun a b => before a b = true) (sorted_by before l).
Proof.
  induction l as [|a l IH]; simpl; [constructor | by apply place_sorted].
Qed.

End Sorting.

Lemma newer_total a b : newer a b = false -> newer b a = true.
Proof.
  unfold newer. destruct (Log.created_at a), (Log.created_at b); try done.
  intros Hlt. apply Z.leb_le. apply Z.leb_gt in Hlt. lia.
Qed.

Lemma newer_trans a b c : newer a b = true -> newer b c = true -> newer a c = true.
Proof.
  unfold newer. destruct (Log.created_at a), (Log.created_at b), (Log.created_at c); try done.
  rewrite !Z.leb_le. lia.
Qed.

Lemma order_created_desc_Permutation rows : Permutation (order_created_desc rows) rows.
Proof. apply sorted_by_Permutation. Qed.

Lemma order_created_desc_sorted rows :
  StronglySorted (fun a b => newer a b = true) (order_created_desc rows).
Proof. apply sorted_by_sorted; [apply newer_total | apply newer_trans]. Qed.

Lemma matching_elem userId options w r :
  r ∈ matching userId options w <-> r ∈ store w /\ selected userId options r = true.
Proof.
  unfold matching. rewrite (order_created_desc_Permutation _).
  rewrite !list_elem_of_In, filter_In. done.
Qed.

Lemma matching_length userId options w :
  length (matching userId options w)
  = length (List.filter (selected userId options) (store w)).
Proof. unfold matching. by rewrite (order_created_desc_Permutation _). Qed.

Lemma StronglySorted_lookup {A} (R : A -> A -> Prop) (l : list A) i j a b :
  StronglySorted R l -> (i < j)%nat -> l !! i = Some a -> l !! j = Some b -> R a b.
Proof.
  intros Hs. revert i j. induction Hs as [|x l Hs IH Hall]; intros i j Hij Hi Hj; [done|].
  destruct j as [|j]; [lia|]. simpl in Hj. destruct i as [|i]; simpl in Hi.
  - injection Hi as <-. apply (proj1 (Forall_forall _ _) Hall). by eapply list_elem_of_lookup_2.
  - apply (IH i j); [lia | done | done].
Qed.

Lemma selected_spec userId options r :
  selected userId options r = true ->
  Log.user_id r = userId
  /\ (forall token, Options.instrumentToken options = Some token -> token <> 0 ->
        Log.instrument_token r = token)
  /\ (forall ty, Options.alertType options = Some ty -> ty <> EmptyString ->
        Log.alert_type r = ty)
  /\ (forall d, Options.startDate options = Some d ->
        exists c, Log.created_at r = Some c /\ d <= c)
  /\ (forall d, Options.endDate options = Some d ->
        exists c, Log.created_at r = Some c /\ c <= d)
  /\ (forall b, Options.acknowledged options = Some b -> Log.acknowledged r = b).
Proof.
  unfold selected. rewrite !andb_true_iff.
  intros (((((Hu & Ht) & Hty) & Hs) & He) & Ha).
  split; [by apply String.eqb_eq|]. split.
  { intros token Heq Hne. rewrite Heq in Ht.
    destruct (Z.eqb_spec token 0); [done|]. by apply Z.eqb_eq. }
  split.
  { intros ty Heq Hne. rewrite Heq in Hty.
    destruct (String.eqb_spec ty EmptyString); [done|]. by apply String.eqb_eq. }
  split.
  { intros d Heq. rewrite Heq in Hs. destruct (Log.created_at r) as [c|]; [|done].
    exists c. split; [done|]. by apply Z.leb_le. }
  split.
  { intros d Heq. rewrite Heq in He. destruct (Log.created_at r) as [c|]; [|done].
    exists c. split; [done|]. by apply Z.leb_le. }
  intros b Heq. rewrite Heq in Ha. by apply Bool.eqb_prop.
Qed.

Lemma window_lookup {A} (l : list A) from count i a :
  take count (drop from l) !! i = Some a -> l !! (from + i)%nat = Some a.
Proof.
  intros Hi. apply lookup_take_Some in Hi as [Hi _]. by rewrite lookup_drop in Hi.
Qed.

(** X19: what [getUserAlertLogs] answers when the store replies: the store is
    unchanged; every log returned is a row of the store, of that user, that
    passes the filter of every truthy option; at most [limit || 50] logs are
    returned, newest first; [total] is the number of all matching rows, not of
    the page.  When the store fails the answer is no log and a total of 0. *)
Theorem getUserAlertLogs_answers (userId : string) (options : Options.t) (w : World) :
  fst (AlertService_getUserAlertLogs true userId options w) = w
  /\ (forall r, r ∈ fst (snd (AlertService_getUserAlertLogs true userId options w)) ->
        r ∈ store w
        /\ Log.user_id r = userId
        /\ (forall token, Options.instrumentToken options = Some token -> token <> 0 ->
              Log.instrument_token r = token)
        /\ (forall ty, Options.alertType options = Some ty -> ty <> EmptyString ->
              Log.alert_type r = ty)
        /\ (forall d, Options.startDate options = Some d ->
              exists c, Log.created_at r = Some c /\ d <= c)
        /\ (forall d, Options.endDate options = Some d ->
              exists c, Log.created_at r = Some c /\ c <= d)
        /\ (forall b, Options.acknowledged options = Some b -> Log.acknowledged r = b))
  /\ (length (fst (snd (AlertService_getUserAlertLogs true userId options w)))
      <= or_default (Options.limit options) 50)%nat
  /\ snd (snd (AlertService_getUserAlertLogs true userId options w))
     = length (List.filter (selected userId options) (store w))
  /\ (forall i j a b x y, (i < j)%nat ->
        fst (snd (AlertService_getUserAlertLogs true userId options w)) !! i = Some a ->
        fst (snd (AlertService_getUserAlertLogs true userId options w)) !! j = Some b ->
        Log.created_at a = Some x -> Log.created_at b = Some y -> y <= x)
  /\ AlertService_getUserAlertLogs false userId options w
     = (upd_effects (cons (ConsoleError "Error fetching alert logs:")) w, ([], 0%nat)).
Proof.
  unfold AlertService_getUserAlertLogs. cbn [fst snd].
  split; [done|]. split; [|split; [|split; [|split; [|done]]]].
  - intros r Hr. apply subseteq_take, subseteq_drop, matching_elem in Hr as [Hin Hsel].
    split; [done|]. by apply selected_spec.
  - rewrite length_take. lia.
  - apply matching_length.
  - intros i j a b x y Hij Hi Hj Hx Hy.
    apply window_lookup in Hi, Hj.
    assert (newer a b = true) as Hn.
    { eapply (StronglySorted_lookup (fun a b => newer a b = true));
        [apply order_created_desc_sorted | | exact Hi | exact Hj]. lia. }
    unfold newer in Hn. rewrite Hx, Hy in Hn. by apply Z.leb_le.
Qed.

(** X20: an option that is falsy in JavaScript counts as absent: the
    instrument token 0 and the empty alert type add no filter, and a limit of 0
    means 50, as no limit does. *)
Theorem falsy_options_are_absent (ok : bool) (userId : string) (w : World)
  (limit offset : option nat) (token : option Z) (ty : option string)
  (startDate endDate : option Z) (acknowledged : option bool) :
  AlertService_getUserAlertLogs ok userId
    (Options.mk limit offset (Some 0) ty startDate endDate acknowledged) w
  = AlertService_getUserAlertLogs ok userId
      (Options.mk limit offset None ty startDate endDate acknowledged) w
  /\ AlertService_getUserAlertLogs ok userId
       (Options.mk limit offset token (Some EmptyString) startDate endDate acknowledged) w
     = AlertService_getUserAlertLogs ok userId
         (Options.mk limit offset token None startDate endDate acknowledged) w
  /\ AlertService_getUserAlertLogs ok userId
       (Options.mk (Some 0%nat) offset token ty startDate endDate acknowledged) w
     = AlertService_getUserAlertLogs ok userId
         (Options.mk (Some 50%nat) offset token ty startDate endDate acknowledged) w
  /\ AlertService_getUserAlertLogs ok userId
       (Options.mk None offset token ty startDate endDate acknowledged) w
     = AlertService_getUserAlertLogs ok userId
         (Options.mk (Some 50%nat) offset token ty startDate endDate acknowledged) w.
Proof. by repeat split. Qed.

Lemma pages_concat {A} (l : list A) (n k : nat) :
  concat (map (fun p => take n (drop (p * n) l)) (seq 0 k)) = take (k * n) l.
Proof.
  induction k as [|k IH]; [done|].
  rewrite seq_S, map_app, concat_app, IH. simpl. rewrite app_nil_r.
  rewrite take_take_drop. f_equal. lia.
Qed.

Lemma totalPages_covers (n : nat) : (n <= totalPages n * pageSize)%nat.
Proof.
  unfold totalPages, pageSize.
  pose proof (Nat.div_mod_eq (n + (25 - 1)) 25) as Hd.
  pose proof (Nat.mod_upper_bound (n + (25 - 1)) 25 ltac:(lia)) as Hm. lia.
Qed.

Lemma totalPages_tight (n p : nat) : (p < totalPages n)%nat -> (p * pageSize < n)%nat.
Proof.
  unfold totalPages, pageSize. intros Hp.
  pose proof (Nat.div_mod_eq (n + (25 - 1)) 25) as Hd.
  pose proof (Nat.mod_upper_bound (n + (25 - 1)) 25 ltac:(lia)) as Hm. nia.
Qed.

Lemma pageOptions_window currentPage filterType filterStatus w userId :
  AlertService_getUserAlertLogs true userId (pageOptions currentPage filterType filterStatus) w
  = (w, (take pageSize (drop (currentPage * pageSize)
                          (matching userId (pageOptions 0 filterType filterStatus) w)),
         length (matching userId (pageOptions 0 filterType filterStatus) w))).
Proof.
  unfold AlertService_getUserAlertLogs. cbn [pageOptions Options.limit Options.offset].
  assert (or_default (Some (currentPage * pageSize)%nat) 0 = (currentPage * pageSize)%nat) as ->.
  { unfold or_default. by destruct (currentPage * pageSize)%nat. }
  done.
Qed.

(** X21: the pages of the alert history, [totalPages] of them of 25 alerts
    each, read from a store that does not change, list every matching alert
    once, in order; every page reports the same total, and page [p] holds the
    alerts [p * 25 + 1] to [min ((p + 1) * 25) total], at least one. *)
Theorem history_pages_cover_matching_alerts (userId : string) (filterType filterStatus : string)
  (w : World) :
  concat (map (fun currentPage =>
                 fst (snd (AlertService_getUserAlertLogs true userId
                             (pageOptions currentPage filterType filterStatus) w)))
            (seq 0 (totalPages
                      (snd (snd (AlertService_getUserAlertLogs true userId
                                   (pageOptions 0 filterType filterStatus) w))))))
  = matching userId (pageOptions 0 filterType filterStatus) w
  /\ (forall currentPage,
        snd (snd (AlertService_getUserAlertLogs true userId
                    (pageOptions currentPage filterType filterStatus) w))
        = length (matching userId (pageOptions 0 filterType filterStatus) w))
  /\ (forall currentPage,
        (currentPage
         < totalPages (length (matching userId (pageOptions 0 filterType filterStatus) w)))%nat ->
        (currentPage * pageSize
         + length (fst (snd (AlertService_getUserAlertLogs true userId
                               (pageOptions currentPage filterType filterStatus) w)))
         = Nat.min ((currentPage + 1) * pageSize)
             (length (matching userId (pageOptions 0 filterType filterStatus) w)))%nat
        /\ (0 < length (fst (snd (AlertService_getUserAlertLogs true userId
                                    (pageOptions currentPage filterType filterStatus) w))))%nat).
Proof.
  set (rows := matching userId (pageOptions 0 filterType filterStatus) w).
  split; [|split].
  - rewrite (pageOptions_window 0). cbn [fst snd]. fold rows.
    erewrite map_ext; [|intros p; by rewrite (pageOptions_window p)].
    cbn [fst snd]. fold rows. rewrite pages_concat.
    apply take_ge. apply totalPages_covers.
  - intros p. by rewrite (pageOptions_window p).
  - intros p Hp. rewrite (pageOptions_window p). cbn [fst snd]. fold rows.
    apply totalPages_tight in Hp. rewrite length_take, length_drop.
    unfold pageSize in *. lia.
Qed.

Lemma loadRecentAlerts_ok w uid :
  user w = Some uid ->
  loadRecentAlerts true w
  = recentAlertsLoaded
      (take 50 (matching uid (Options.mk (Some 50%nat) None None None None None (Some false)) w))
      w.
Proof. intros Hu. unfold loadRecentAlerts. rewrite Hu. simpl. by rewrite drop_0. Qed.

(** X22: [loadRecentAlerts], when the store replies, caches at most 50 alerts,
    all of them unacknowledged rows of the user; the inactive set is the set
    of their instruments; and a user with at most 50 unacknowledged rows gets
    all of them.  When the store fails, the cache and the inactive set are
    emptied; state objects and timers are untouched. *)
Theorem loadRecentAlerts_loads_unacknowledged (w : World) (uid : string) :
  user w = Some uid ->
  (length (alerts (loadRecentAlerts true w)) <= 50)%nat
  /\ (forall r, r ∈ alerts (loadRecentAlerts true w) ->
        r ∈ store w /\ Log.user_id r = uid /\ Log.acknowledged r = false)
  /\ (forall token, token ∈ inactiveSymbols (loadRecentAlerts true w)
        <-> exists r, r ∈ alerts (loadRecentAlerts true w) /\ Log.instrument_token r = token)
  /\ ((length (List.filter (fun r => String.eqb (Log.user_id r) uid
                                     && negb (Log.acknowledged r)) (store w)) <= 50)%nat ->
      forall r, r ∈ store w -> Log.user_id r = uid -> Log.acknowledged r = false ->
        r ∈ alerts (loadRecentAlerts true w))
  /\ alerts (loadRecentAlerts false w) = []
  /\ inactiveSymbols (loadRecentAlerts false w) = ∅
  /\ heap (loadRecentAlerts false w) = heap w
  /\ timers (loadRecentAlerts false w) = timers w.
Proof.
  intros Hu. rewrite (loadRecentAlerts_ok w uid Hu).
  set (options := Options.mk (Some 50%nat) None None None None None (Some false)).
  set (logs := take 50 (matching uid options w)).
  assert (forall r, r ∈ logs ->
            r ∈ store w /\ Log.user_id r = uid /\ Log.acknowledged r = false) as Hlogs.
  { intros r Hr. apply subseteq_take, matching_elem in Hr as [Hin Hsel].
    destruct (selected_spec uid options r Hsel) as (Hu' & _ & _ & _ & _ & Ha).
    split; [done|]. split; [done|]. by apply Ha. }
  assert (forall r, selected uid options r
                    = String.eqb (Log.user_id r) uid && negb (Log.acknowledged r)) as Hsel.
  { intros r. unfold selected, options. simpl. rewrite !andb_true_r.
    by destruct (Log.acknowledged r). }
  destruct (recentAlertsLoaded_shape logs w uid Hu) as (Ha & Hi & _).
  rewrite Ha. split; [subst logs; rewrite length_take; lia|]. split; [done|]. split.
  { intros token. rewrite (Hi token). split.
    - intros (r & Hin & _ & Htok). by exists r.
    - intros (r & Hin & Htok). exists r. split; [done|]. split; [|done].
      by destruct (Hlogs r Hin) as (_ & _ & ?). }
  split.
  { intros Hfew r Hin Hu' Hack. subst logs. rewrite take_ge.
    - apply matching_elem. split; [done|]. rewrite Hsel, Hu', Hack.
      by rewrite String.eqb_refl.
    - rewrite matching_length. erewrite filter_ext; [exact Hfew|]. intros r'. apply Hsel. }
  unfold loadRecentAlerts. rewrite Hu. simpl. unfold recentAlertsLoaded. simpl.
  by rewrite Hu.
Qed.

(** X23: [AlertService.acknowledgeAllAlerts] keeps the number of rows, leaves
    no unacknowledged row of the user, leaves every row of another user and
    every row already acknowledged as it is ([acknowledged_at] included), stamps
    each unacknowledged row of the user with the time of the call, and a
    second call changes nothing.  When the store fails no row changes. *)
Theorem acknowledgeAllAlerts_store (now : Z) (userId : string) (w : World) :
  length (store (fst (AlertService_acknowledgeAllAlerts true now userId w))) = length (store w)
  /\ (forall r, r ∈ store (fst (AlertService_acknowledgeAllAlerts true now userId w)) ->
        Log.user_id r = userId -> Log.acknowledged r = true)
  /\ (forall i r, store w !! i = Some r ->
        Log.user_id r <> userId \/ Log.acknowledged r = true ->
        store (fst (AlertService_acknowledgeAllAlerts true now userId w)) !! i = Some r)
  /\ (forall i r, store w !! i = Some r ->
        Log.user_id r = userId -> Log.acknowledged r = false ->
        store (fst (AlertService_acknowledgeAllAlerts true now userId w)) !! i
        = Some (Log.acknowledge now r))
  /\ (forall later,
        store (fst (AlertService_acknowledgeAllAlerts true later userId
                      (fst (AlertService_acknowledgeAllAlerts true now userId w))))
        = store (fst (AlertService_acknowledgeAllAlerts true now userId w)))
  /\ store (fst (AlertService_acknowledgeAllAlerts false now userId w)) = store w.
Proof.
  unfold AlertService_acknowledgeAllAlerts. cbn [fst snd]. simpl.
  split; [by rewrite length_map|]. split; [|split; [|split; [|split; [|done]]]].
  - intros r Hr Hu. apply list_elem_of_fmap in Hr as (r0 & -> & Hr0).
    destruct (String.eqb (Log.user_id r0) userId && negb (Log.acknowledged r0)) eqn:Hc;
      [done|].
    apply andb_false_iff in Hc as [Hc|Hc].
    + apply String.eqb_neq in Hc. done.
    + by apply negb_false_iff in Hc.
  - intros i r Hi Hcase. rewrite list_lookup_fmap, Hi. simpl. f_equal.
    destruct Hcase as [Hne|Hack].
    + apply String.eqb_neq in Hne. by rewrite Hne.
    + by rewrite Hack, andb_false_r.
  - intros i r Hi Hu Hack. rewrite list_lookup_fmap, Hi. simpl.
    by rewrite Hu, Hack, String.eqb_refl.
  - intros later. rewrite map_map. apply map_ext. intros r.
    destruct (String.eqb (Log.user_id r) userId && negb (Log.acknowledged r)) eqn:Hc; [|by rewrite Hc].
    simpl. by rewrite andb_false_r.
Qed.


(** ** The statistics *)

Lemma bump_keys name acc :
  map fst (bump name acc) = map fst acc \/
  ((name ∉ map fst acc) /\ map fst (bump name acc) = map fst acc ++ [name]).
Proof.
  induction acc as [|[k c] acc IH]; simpl.
  - right. split; [apply not_elem_of_nil | done].
  - destruct (String.eqb_spec k name) as [->|Hne]; simpl; [by left|].
    destruct IH as [->|[Hnot ->]]; [by left|]. right. split; [|done].
    intros Hin. apply elem_of_cons in Hin as [?|?]; [congruence | done].
Qed.

Lemma bump_elem name acc k c :
  NoDup (map fst acc) ->
  (k, c) ∈ bump name acc
  <-> (k <> name /\ (k, c) ∈ acc)
      \/ (k = name /\ ((exists c0, (name, c0) ∈ acc /\ c = S c0)
                       \/ ((name ∉ map fst acc) /\ c = 1%nat))).
Proof.
  induction acc as [|[k0 c0] acc IH]; simpl; intros Hnd.
  - rewrite list_elem_of_singleton. split.
    + intros [= -> ->]. right. split; [done|]. right. split; [apply not_elem_of_nil | done].
    + intros [[_ Hin]|[-> [(c1 & Hin & _)|[_ ->]]]]; try done; by apply elem_of_nil in Hin.
  - apply NoDup_cons in Hnd as [Hk0 Hnd]. specialize (IH Hnd).
    assert (forall c', (k0, c') ∈ acc -> False) as Hfresh.
    { intros c' Hin. apply Hk0. apply list_elem_of_fmap. by exists (k0, c'). }
    destruct (String.eqb_spec k0 name) as [->|Hne].
    + split.
      * intros Hin. apply elem_of_cons in Hin as [Heq|Hin].
        -- injection Heq as -> ->. right. split; [done|]. left. exists c0.
           split; [by left | done].
        -- left. split; [|by right]. intros ->. by apply (Hfresh c).
      * intros [[Hk Hin]|[-> Hcase]].
        -- apply elem_of_cons in Hin as [Heq|Hin]; [congruence | by right].
        -- destruct Hcase as [(c1 & Hin & ->)|[Hnot _]].
           ++ apply elem_of_cons in Hin as [Heq|Hin]; [injection Heq as ->; by left|].
              by destruct (Hfresh c1).
           ++ destruct Hnot. by left.
    + split.
      * intros Hin. apply elem_of_cons in Hin as [Heq|Hin].
        -- injection Heq as -> ->. left. split; [done | by left].
        -- apply IH in Hin as [[Hk Hin]|[-> Hcase]].
           ++ left. split; [done | by right].
           ++ right. split; [done|]. destruct Hcase as [(c1 & Hin & ->)|[Hnot ->]].
              ** left. exists c1. split; [by right | done].
              ** right. split; [|done]. intros Hin.
                 apply elem_of_cons in Hin as [?|?]; [congruence | done].
      * intros [[Hk Hin]|[-> Hcase]].
        -- apply elem_of_cons in Hin as [Heq|Hin]; [rewrite Heq; by left|].
           right. apply IH. left. done.
        -- right. apply IH. right. split; [done|].
           destruct Hcase as [(c1 & Hin & ->)|[Hnot ->]].
           ++ left. exists c1. split; [|done].
              apply elem_of_cons in Hin as [Heq|Hin]; [congruence | done].
           ++ right. split; [|done]. intros Hin. apply Hnot. by right.
Qed.

(** What the accumulator of the reducer holds after the names [seen]. *)
Lemma instrumentCounts_invariant names acc seen :
  NoDup (map fst acc) ->
  (forall k c, (k, c) ∈ acc <-> c = count_occ string_dec seen k /\ (0 < c)%nat) ->
  NoDup (map fst (fold_left (fun acc name => bump name acc) names acc))
  /\ forall k c, (k, c) ∈ fold_left (fun acc name => bump name acc) names acc
       <-> c = count_occ string_dec (seen ++ names) k /\ (0 < c)%nat.
Proof.
  revert acc seen. induction names as [|name names IH]; intros acc seen Hnd Hacc; simpl.
  - by rewrite app_nil_r.
  - replace (seen ++ name :: names) with ((seen ++ [name]) ++ names)
      by (by rewrite <- app_assoc).
    apply IH.
    + destruct (bump_keys name acc) as [->|[Hnot ->]]; [done|].
      apply NoDup_app. split; [done|]. split; [|apply NoDup_singleton].
      intros x Hx Hin. apply list_elem_of_singleton in Hin as ->. done.
    + intros k c. rewrite (bump_elem name acc k c Hnd), count_occ_app. simpl.
      destruct (string_dec name k) as [->|Hne].
      * split.
        -- intros [[? _]|[_ [(c0 & Hin & ->)|[Hnot ->]]]]; [done| |].
           ++ apply Hacc in Hin as [-> ?]. lia.
           ++ assert (count_occ string_dec seen k = 0)%nat as ->; [|lia].
              destruct (count_occ string_dec seen k) as [|n] eqn:Hc; [done|].
              destruct Hnot. apply list_elem_of_fmap. exists (k, S n).
              split; [done|]. apply Hacc. split; [done | lia].
        -- intros [-> _]. right. split; [done|].
           destruct (count_occ string_dec seen k) as [|n] eqn:Hc.
           ++ right. split; [|done]. intros Hin.
              apply list_elem_of_fmap in Hin as ([k' c'] & Heq & Hin). simpl in Heq. subst k'.
              apply Hacc in Hin as [-> Hpos]. lia.
           ++ left. exists (S n). split; [|lia]. apply Hacc. split; [done | lia].
      * rewrite Nat.add_0_r. split.
        -- intros [[_ Hin]|[? _]]; [by apply Hacc | congruence].
        -- intros Hc. left. split; [congruence | by apply Hacc].
Qed.

Lemma instrumentCounts_spec names :
  NoDup (map fst (instrumentCounts names))
  /\ forall k c, (k, c) ∈ instrumentCounts names
       <-> c = count_occ string_dec names k /\ (0 < c)%nat.
Proof.
  apply (instrumentCounts_invariant names [] []); [constructor|].
  intros k c. simpl. split; [intros Hin; by apply elem_of_nil in Hin | lia].
Qed.

Lemma filter_split {A} (p : A -> bool) (l : list A) :
  Permutation (List.filter p l ++ List.filter (fun x => negb (p x)) l) l.
Proof.
  induction l as [|x l IH]; simpl; [done|].
  destruct (p x); simpl; [by constructor|].
  rewrite <- Permutation_middle. by constructor.
Qed.

Lemma Object_entries_Permutation o : Permutation (Object_entries o) o.
Proof. unfold Object_entries. rewrite sorted_by_Permutation. apply filter_split. Qed.

Lemma more_counted_total a b : more_counted a b = false -> more_counted b a = true.
Proof. unfold more_counted. rewrite Nat.leb_gt, Nat.leb_le. lia. Qed.

Lemma more_counted_trans a b c :
  more_counted a b = true -> more_counted b c = true -> more_counted a c = true.
Proof. unfold more_counted. rewrite !Nat.leb_le. lia. Qed.

(** X24: [topAlertingInstruments] of [getAlertStatistics], unless one of the
    names is a property name inherited from [Object.prototype]: at most five
    entries, of distinct names, each with the number of occurrences of its
    name in the reply, at least one, in descending order of count; a name of
    the reply that is left out occurs no more often than any entry, and is
    left out only when there are five entries. *)
Theorem topAlertingInstruments_ranks (total unacknowledged today week : option nat)
  (names : list string) :
  match getAlertStatistics total unacknowledged today week (Some names) with
  | None => exists name, name ∈ names /\ name ∈ inherited
  | Some stats =>
      (length (topAlertingInstruments stats) <= 5)%nat
      /\ NoDup (map fst (topAlertingInstruments stats))
      /\ (forall name c, (name, c) ∈ topAlertingInstruments stats ->
            c = count_occ string_dec names name /\ (0 < c)%nat)
      /\ (forall i j a b, (i < j)%nat ->
            topAlertingInstruments stats !! i = Some a ->
            topAlertingInstruments stats !! j = Some b -> (snd b <= snd a)%nat)
      /\ (forall name, name ∈ names -> name ∉ map fst (topAlertingInstruments stats) ->
            length (topAlertingInstruments stats) = 5%nat
            /\ forall e, e ∈ topAlertingInstruments stats ->
                 (count_occ string_dec names name <= snd e)%nat)
  end.
Proof.
  unfold getAlertStatistics. cbn [default from_option id].
  destruct (existsb (fun name => existsb (String.eqb name) inherited) names) eqn:Hbad.
  - cbv beta iota. apply existsb_exists in Hbad as (name & Hin & Hinh).
    apply existsb_exists in Hinh as (x & Hx & Heq). apply String.eqb_eq in Heq as <-.
    exists name. by rewrite !list_elem_of_In.
  - cbv beta iota. cbn [topAlertingInstruments]. clear Hbad.
    destruct (instrumentCounts_spec names) as [Hnd Hcount].
    set (ranked := sorted_by more_counted (Object_entries (instrumentCounts names))).
    assert (Permutation ranked (instrumentCounts names)) as Hperm.
    { subst ranked. rewrite sorted_by_Permutation. apply Object_entries_Permutation. }
    assert (StronglySorted (fun a b => more_counted a b = true) ranked) as Hsorted.
    { apply sorted_by_sorted; [apply more_counted_total | apply more_counted_trans]. }
    assert (NoDup (map fst ranked)) as Hnd'.
    { by rewrite (Permutation_map fst Hperm). }
    split; [rewrite length_take; lia|]. split.
    { change (map fst (take 5 ranked)) with (fst <$> take 5 ranked).
      rewrite fmap_take. exact (sublist_NoDup _ _ Hnd' (sublist_take _ 5)). }
    split.
    { intros name c Hin. apply subseteq_take in Hin. rewrite Hperm in Hin.
      by apply Hcount. }
    split.
    { intros i j a b Hij Hi Hj.
      apply lookup_take_Some in Hi as [Hi _]. apply lookup_take_Some in Hj as [Hj _].
      pose proof (StronglySorted_lookup (fun a b => more_counted a b = true)
                    ranked i j a b Hsorted Hij Hi Hj) as Hab.
      by apply Nat.leb_le in Hab. }
    intros name Hin Hnot.
    assert ((name, count_occ string_dec names name) ∈ ranked) as Hranked.
    { rewrite Hperm. apply Hcount. split; [done|].
      apply list_elem_of_In in Hin. by apply (count_occ_In string_dec). }
    apply list_elem_of_lookup in Hranked as [j Hj].
    assert (5 <= j)%nat as Hj5.
    { destruct (decide (j < 5)%nat) as [Hlt|]; [|lia]. destruct Hnot.
      apply list_elem_of_fmap. exists (name, count_occ string_dec names name).
      split; [done|]. apply list_elem_of_lookup. exists j. by apply lookup_take_Some. }
    pose proof (lookup_lt_Some _ _ _ Hj) as Hlen.
    split; [rewrite length_take; lia|].
    intros e He. apply list_elem_of_lookup in He as [i Hi].
    apply lookup_take_Some in Hi as [Hi Hi5].
    assert (more_counted e (name, count_occ string_dec names name) = true) as Hab.
    { apply (StronglySorted_lookup (fun a b => more_counted a b = true) ranked i j);
        [exact Hsorted | lia | done | done]. }
    by apply Nat.leb_le in Hab.
Qed.


(** ** The properties above on the runs of the examples *)

Lemma reachable_mounted_any `{MarketTimings} respect : reachable (mounted respect).
Proof.
  apply (reachable_step 0 (ConfigurationsLoaded [config101 respect])). apply reachable_initial.
Qed.

Lemma reachable_watchingUntil close : @reachable (closesAt close) (watchingUntil close).
Proof.
  apply (@reachable_step (closesAt close) 0 (Ticks [tick101 (100 # 1) 0])).
  apply reachable_mounted_any.
Qed.

Lemma mounted_configuration respect :
  configurations (mounted respect) !! Tick.instrument_token firstTick = Some (config101 respect).
Proof. destruct respect; vm_compute; reflexivity. Qed.

Lemma mounted_getState respect : getState (Tick.instrument_token firstTick) (mounted respect) = None.
Proof. destruct respect; vm_compute; reflexivity. Qed.

Lemma mounted_user respect : user (mounted respect) = Some "u1"%string.
Proof. destruct respect; vm_compute; reflexivity. Qed.

Lemma scenario_without_202 config :
  configurations scenario !! Tick.instrument_token otherTick = Some config ->
  Config.enabled config = false.
Proof.
  assert (configurations scenario !! Tick.instrument_token otherTick = None) as ->
    by (vm_compute; reflexivity).
  discriminate.
Qed.

Lemma otherTick_other tick : tick ∈ [otherTick] -> Tick.instrument_token tick <> 101.
Proof. intros Hin. apply list_elem_of_singleton in Hin as ->. discriminate. Qed.

Lemma watching_configuration tick :
  Tick.instrument_token tick = 101 ->
  configurations (watchingUntil 5000) !! Tick.instrument_token tick = Some (config101 true).
Proof. intros ->. vm_compute. reflexivity. Qed.

Lemma watching_getState :
  getState (Tick.instrument_token lateTick) (watchingUntil 5000) = Some (1%nat, armed101).
Proof. vm_compute. reflexivity. Qed.

Lemma watching_timer :
  timers (watchingUntil 5000) !! 2%nat = Some (armedTimer firstTick (config101 true) 1%nat 0).
Proof. vm_compute. reflexivity. Qed.



Lemma scenario_quiet_configuration :
  configurations scenario !! Tick.instrument_token quietTick = Some (config101 false).
Proof. vm_compute. reflexivity. Qed.

Lemma scenario_quiet_getState :
  getState (Tick.instrument_token quietTick) scenario = Some (1%nat, state101).
Proof. vm_compute. reflexivity. Qed.

Lemma quietTick_quiet : priceMoved quietTick state101 (config101 false) = false.
Proof. vm_compute. reflexivity. Qed.

Lemma sounding_audio : audioContext sounding = true.
Proof. vm_compute. reflexivity. Qed.

Lemma sounding_getState : getState 101 sounding = Some (1%nat, sounding101).
Proof. vm_compute. reflexivity. Qed.

Lemma fired_user : user fired = Some "u1"%string.
Proof. vm_compute. reflexivity. Qed.

Lemma persisted_user : user persisted = Some "u1"%string.
Proof. vm_compute. reflexivity. Qed.

Lemma clearSymbolState_destroys_witness :
  @reachable alwaysOpen scenario
  /\ getState 101 (clearSymbolState 101 scenario) = None.
Proof.
  apply conj; [exact reachable_scenario|].
  exact (proj1 (@clearSymbolState_destroys alwaysOpen 101 scenario reachable_scenario)).
Defined.

Lemma tick_without_enabled_configuration_witness :
  @reachable alwaysOpen scenario
  /\ (forall config, configurations scenario !! Tick.instrument_token otherTick = Some config ->
        Config.enabled config = false)
  /\ getState (Tick.instrument_token otherTick)
       (@processTick alwaysOpen ∅ 11000 otherTick scenario) = None.
Proof.
  apply conj; [exact reachable_scenario|]. apply conj; [exact scenario_without_202|].
  exact (proj1 (@tick_without_enabled_configuration alwaysOpen ∅ 11000 otherTick scenario
                  reachable_scenario scenario_without_202)).
Defined.

Lemma first_tick_creates_state_witness :
  @reachable alwaysOpen (mounted false)
  /\ configurations (mounted false) !! Tick.instrument_token firstTick = Some (config101 false)
  /\ Config.enabled (config101 false) = true
  /\ getState (Tick.instrument_token firstTick) (mounted false) = None
  /\ exists st,
       getState (Tick.instrument_token firstTick)
         (@processTick alwaysOpen ∅ 0 firstTick (mounted false))
       = Some (nextId (mounted false), st)
       /\ baselinePrice st = Tick.last_price firstTick.
Proof.
  apply conj; [exact (reachable_mounted false)|].
  apply conj; [exact (mounted_configuration false)|].
  apply conj; [reflexivity|]. apply conj; [exact (mounted_getState false)|].
  destruct (@first_tick_creates_state alwaysOpen ∅ 0 firstTick (mounted false) (config101 false)
              (reachable_mounted false) (mounted_configuration false) eq_refl
              (mounted_getState false)) as (st & Hg & Hb & _).
  exists st. exact (conj Hg Hb).
Defined.

Lemma ineligible_tick_suspends_witness :
  @reachable (closesAt 5000) (watchingUntil 5000)
  /\ configurations (watchingUntil 5000) !! Tick.instrument_token lateTick
     = Some (config101 true)
  /\ Config.enabled (config101 true) = true
  /\ getState (Tick.instrument_token lateTick) (watchingUntil 5000) = Some (1%nat, armed101)
  /\ @shouldAlertNow (closesAt 5000) (config101 true)
       (@getInstrumentName (closesAt 5000) lateTick) 10000 = false
  /\ exists st',
       getState (Tick.instrument_token lateTick)
         (@processTick (closesAt 5000) ∅ 10000 lateTick (watchingUntil 5000))
       = Some (1%nat, st')
       /\ timerId st' = None.
Proof.
  apply conj; [exact (reachable_watchingUntil 5000)|].
  apply conj; [exact (watching_configuration lateTick eq_refl)|].
  apply conj; [reflexivity|]. apply conj; [exact watching_getState|].
  apply conj; [reflexivity|].
  destruct (@ineligible_tick_suspends (closesAt 5000) ∅ 10000 lateTick (watchingUntil 5000)
              (config101 true) 1%nat armed101 (reachable_watchingUntil 5000)
              (watching_configuration lateTick eq_refl) eq_refl watching_getState eq_refl)
    as (st' & Hg & Ht & _).
  exists st'. exact (conj Hg Ht).
Defined.


Lemma quiet_tick_keeps_deadline_witness :
  configurations scenario !! Tick.instrument_token quietTick = Some (config101 false)
  /\ Config.enabled (config101 false) = true
  /\ getState (Tick.instrument_token quietTick) scenario = Some (1%nat, state101)
  /\ @shouldAlertNow alwaysOpen (config101 false) (@getInstrumentName alwaysOpen quietTick)
       20000 = true
  /\ (20000 - lastMarketStatusCheck state101 <= 60000 \/ wasMarketOpen state101 = true)
  /\ priceMoved quietTick state101 (config101 false) = false
  /\ exists st',
       getState (Tick.instrument_token quietTick)
         (@processTick alwaysOpen ∅ 20000 quietTick scenario) = Some (1%nat, st')
       /\ baselinePrice st' = baselinePrice state101
       /\ timerId st' = timerId state101.
Proof.
  apply conj; [exact scenario_quiet_configuration|]. apply conj; [reflexivity|].
  apply conj; [exact scenario_quiet_getState|]. apply conj; [reflexivity|].
  apply conj; [exact (or_intror eq_refl)|]. apply conj; [exact quietTick_quiet|].
  destruct (@quiet_tick_keeps_deadline alwaysOpen ∅ 20000 quietTick scenario (config101 false)
              1%nat state101 scenario_quiet_configuration eq_refl scenario_quiet_getState
              eq_refl (or_intror eq_refl) quietTick_quiet)
    as (st' & Hg & Hb & Ht & _).
  exists st'. exact (conj Hg (conj Hb Ht)).
Defined.

Lemma timeout_outside_session_drops_state_witness :
  @reachable (closesAt 5000) (watchingUntil 5000)
  /\ timers (watchingUntil 5000) !! 2%nat = Some (armedTimer firstTick (config101 true) 1%nat 0)
  /\ @shouldAlertNow (closesAt 5000)
       (tm_config (armedTimer firstTick (config101 true) 1%nat 0))
       (@getInstrumentName (closesAt 5000)
          (tm_tick (armedTimer firstTick (config101 true) 1%nat 0))) 30000 = false
  /\ getState (Tick.instrument_token (tm_tick (armedTimer firstTick (config101 true) 1%nat 0)))
       (@timeout (closesAt 5000) 2 30000 (watchingUntil 5000)) = None.
Proof.
  apply conj; [exact (reachable_watchingUntil 5000)|]. apply conj; [exact watching_timer|].
  apply conj; [reflexivity|].
  exact (proj1 (@timeout_outside_session_drops_state (closesAt 5000) 30000 2%nat
                  (watchingUntil 5000) (armedTimer firstTick (config101 true) 1%nat 0)
                  (reachable_watchingUntil 5000) watching_timer eq_refl)).
Defined.

Lemma pending_timer_is_the_state_timer_witness :
  @reachable alwaysOpen scenario
  /\ timers scenario !! 2%nat = Some timer2
  /\ forall id' tm', timers scenario !! id' = Some tm' ->
       Tick.instrument_token (tm_tick tm') = Tick.instrument_token (tm_tick timer2) ->
       id' = 2%nat.
Proof.
  apply conj; [exact reachable_scenario|]. apply conj; [exact scenario_timer|].
  exact (proj2 (@pending_timer_is_the_state_timer alwaysOpen scenario 2%nat timer2
                  reachable_scenario scenario_timer)).
Defined.

Lemma first_tick_then_silence_alerts_witness :
  @reachable alwaysOpen (mounted false)
  /\ user (mounted false) = Some "u1"%string
  /\ configurations (mounted false) !! Tick.instrument_token firstTick = Some (config101 false)
  /\ Config.enabled (config101 false) = true
  /\ getState (Tick.instrument_token firstTick) (mounted false) = None
  /\ @shouldAlertNow alwaysOpen (config101 false) (@getInstrumentName alwaysOpen firstTick) 0
     = true
  /\ @shouldAlertNow alwaysOpen (config101 false) (@getInstrumentName alwaysOpen firstTick)
       30000 = true
  /\ exists pa,
       pendingLogs (@timeout alwaysOpen (S (nextId (mounted false))) 30000
                      (@processTick alwaysOpen ∅ 0 firstTick (mounted false)))
       = pendingLogs (mounted false) ++ [pa]
       /\ pa_state pa = nextId (mounted false).
Proof.
  apply conj; [exact (reachable_mounted false)|]. apply conj; [exact (mounted_user false)|].
  apply conj; [exact (mounted_configuration false)|]. apply conj; [reflexivity|].
  apply conj; [exact (mounted_getState false)|]. apply conj; [reflexivity|].
  apply conj; [reflexivity|].
  destruct (@first_tick_then_silence_alerts alwaysOpen ∅ 0 30000 firstTick (mounted false)
              (config101 false) "u1" (reachable_mounted false) (mounted_user false)
              (mounted_configuration false) eq_refl (mounted_getState false) eq_refl eq_refl)
    as (pa & Hp & Hs & _).
  exists pa. exact (conj Hp Hs).
Defined.

Lemma playAlertSound_restarts_witness :
  Config.notification_sound (config101 false) = true
  /\ audioContext sounding = true
  /\ getState 101 sounding = Some (1%nat, sounding101)
  /\ exists st',
       getState 101 (playAlertSound 101 (config101 false) sounding) = Some (1%nat, st')
       /\ oscillator st' = Some (nextId sounding).
Proof.
  apply conj; [reflexivity|]. apply conj; [exact sounding_audio|].
  apply conj; [exact sounding_getState|].
  destruct (playAlertSound_restarts 101 (config101 false) sounding 1%nat sounding101
              eq_refl sounding_audio sounding_getState) as (st' & Hg & Ho & _).
  exists st'. exact (conj Hg Ho).
Defined.

Lemma sound_without_state_cannot_be_stopped_witness :
  Config.notification_sound (config101 false) = true
  /\ audioContext (initAudio (mounted false)) = true
  /\ getState 101 (initAudio (mounted false)) = None
  /\ playing (playAlertSound 101 (config101 false) (initAudio (mounted false)))
     = {[nextId (initAudio (mounted false))]} ∪ playing (initAudio (mounted false)).
Proof.
  apply conj; [reflexivity|]. apply conj; [reflexivity|].
  apply conj; [exact (mounted_getState false)|].
  exact (proj1 (sound_without_state_cannot_be_stopped 101 (config101 false)
                  (initAudio (mounted false)) eq_refl eq_refl (mounted_getState false))).
Defined.

Lemma notification_waits_for_permission_witness :
  Config.notification_browser (config101 false) = true
  /\ notificationPermission (initial "u1" Default) = Default
  /\ effects (showBrowserNotification (pa_alert firedAlert) (config101 false)
                (initial "u1" Default))
     = effects (initial "u1" Default).
Proof.
  apply conj; [reflexivity|]. apply conj; [reflexivity|].
  exact (proj1 (notification_waits_for_permission (pa_alert firedAlert) (config101 false)
                  (initial "u1" Default) Granted eq_refl eq_refl)).
Defined.

Lemma recentAlertsLoaded_inactive_witness :
  user persisted = Some "u1"%string
  /\ alerts (recentAlertsLoaded (store persisted) persisted) = store persisted.
Proof.
  apply conj; [exact persisted_user|].
  exact (proj1 (recentAlertsLoaded_inactive (store persisted) persisted "u1" 101
                  persisted_user)).
Defined.

Lemma configurationsLoaded_last_wins_witness :
  user (initial "u1" Granted) = Some "u1"%string
  /\ loading (configurationsLoaded [config101 false; config101 true] (initial "u1" Granted))
     = false.
Proof.
  apply conj; [reflexivity|].
  exact (proj1 (configurationsLoaded_last_wins [config101 false; config101 true]
                  (initial "u1" Granted) "u1" 101 eq_refl)).
Defined.

Lemma updateConfiguration_saved_witness :
  @reachable alwaysOpen scenario
  /\ user scenario = Some "u1"%string
  /\ snd (updateConfiguration 101 (config101 true) true scenario) = true.
Proof.
  apply conj; [exact reachable_scenario|]. apply conj; [exact scenario_user|].
  exact (proj1 (@updateConfiguration_saved alwaysOpen 101 (config101 true) scenario "u1"
                  reachable_scenario scenario_user)).
Defined.

Lemma acknowledging_fresh_alert_misses_store_witness :
  @reachable alwaysOpen fired
  /\ user fired = Some "u1"%string
  /\ pendingLogs fired !! 0%nat = Some firedAlert
  /\ store (logAlertSettled 0 true 30100 fired)
     = store fired ++ [Log.with_id (nextId fired) 30100 (pa_alert firedAlert)].
Proof.
  apply conj; [exact reachable_fired|]. apply conj; [exact fired_user|].
  apply conj; [exact fired_pending|].
  exact (proj1 (@acknowledging_fresh_alert_misses_store alwaysOpen 0%nat 30100 40000 40001
                  fired firedAlert "u1" reachable_fired fired_user fired_pending)).
Defined.

Lemma batch_touches_only_its_instruments_witness :
  @reachable alwaysOpen scenario
  /\ (forall tick, tick ∈ [otherTick] -> Tick.instrument_token tick <> 101)
  /\ getState 101 (@processTicks alwaysOpen [otherTick] 11000 scenario) = getState 101 scenario.
Proof.
  apply conj; [exact reachable_scenario|]. apply conj; [exact otherTick_other|].
  exact (proj1 (@batch_touches_only_its_instruments alwaysOpen [otherTick] 11000 scenario 101
                  reachable_scenario otherTick_other)).
Defined.

Lemma loadRecentAlerts_loads_unacknowledged_witness :
  user persisted = Some "u1"%string
  /\ (length (alerts (loadRecentAlerts true persisted)) <= 50)%nat.
Proof.
  apply conj; [exact persisted_user|].
  exact (proj1 (loadRecentAlerts_loads_unacknowledged persisted "u1" persisted_user)).
Defined.
